(** * mint-amazon-linker: the reconciliation core and what feeds it

    A shallow embedding of [amountsMatch], [combinations], [getTotalAmount]
    and of the [Joiner] module (match strategies, item allocator,
    [joinOrders]), followed by the properties of the specification that are
    stated about them; then of what the clients and the command line
    compute ([MintClient.getTransactions] from the response on, the body
    that [updateTransaction] sends, [AmazonClient.getOrders] and
    [getReturns] from the parsed rows on, the arguments of index.ts), with
    the properties that this code shows.  The network, the file system,
    the CSV parser and the browser are outside the model.

    Modelling conventions.
    - A JavaScript [number] holding an amount is modelled by an exact
      rational ([Q]), and the arithmetic of the code on amounts by exact
      arithmetic.  The code computes in binary floating point: it reads
      25.12 as the nearest double, rounds every sum and difference, and
      [Number(x.toFixed(2))] is the double nearest to a hundredth.  Model
      and code agree where the amounts and what is computed from them are
      exact in binary floating point (-55, -40, 15, 0.25); elsewhere a test
      of the code that falls within a rounding error of its threshold may
      come out the other way.  The balance of a record is therefore
      stated with the operations of the code ([amountsMatch],
      [getTotalAmount], the subtractions of the allocator), applied to the
      same operands in the same order.
    - The 32-bit integer operators [<<] and [&] wrap as in ECMAScript
      ([toInt32], shift counts taken modulo 32).
    - A [Date] is its [getTime()] value, an integer number of milliseconds.
    - A thrown exception is the result [Throw]; loops that the source writes
      as [while] carry a fuel argument and answer [OutOfFuel] when it runs
      out (which [joinOrders] never does, see [joinOrders_fuel]; on small
      inputs it returns, see [joinOrders_returns]).
    - Object identity ([Array.prototype.indexOf], used by [removeItem]) is
      modelled by a reference carried with every object the algorithm may
      remove from an array ([Obj]); the elements of one input array are
      taken to be distinct objects.
    - The clients are modelled from the data they are handed: the
      transactions of the response, and the rows of the files as
      [on_record] returns them.  Dates are valid; the date strings of the
      response are read by a parameter, [newDate].  A string is a sequence
      of 8-bit characters. *)

From Stdlib Require Import ZArith QArith Qabs Qround Lqa Lia.
From Stdlib Require Import String Ascii Bool.
From Stdlib Require Import List Permutation Sorted.
Import ListNotations.

Set Implicit Arguments.
Local Open Scope Z_scope.

(** ** Results of computations that may throw *)

Inductive Res (A : Type) : Type :=
| Ok (a : A)
| Throw
| OutOfFuel.

Arguments Ok {A} a.
Arguments Throw {A}.
Arguments OutOfFuel {A}.

Definition bind {A B : Type} (r : Res A) (k : A -> Res B) : Res B :=
  match r with
  | Ok a => k a
  | Throw => Throw
  | OutOfFuel => OutOfFuel
  end.

Notation "x <- c ;; k" := (bind c (fun x => k))
  (at level 61, c at next level, right associativity).
Notation "' p <- c ;; k" := (bind c (fun p => k))
  (at level 61, p pattern, c at next level, right associativity).

(** ** utils.ts *)

(** *** 32-bit integer operators *)

Definition toInt32 (z : Z) : Z := (z + 2 ^ 31) mod 2 ^ 32 - 2 ^ 31.

(** [a << b] *)
Definition shl32 (a b : Z) : Z := toInt32 (toInt32 a * 2 ^ (b mod 32)).

(** [a & b] *)
Definition and32 (a b : Z) : Z := Z.land (toInt32 a) (toInt32 b).

(** *** Amounts *)

Local Open Scope Q_scope.

Definition Qltb (a b : Q) : bool :=
  match a ?= b with Lt => true | _ => false end.

Definition cent : Q := 1 # 100.

(** [amountsMatch(a, b)]: [Math.abs(a - b) < 0.01] *)
Definition amountsMatch (a b : Q) : bool := Qltb (Qabs (a - b)) cent.

(** [Number(x.toFixed(2))].  [toFixed] rounds the absolute value to the
    nearest hundredth, the larger one on a tie, and keeps the sign; at
    1e21 and above it prints the number as it is.  Here the result is that
    hundredth; in the code it is the double nearest to it, and what is
    rounded is the binary value of [x]. *)
Definition toFixed2 (x : Q) : Q :=
  if Qle_bool (inject_Z (10 ^ 21)%Z) (Qabs x) then x
  else
    let n := Qfloor (Qabs x * inject_Z 100 + (1 # 2)) in
    if Qltb x 0 then - (inject_Z n / inject_Z 100)
    else inject_Z n / inject_Z 100.

(** [items.reduce((amount, item) => amount + item.amount, 0)]: the amounts
    added from left to right, here without the rounding that the code
    makes after every addition. *)
Definition sumAmounts {A : Type} (amt : A -> Q) (items : list A) : Q :=
  fold_left (fun amount item => amount + amt item) items 0.

(** [getTotalAmount(items)] for a list of objects with an [amount] field,
    read by [amt]. *)
Definition getTotalAmount {A : Type} (amt : A -> Q) (items : list A) : Q :=
  toFixed2 (sumAmounts amt items).

Local Close Scope Q_scope.

(** *** combinations *)

(** [array.filter((e, j) => p(j))], indices counted from [j]. *)
Fixpoint filterFrom {T : Type} (p : Z -> bool) (j : Z) (array : list T)
  : list T :=
  match array with
  | [] => []
  | e :: rest =>
      if p j then e :: filterFrom p (j + 1) rest
      else filterFrom p (j + 1) rest
  end.

Definition filteri {T : Type} (p : Z -> bool) (array : list T) : list T :=
  filterFrom p 0 array.

(** A number used as a condition: zero is falsy. *)
Definition truthy (z : Z) : bool := negb (z =? 0).

(** [new Array((1 << array.length) - 1).fill(null).map((e1, i) =>
      array.filter((e2, j) => (i + 1) & (1 << j)))].
    [new Array(len)] throws a RangeError for a negative [len]. *)
Definition combinations {T : Type} (array : list T) : Res (list (list T)) :=
  let len := shl32 1 (Z.of_nat (length array)) - 1 in
  if len <? 0 then Throw
  else
    Ok (map (fun i : nat =>
               filteri (fun j => truthy (and32 (Z.of_nat i + 1) (shl32 1 j)))
                       array)
            (seq 0 (Z.to_nat len))).

(** The subset of [array] selected by the binary mask [m], in the words of
    the specification: member [j] is included iff bit [j] of [m] is set. *)
Definition subsetOfMask {T : Type} (m : Z) (array : list T) : list T :=
  filteri (fun j => Z.testbit m j) array.

(** [s] keeps the relative order of [l]: it is a subsequence of [l]. *)
Inductive subseq {T : Type} : list T -> list T -> Prop :=
| subseq_nil : subseq [] []
| subseq_skip x s l : subseq s l -> subseq s (x :: l)
| subseq_keep x s l : subseq s l -> subseq (x :: s) (x :: l).


(** ** Array helpers *)

(** An object together with its identity. *)
Record Obj (A : Type) : Type := mkObj { ref : nat; val : A }.

(** Fresh objects for the elements of an array, numbered from [k]. *)
Fixpoint tagFrom {A : Type} (k : nat) (l : list A) : list (Obj A) :=
  match l with
  | [] => []
  | x :: rest => mkObj k x :: tagFrom (S k) rest
  end.

(** [removeItem(array, item)]: [indexOf] looks for the same object. *)
Fixpoint removeItem {A : Type} (array : list (Obj A)) (item : Obj A)
  : list (Obj A) :=
  match array with
  | [] => []
  | x :: rest =>
      if Nat.eqb (ref x) (ref item) then rest else x :: removeItem rest item
  end.

(** [Array.prototype.sort(compare)], a stable sort; [before a b] is
    [compare(a, b) < 0]. *)
Section Sort.
Variable A : Type.
Variable before : A -> A -> bool.

Fixpoint insertSorted (x : A) (l : list A) : list A :=
  match l with
  | [] => [x]
  | y :: rest => if before y x then y :: insertSorted x rest else x :: l
  end.

Fixpoint sort (l : list A) : list A :=
  match l with
  | [] => []
  | x :: rest => insertSorted x (sort rest)
  end.

(** [a] may stand before [b] in a sorted array. *)
Definition notAfter (a b : A) : Prop := before b a = false.
End Sort.

(** [String.prototype.trim] on strings of 8-bit characters. *)
Definition isWhiteSpace (c : ascii) : bool :=
  let n := nat_of_ascii c in
  ((9 <=? n) && (n <=? 13) || (n =? 32) || (n =? 160))%nat.

Fixpoint trimStart (s : string) : string :=
  match s with
  | EmptyString => EmptyString
  | String c rest => if isWhiteSpace c then trimStart rest else s
  end.

Fixpoint reverse (s acc : string) : string :=
  match s with
  | EmptyString => acc
  | String c rest => reverse rest (String c acc)
  end.

Definition trim (s : string) : string :=
  reverse (trimStart (reverse (trimStart s) "")) "".

(** ** Data model (AmazonClient.ts, MintClient.ts, Joiner.ts) *)

Definition Date := Z.

Module Item.
Record t := mk { description : string; amount : Q }.
End Item.

Module Shipment.
Record t := mk {
  trackingId : string;
  shipmentDate : Date;
  amount : Q;
  items : list Item.t }.
End Shipment.

(** An order; [S] is the type of the elements of [shipments]: plain
    shipments in the caller's data, shipment objects in the working copy. *)
Module Order.
Record t (S : Type) := mk {
  orderId : string;
  orderDate : Date;
  usedGiftCard : bool;
  shipments : list S }.
Arguments mk {S}.
End Order.

Module Return.
Record t := mk {
  orderId : string;
  returnDate : Date;
  amount : Q;
  items : list Item.t }.
End Return.

Module ChildTransaction.
Record t := mk { description : string; amount : Q }.
End ChildTransaction.

Module Transaction.
Record t := mk {
  id : string;
  amount : Q;
  date : Date;
  children : list ChildTransaction.t }.
End Transaction.

Module JoinedRecordItem.
Record t := mk { trackingId : string; description : string; amount : Q }.
End JoinedRecordItem.

Module JoinedRecord.
Record t := mk {
  mintTransactionId : string;
  orderId : string;
  orderDate : Date;
  amount : Q;
  items : list JoinedRecordItem.t;
  isUnmodified : bool }.
End JoinedRecord.

Module GiftCard.
Record t := mk { orderId : string; amount : Q }.
End GiftCard.

Definition AmazonOrder := Order.t Shipment.t.
Definition WorkingOrder := Order.t (Obj Shipment.t).

(** ** Joiner.ts *)

Definition WINDOW_MS : Z := 14 * 24 * 60 * 60 * 1000.
Definition DESCRIPTION_PREFIX : string := "Amazon - ".
Definition GIFT_CARD_DESCRIPTION : string := "Gift Card".

Definition getTimeDelta (a b : Date) : Z := Z.abs (a - b).

Definition inRange (candidate start : Date) : bool :=
  (candidate >=? start) && (candidate <=? start + WINDOW_MS).

Definition txAmount (t : Obj Transaction.t) : Q := Transaction.amount (val t).
Definition txDate (t : Obj Transaction.t) : Date := Transaction.date (val t).
Definition shipmentAmount (s : Obj Shipment.t) : Q := Shipment.amount (val s).
Definition itemAmount (i : Obj JoinedRecordItem.t) : Q :=
  JoinedRecordItem.amount (val i).

(** The comparator of the two date-distance sorts. *)
Definition closerTo (orderDate : Date) (a b : Obj Transaction.t) : bool :=
  getTimeDelta (txDate a) orderDate - getTimeDelta (txDate b) orderDate <? 0.

(** What a match strategy hands back: the transactions it returns, and the
    shipment group and the pending returns as its side effects left them. *)
Definition MatcherResult : Type :=
  (list (Obj Transaction.t) * list (Obj Shipment.t) * list Return.t)%type.

Section Matchers.
Variable shipments : list (Obj Shipment.t).
Variable amount : Q.
Variable amazonOrder : WorkingOrder.
Variable amazonReturns : list Return.t.
Variable mintTransactions : list (Obj Transaction.t).

Definition debitsInWindow : list (Obj Transaction.t) :=
  filter (fun t => inRange (txDate t) (Order.orderDate amazonOrder))
    (filter (fun t => Qltb (txAmount t) 0) mintTransactions).

Definition getExactMatches : Res MatcherResult :=
  let sorted :=
    sort (closerTo (Order.orderDate amazonOrder))
      (filter (fun t => amountsMatch (txAmount t) amount) debitsInWindow) in
  Ok (match sorted with
      | mintTransaction :: _ => [mintTransaction]
      | [] => []
      end, shipments, amazonReturns).

Definition getCombinationMatches : Res MatcherResult :=
  all <- combinations
           (sort (closerTo (Order.orderDate amazonOrder)) debitsInWindow) ;;
  let transactionCombinations :=
    filter (fun combination => (2 <=? length combination)%nat) all in
  Ok (match find (fun c => amountsMatch (getTotalAmount txAmount c) amount)
                 transactionCombinations with
      | Some transactionCombination => transactionCombination
      | None => []
      end, shipments, amazonReturns).

(** [amazonReturns] without the first return that satisfies [p]: the
    [removeItem] of the element that [find] returned. *)
Fixpoint removeFirst (p : Return.t -> bool) (l : list Return.t)
  : list Return.t :=
  match l with
  | [] => []
  | r :: rest => if p r then rest else r :: removeFirst p rest
  end.

Definition pushItems (s : Obj Shipment.t) (new : list Item.t)
  : Obj Shipment.t :=
  mkObj (ref s)
    (Shipment.mk (Shipment.trackingId (val s))
       (Shipment.shipmentDate (val s)) (Shipment.amount (val s))
       (Shipment.items (val s) ++ new)).

Definition getGiftCardMatches : Res MatcherResult :=
  if negb (Order.usedGiftCard amazonOrder) then
    Ok ([], shipments, amazonReturns)
  else
    let sorted :=
      sort (fun a b =>
              Qltb (Qabs (txAmount a - amount) - Qabs (txAmount b - amount))
                   0)
        (filter (fun t => Qltb amount (txAmount t)) debitsInWindow) in
    match sorted with
    | [] => Ok ([], shipments, amazonReturns)
    | mintTransaction :: _ =>
        let giftCardAmount := (amount - txAmount mintTransaction)%Q in
        let matches r := amountsMatch (Return.amount r) (- giftCardAmount) in
        match shipments with
        | [] => Throw
        | first :: others =>
            match find matches amazonReturns with
            | Some matchingReturn =>
                Ok ([mintTransaction],
                    pushItems first
                      (map (fun item =>
                              Item.mk (Item.description item)
                                      (- Item.amount item))
                           (Return.items matchingReturn)) :: others,
                    removeFirst matches amazonReturns)
            | None =>
                Ok ([mintTransaction],
                    pushItems first
                      [Item.mk GIFT_CARD_DESCRIPTION
                               (toFixed2 (- giftCardAmount))] :: others,
                    amazonReturns)
            end
        end
    end.
End Matchers.

(** A transaction the Gift-Card strategy may pick for the candidate amount
    [amount]: a debit inside the date window of the order, larger than
    [amount]. *)
Definition giftCardCandidate (amount : Q) (amazonOrder : WorkingOrder)
  (t : Obj Transaction.t) : Prop :=
  (txAmount t < 0)%Q /\
  inRange (txDate t) (Order.orderDate amazonOrder) = true /\
  (amount < txAmount t)%Q.

(** The three strategies, in the order [joinOrders] runs them. *)
Inductive Matcher := ExactMatcher | CombinationMatcher | GiftCardMatcher.

Definition runMatcher (m : Matcher) :=
  match m with
  | ExactMatcher => getExactMatches
  | CombinationMatcher => getCombinationMatches
  | GiftCardMatcher => getGiftCardMatches
  end.

Definition itemMatchesChild (item : JoinedRecordItem.t)
  (child : ChildTransaction.t) : bool :=
  amountsMatch (ChildTransaction.amount child) (JoinedRecordItem.amount item)
  && String.eqb (trim (ChildTransaction.description child))
                (trim (JoinedRecordItem.description item)).

Definition transactionMatches (joinedRecord : JoinedRecord.t)
  (mintTransaction : Transaction.t) : bool :=
  if negb (length (Transaction.children mintTransaction)
           =? length (JoinedRecord.items joinedRecord))%nat
  then false
  else
    forallb (fun item =>
               existsb (itemMatchesChild item)
                       (Transaction.children mintTransaction))
            (JoinedRecord.items joinedRecord).

(** *** joinOrders *)

(** The variables of [joinOrders] that the matching loops update.
    [amazonReturns] is the array the caller passed in: it is cloned only
    after the first pass. *)
Record State := mkState {
  mintTransactions : list (Obj Transaction.t);
  amazonReturns : list Return.t;
  joinedRecords : list JoinedRecord.t;
  giftCards : list GiftCard.t }.

(** The item pool of a matched shipment group: one fresh object per item. *)
Definition flattenItems (shipments : list (Obj Shipment.t))
  : list (Obj JoinedRecordItem.t) :=
  tagFrom 0
    (flat_map (fun shipment =>
                 map (fun item =>
                        JoinedRecordItem.mk
                          (Shipment.trackingId (val shipment))
                          (DESCRIPTION_PREFIX ++ Item.description item)
                          (Item.amount item))
                     (Shipment.items (val shipment)))
              shipments).

(** The loop over [combinations(items)]: every subset that totals the
    transaction amount becomes [matchItems] and has its members removed
    from [items]. *)
Definition exactSubsetScan (items : list (Obj JoinedRecordItem.t))
  (matchAmount : Q)
  : Res (list (Obj JoinedRecordItem.t) * list (Obj JoinedRecordItem.t)) :=
  all <- combinations items ;;
  Ok (fold_left
        (fun (acc : list (Obj JoinedRecordItem.t)
                    * list (Obj JoinedRecordItem.t)) itemCombination =>
           if amountsMatch (getTotalAmount itemAmount itemCombination)
                           matchAmount
           then (itemCombination, fold_left removeItem itemCombination (snd acc))
           else acc)
        all ([], items)).

(** The [while (items.length > 0 && remainingAmount < 0)] loop; the item
    taken is [items[0]], so [removeItem] leaves the tail. *)
Fixpoint splitAcross (items : list (Obj JoinedRecordItem.t))
  (matchItems : list JoinedRecordItem.t) (remainingAmount : Q)
  : list JoinedRecordItem.t * list (Obj JoinedRecordItem.t) * Q :=
  match items with
  | [] => (matchItems, [], remainingAmount)
  | item :: rest =>
      if Qltb remainingAmount 0 then
        splitAcross rest (matchItems ++ [val item])
                    (remainingAmount - itemAmount item)%Q
      else (matchItems, items, remainingAmount)
  end.

Definition balanceAdjust (remainingAmount : Q) : JoinedRecordItem.t :=
  JoinedRecordItem.mk "none" (DESCRIPTION_PREFIX ++ "Balance Adjust")
                      remainingAmount.

(** The Item Allocator: the items of one matched transaction and the pool
    that is left. *)
Definition allocateItems (items : list (Obj JoinedRecordItem.t))
  (matchAmount : Q)
  : Res (list JoinedRecordItem.t * list (Obj JoinedRecordItem.t)) :=
  '(matchItems, items1) <- exactSubsetScan items matchAmount ;;
  if (length matchItems =? 0)%nat then
    let '(matchItems2, items2, remainingAmount) :=
      splitAcross items1 [] matchAmount in
    if negb (amountsMatch remainingAmount 0) then
      Ok (matchItems2 ++ [balanceAdjust remainingAmount], items2)
    else Ok (matchItems2, items2)
  else Ok (map (@val _) matchItems, items1).

Definition isGiftCardItem (item : JoinedRecordItem.t) : bool :=
  String.eqb (JoinedRecordItem.description item)
             (DESCRIPTION_PREFIX ++ GIFT_CARD_DESCRIPTION).

Definition makeJoinedRecord (amazonOrder : WorkingOrder)
  (match_ : Obj Transaction.t) (matchItems : list JoinedRecordItem.t)
  : JoinedRecord.t :=
  let joinedRecord :=
    JoinedRecord.mk (Transaction.id (val match_)) (Order.orderId amazonOrder)
      (Order.orderDate amazonOrder) (txAmount match_) matchItems false in
  JoinedRecord.mk (JoinedRecord.mintTransactionId joinedRecord)
    (JoinedRecord.orderId joinedRecord) (JoinedRecord.orderDate joinedRecord)
    (JoinedRecord.amount joinedRecord) (JoinedRecord.items joinedRecord)
    (transactionMatches joinedRecord (val match_)).

(** [for (const match of matches) { ... }] *)
Fixpoint forMatches (amazonOrder : WorkingOrder)
  (matches : list (Obj Transaction.t))
  (items : list (Obj JoinedRecordItem.t)) (st : State)
  : Res (list (Obj JoinedRecordItem.t) * State) :=
  match matches with
  | [] => Ok (items, st)
  | match_ :: rest =>
      '(matchItems, items1) <- allocateItems items (txAmount match_) ;;
      let newGiftCards :=
        map (fun item => GiftCard.mk (Order.orderId amazonOrder)
                                     (JoinedRecordItem.amount item))
            (filter isGiftCardItem matchItems) in
      forMatches amazonOrder rest items1
        (mkState (removeItem (mintTransactions st) match_)
                 (amazonReturns st)
                 (joinedRecords st
                  ++ [makeJoinedRecord amazonOrder match_ matchItems])
                 (giftCards st ++ newGiftCards))
  end.

Definition setShipments (o : WorkingOrder) (l : list (Obj Shipment.t))
  : WorkingOrder :=
  Order.mk (Order.orderId o) (Order.orderDate o) (Order.usedGiftCard o) l.

(** [for (const shipments of shipmentCombinations) { ... break; }]: the
    first shipment group for which the strategy returns transactions is
    consumed; [None] when the loop ends without a [break].  A strategy that
    returns no transaction has had no side effect
    ([runMatcher_no_match]). *)
Fixpoint forShipmentCombinations (matcher : Matcher)
  (amazonOrder : WorkingOrder) (st : State)
  (shipmentCombinations : list (list (Obj Shipment.t)))
  : Res (option (WorkingOrder * State)) :=
  match shipmentCombinations with
  | [] => Ok None
  | shipments :: rest =>
      let amount := getTotalAmount shipmentAmount shipments in
      '(matches, shipments1, amazonReturns1) <-
        runMatcher matcher shipments amount amazonOrder (amazonReturns st)
                   (mintTransactions st) ;;
      if (0 <? length matches)%nat then
        '(_, st1) <-
          forMatches amazonOrder matches (flattenItems shipments1)
            (mkState (mintTransactions st) amazonReturns1 (joinedRecords st)
                     (giftCards st)) ;;
        Ok (Some (setShipments amazonOrder
                    (fold_left removeItem shipments1
                               (Order.shipments amazonOrder)),
                  st1))
      else forShipmentCombinations matcher amazonOrder st rest
  end.

(** [while (dirty) { ... }] for one order.  The boolean tells whether
    [removeItem(amazonOrders, amazonOrder); i--] ran: that is after a match
    that left the order without shipments, and then the next round finds no
    combination and ends the loop. *)
Fixpoint whileDirty (fuel : nat) (matcher : Matcher)
  (amazonOrder : WorkingOrder) (removed : bool) (st : State)
  : Res (WorkingOrder * bool * State) :=
  match fuel with
  | O => OutOfFuel
  | S fuel' =>
      all <- combinations (Order.shipments amazonOrder) ;;
      found <- forShipmentCombinations matcher amazonOrder st (rev all) ;;
      match found with
      | None => Ok (amazonOrder, removed, st)
      | Some (amazonOrder1, st1) =>
          whileDirty fuel' matcher amazonOrder1
            (removed || (length (Order.shipments amazonOrder1) =? 0)%nat) st1
      end
  end.

(** [for (let i = 0; i < amazonOrders.length; i++) { ... }]: [kept] is
    [amazonOrders] before index [i], [todo] is the rest. *)
Fixpoint forOrders (matcher : Matcher) (kept todo : list WorkingOrder)
  (st : State) : Res (list WorkingOrder * State) :=
  match todo with
  | [] => Ok (kept, st)
  | amazonOrder :: rest =>
      '(amazonOrder1, removed, st1) <-
        whileDirty (S (length (Order.shipments amazonOrder))) matcher
                   amazonOrder false st ;;
      if removed then forOrders matcher kept rest st1
      else forOrders matcher (kept ++ [amazonOrder1]) rest st1
  end.

(** [for (const matcher of [getExactMatches, getCombinationMatches,
    getGiftCardMatches]) { ... }] *)
Fixpoint forMatchers (matchers : list Matcher)
  (amazonOrders : list WorkingOrder) (st : State)
  : Res (list WorkingOrder * State) :=
  match matchers with
  | [] => Ok (amazonOrders, st)
  | matcher :: rest =>
      '(amazonOrders1, st1) <- forOrders matcher [] amazonOrders st ;;
      forMatchers rest amazonOrders1 st1
  end.

(** *** The return pass *)

Definition returnMatches (giftCards : list GiftCard.t)
  (amazonReturn : Return.t) (transaction : Obj Transaction.t)
  : option (option GiftCard.t) :=
  let giftCard :=
    find (fun giftCard =>
            amountsMatch (txAmount transaction)
                         (Return.amount amazonReturn - GiftCard.amount giftCard))
         giftCards in
  match giftCard with
  | Some g => Some (Some g)
  | None =>
      if amountsMatch (txAmount transaction) (Return.amount amazonReturn)
      then Some None else None
  end.

Definition makeReturnRecord (amazonReturn : Return.t)
  (transaction : Obj Transaction.t) (giftCard : option GiftCard.t)
  : JoinedRecord.t :=
  let items :=
    map (fun item =>
           JoinedRecordItem.mk "none"
             (DESCRIPTION_PREFIX ++ Item.description item)
             (- Item.amount item))
        (Return.items amazonReturn)
    ++ match giftCard with
       | Some g =>
           [JoinedRecordItem.mk "none"
              (DESCRIPTION_PREFIX ++ GIFT_CARD_DESCRIPTION)
              (- GiftCard.amount g)]
       | None => []
       end in
  let joinedRecord :=
    JoinedRecord.mk (Transaction.id (val transaction))
      (Return.orderId amazonReturn) (Return.returnDate amazonReturn)
      (txAmount transaction) items false in
  JoinedRecord.mk (JoinedRecord.mintTransactionId joinedRecord)
    (JoinedRecord.orderId joinedRecord) (JoinedRecord.orderDate joinedRecord)
    (JoinedRecord.amount joinedRecord) (JoinedRecord.items joinedRecord)
    (transactionMatches joinedRecord (val transaction)).

(** [for (const transaction of mintTransactions) { ... break; }]: the first
    transaction that settles the return, with the gift card used. *)
Fixpoint findReturnTransaction (giftCards : list GiftCard.t)
  (amazonReturn : Return.t) (pool : list (Obj Transaction.t))
  : option (Obj Transaction.t * option GiftCard.t) :=
  match pool with
  | [] => None
  | transaction :: rest =>
      match returnMatches giftCards amazonReturn transaction with
      | Some giftCard => Some (transaction, giftCard)
      | None => findReturnTransaction giftCards amazonReturn rest
      end
  end.

(** [for (let i = 0; i < amazonReturns.length; i++) { ... }] over the
    cloned returns; [kept] is the array before index [i]. *)
Fixpoint forReturns (giftCards : list GiftCard.t)
  (kept todo : list Return.t) (pool : list (Obj Transaction.t))
  (records : list JoinedRecord.t)
  : list Return.t * list (Obj Transaction.t) * list JoinedRecord.t :=
  match todo with
  | [] => (kept, pool, records)
  | amazonReturn :: rest =>
      match findReturnTransaction giftCards amazonReturn pool with
      | Some (transaction, giftCard) =>
          forReturns giftCards kept rest (removeItem pool transaction)
            (records ++ [makeReturnRecord amazonReturn transaction giftCard])
      | None => forReturns giftCards (kept ++ [amazonReturn]) rest pool records
      end
  end.

(** *** The whole run *)

(** The object [joinOrders] returns; [resultJoinedRecords] is its field
    [joinedRecords]. *)
Record JoinResult := mkJoinResult {
  resultJoinedRecords : list JoinedRecord.t;
  remainingMintTransactions : list Transaction.t;
  remainingAmazonOrders : list AmazonOrder;
  remainingAmazonReturns : list Return.t }.

(** The three arrays the caller handed to [joinOrders], as the caller sees
    them. *)
Record Caller := mkCaller {
  callerTransactions : list Transaction.t;
  callerOrders : list AmazonOrder;
  callerReturns : list Return.t }.

Definition cloneOrder (o : AmazonOrder) : WorkingOrder :=
  Order.mk (Order.orderId o) (Order.orderDate o) (Order.usedGiftCard o)
           (tagFrom 0 (Order.shipments o)).

Definition plainOrder (o : WorkingOrder) : AmazonOrder :=
  Order.mk (Order.orderId o) (Order.orderDate o) (Order.usedGiftCard o)
           (map (@val _) (Order.shipments o)).

(** The comparator of the order sort, largest total first. *)
Definition largerTotal (a b : WorkingOrder) : bool :=
  Qltb (getTotalAmount shipmentAmount (Order.shipments b)
        - getTotalAmount shipmentAmount (Order.shipments a)) 0.

Definition earlierRecord (a b : JoinedRecord.t) : bool :=
  JoinedRecord.orderDate a - JoinedRecord.orderDate b <? 0.

(** [Joiner.joinOrders]: the value returned, and the caller's arrays after
    the call.  The transactions and the orders are cloned on entry; the
    returns are cloned between the two passes, so what the first pass did
    to [amazonReturns] it did to the caller's array. *)
Definition joinOrders (caller : Caller) : Res (JoinResult * Caller) :=
  let mintTransactions0 := tagFrom 0 (callerTransactions caller) in
  let amazonOrders0 :=
    sort largerTotal (map cloneOrder (callerOrders caller)) in
  '(amazonOrders1, st1) <-
    forMatchers [ExactMatcher; CombinationMatcher; GiftCardMatcher]
      amazonOrders0
      (mkState mintTransactions0 (callerReturns caller) [] []) ;;
  let '(amazonReturns2, mintTransactions2, joinedRecords2) :=
    forReturns (giftCards st1) [] (amazonReturns st1) (mintTransactions st1)
               (joinedRecords st1) in
  Ok (mkJoinResult (sort earlierRecord joinedRecords2)
                   (map (@val _) mintTransactions2)
                   (map plainOrder amazonOrders1)
                   amazonReturns2,
      mkCaller (callerTransactions caller) (callerOrders caller)
               (amazonReturns st1)).

(** *** Notions the properties are stated with *)

(** The (amount, trimmed description) pairs of the items of a record and of
    the children of a transaction. *)
Definition itemPairs (r : JoinedRecord.t) : list (Q * string) :=
  map (fun item => (JoinedRecordItem.amount item,
                    trim (JoinedRecordItem.description item)))
      (JoinedRecord.items r).

Definition childPairs (t : Transaction.t) : list (Q * string) :=
  map (fun child => (ChildTransaction.amount child,
                     trim (ChildTransaction.description child)))
      (Transaction.children t).

Definition samePair (a b : Q * string) : Prop :=
  (fst a == fst b)%Q /\ snd a = snd b.

(** Equality of two lists of pairs as multisets: one is a rearrangement of
    the other, amounts being compared as numbers. *)
Definition sameMultiset (l1 l2 : list (Q * string)) : Prop :=
  exists l, Permutation l1 l /\ Forall2 samePair l l2.

(** What [transactionMatches] decides: as many children as items, and for
    every item a child within the tolerance and of the same trimmed
    description. *)
Definition itemsCoveredBy (r : JoinedRecord.t) (t : Transaction.t) : Prop :=
  length (Transaction.children t) = length (JoinedRecord.items r) /\
  forall item, In item (JoinedRecord.items r) ->
    exists child, In child (Transaction.children t) /\
      (Qabs (ChildTransaction.amount child - JoinedRecordItem.amount item)
       < 1 # 100)%Q /\
      trim (ChildTransaction.description child)
      = trim (JoinedRecordItem.description item).

Definition sumItems (r : JoinedRecord.t) : Q :=
  sumAmounts JoinedRecordItem.amount (JoinedRecord.items r).

(** The records of a list are in non-decreasing order of [orderDate]. *)
Definition sortedByDate (l : list JoinedRecord.t) : Prop :=
  StronglySorted
    (fun a b => JoinedRecord.orderDate a <= JoinedRecord.orderDate b) l.

(** *** One step of the first pass, in relational form *)

(** [c] is made of some of the objects of [l], each taken once. *)
Definition partOf {A : Type} (c l : list A) : Prop :=
  exists rest, Permutation (c ++ rest) l.

(** The items a strategy pushes to the first shipment of the group: the
    negated items of a pending return, or one "Gift Card" item that
    balances the group against the transaction returned. *)
Definition pushedItems (returns : list Return.t) (amount : Q)
  (matches : list (Obj Transaction.t)) (new : list Item.t) : Prop :=
  (exists r, In r returns /\
             new = map (fun item => Item.mk (Item.description item)
                                            (- Item.amount item))
                       (Return.items r)) \/
  (exists t, matches = [t] /\
             new = [Item.mk GIFT_CARD_DESCRIPTION
                            (toFixed2 (- (amount - txAmount t)))]).

(** The shipment group after the strategy ran. *)
Definition pushedTo (returns : list Return.t) (amount : Q)
  (matches : list (Obj Transaction.t)) (shipments s1 : list (Obj Shipment.t))
  : Prop :=
  s1 = shipments \/
  exists first others new,
    shipments = first :: others /\ s1 = pushItems first new :: others /\
    pushedItems returns amount matches new.

(** [r] is the record made for the matched transaction [m] out of some
    state of the item pool [pool]. *)
Inductive Allocated (amazonOrder : WorkingOrder)
  (pool : list (Obj JoinedRecordItem.t)) (m : Obj Transaction.t)
  (r : JoinedRecord.t) : Prop :=
| allocated items a items' :
    subseq items pool ->
    allocateItems items (txAmount m) = Ok (a, items') ->
    r = makeJoinedRecord amazonOrder m a ->
    Allocated amazonOrder pool m r.

(** One round of the [while (dirty)] loop that found a match: what it did
    to the order and to the variables of [joinOrders]. *)
Inductive MatchStep (o : WorkingOrder) (st : State) (o1 : WorkingOrder)
  (st1 : State) : Prop :=
| matchStep shipments matches s1 news :
    subseq shipments (Order.shipments o) ->
    shipments <> [] ->
    partOf matches (mintTransactions st) ->
    matches <> [] ->
    pushedTo (amazonReturns st) (getTotalAmount shipmentAmount shipments)
             matches shipments s1 ->
    subseq (amazonReturns st1) (amazonReturns st) ->
    mintTransactions st1
    = fold_left (@removeItem _) matches (mintTransactions st) ->
    joinedRecords st1 = joinedRecords st ++ news ->
    Forall2 (Allocated o (flattenItems s1)) matches news ->
    o1 = setShipments o (fold_left (@removeItem _) s1 (Order.shipments o)) ->
    MatchStep o st o1 st1.

(** One round of the [while (dirty)] loop that found a match, with the
    strategy that found it and the equations of the source: the strategy
    returned [matches] for the group [shipments] and left the group as
    [s1] and the pending returns as those of [st1]; the loop over
    [matches] made the records. *)
Inductive MatchRound (o : WorkingOrder) (st : State) (o1 : WorkingOrder)
  (st1 : State) : Prop :=
| matchRound matcher shipments matches s1 items' :
    subseq shipments (Order.shipments o) ->
    shipments <> [] ->
    matches <> [] ->
    runMatcher matcher shipments (getTotalAmount shipmentAmount shipments) o
               (amazonReturns st) (mintTransactions st)
    = Ok (matches, s1, amazonReturns st1) ->
    forMatches o matches (flattenItems s1)
      (mkState (mintTransactions st) (amazonReturns st1) (joinedRecords st)
               (giftCards st))
    = Ok (items', st1) ->
    o1 = setShipments o (fold_left (@removeItem _) s1 (Order.shipments o)) ->
    MatchRound o st o1 st1.

(** The return pass, in relational form: the returns [todo] against the
    pool of transactions leave [unmatched] and [pool'] and add the records
    [news]. *)
Inductive ReturnsMatched (giftCards : list GiftCard.t)
  : list Return.t -> list (Obj Transaction.t) -> list Return.t ->
    list (Obj Transaction.t) -> list JoinedRecord.t -> Prop :=
| returns_done pool : ReturnsMatched giftCards [] pool [] pool []
| returns_match ret rest pool tx gc unmatched pool' news :
    findReturnTransaction giftCards ret pool = Some (tx, gc) ->
    ReturnsMatched giftCards rest (removeItem pool tx) unmatched pool' news ->
    ReturnsMatched giftCards (ret :: rest) pool unmatched pool'
                   (makeReturnRecord ret tx gc :: news)
| returns_skip ret rest pool unmatched pool' news :
    findReturnTransaction giftCards ret pool = None ->
    ReturnsMatched giftCards rest pool unmatched pool' news ->
    ReturnsMatched giftCards (ret :: rest) pool (ret :: unmatched) pool' news.

(** [r] is a record made for the ledger transaction [t]. *)
Definition builtFor (t : Transaction.t) (r : JoinedRecord.t) : Prop :=
  JoinedRecord.mintTransactionId r = Transaction.id t /\
  JoinedRecord.amount r = Transaction.amount t /\
  JoinedRecord.isUnmodified r = transactionMatches r t.

(** Every working transaction is one of the caller's, and every record
    was made for one of the caller's transactions. *)
Definition provenance (transactions : list Transaction.t) (st : State)
  : Prop :=
  Forall (fun m => In (val m) transactions) (mintTransactions st) /\
  Forall (fun r => exists t, In t transactions /\ builtFor t r)
         (joinedRecords st).

(** *** Amount conservation *)

(** Amount conservation for one record. *)
Definition conserved (r : JoinedRecord.t) : Prop :=
  (Qabs (sumItems r - JoinedRecord.amount r) < 1 # 100)%Q.

(** *** The partition of the input *)


(** The items of [r] were taken from the shipments [consumed], or are
    synthetic ("none"). *)
Definition itemsFrom (consumed : list Shipment.t) (r : JoinedRecord.t)
  : Prop :=
  Forall (fun item =>
            JoinedRecordItem.trackingId item = "none"%string \/
            exists s, In s consumed /\
                      JoinedRecordItem.trackingId item = Shipment.trackingId s)
         (JoinedRecord.items r).

Definition allShipments {S : Type} (orders : list (Order.t S)) : list S :=
  flat_map (@Order.shipments S) orders.

(** *** The balance of a record, as the code tests it *)

(** What is left of [amount] when the amounts of [items] have been
    subtracted from it one after the other, as
    [remainingAmount -= item.amount] does. *)
Definition remainingAfter (amount : Q) (items : list JoinedRecordItem.t) : Q :=
  fold_left (fun remainingAmount item =>
               (remainingAmount - JoinedRecordItem.amount item)%Q)
            items amount.

(** The items of [r] passed the test of the subset scan: there is at least
    one, and [getTotalAmount] of them matches the amount of the record. *)
Definition exactlyAllocated (r : JoinedRecord.t) : Prop :=
  JoinedRecord.items r <> [] /\
  amountsMatch (getTotalAmount JoinedRecordItem.amount (JoinedRecord.items r))
               (JoinedRecord.amount r) = true.

(** The items of [r] were split off the pool: the items [taken], and after
    them a "Balance Adjust" item that carries what they leave of the amount
    of the record, unless [amountsMatch] finds that within the tolerance of
    zero. *)
Definition splitAllocated (r : JoinedRecord.t) : Prop :=
  exists taken,
    (JoinedRecord.items r = taken /\
     amountsMatch (remainingAfter (JoinedRecord.amount r) taken) 0 = true) \/
    (JoinedRecord.items r
     = taken ++ [balanceAdjust (remainingAfter (JoinedRecord.amount r) taken)]
     /\ amountsMatch (remainingAfter (JoinedRecord.amount r) taken) 0 = false).

(** The items that the return pass makes of the items of a return. *)
Definition negatedItems (ret : Return.t) : list JoinedRecordItem.t :=
  map (fun item =>
         JoinedRecordItem.mk "none"
           (DESCRIPTION_PREFIX ++ Item.description item)
           (- Item.amount item))
      (Return.items ret).

(** [r] is a record of the return pass for the return [ret]: it carries
    the order id and the date of the return, its items are the negated
    items of the return, and its amount matches the amount of the return;
    or its items end with a "Gift Card" item of minus the amount [g] of a
    gift card, and its amount matches the amount of the return less [g]. *)
Definition refundOf (ret : Return.t) (r : JoinedRecord.t) : Prop :=
  JoinedRecord.orderId r = Return.orderId ret /\
  JoinedRecord.orderDate r = Return.returnDate ret /\
  ((JoinedRecord.items r = negatedItems ret /\
    amountsMatch (JoinedRecord.amount r) (Return.amount ret) = true) \/
   exists g,
     JoinedRecord.items r
     = negatedItems ret
       ++ [JoinedRecordItem.mk "none"
             (DESCRIPTION_PREFIX ++ GIFT_CARD_DESCRIPTION) (- g)] /\
     amountsMatch (JoinedRecord.amount r) (Return.amount ret - g) = true).

(** The balance of a record as [joinOrders] tested it when it made the
    record; [returns] are the returns a record of the return pass may be
    for. *)
Definition balancedAsTested (returns : list Return.t) (r : JoinedRecord.t)
  : Prop :=
  exactlyAllocated r \/ splitAllocated r \/
  exists ret, In ret returns /\ refundOf ret r.

(** *** The ledger of a run *)

(** [o] is the working copy of the order [o0] of the input, with some of
    its shipments left. *)
Definition workingCopyOf (o0 : AmazonOrder) (o : WorkingOrder) : Prop :=
  Order.orderId o = Order.orderId o0 /\
  Order.orderDate o = Order.orderDate o0 /\
  Order.usedGiftCard o = Order.usedGiftCard o0 /\
  subseq (map (@val _) (Order.shipments o)) (Order.shipments o0).

(** A match of the first pass: the order, the group of its shipments that
    was matched, the pending return that the Gift-Card strategy took with
    it (none or one), the transactions matched and the records made for
    them, one each. *)
Module Round.
Record t := mk {
  order : AmazonOrder;
  shipments : list Shipment.t;
  absorbed : list Return.t;
  transactions : list Transaction.t;
  records : list JoinedRecord.t }.
End Round.

(** A match of the return pass: the return, the transaction that settles
    it and the record made for the two. *)
Module Refund.
Record t := mk {
  refunded : Return.t;
  transaction : Transaction.t;
  record : JoinedRecord.t }.
End Refund.

(** [r] is the record of the round [m] for its transaction [t]: it carries
    the id and the amount of [t], the id and the date of the order, and
    items of the shipments of the group (or synthetic ones). *)
Definition recordOfRound (m : Round.t) (t : Transaction.t)
  (r : JoinedRecord.t) : Prop :=
  builtFor t r /\
  JoinedRecord.orderId r = Order.orderId (Round.order m) /\
  JoinedRecord.orderDate r = Order.orderDate (Round.order m) /\
  itemsFrom (Round.shipments m) r.

(** A round takes a pending return only as the Gift-Card strategy does:
    the order used a gift card, one transaction is matched, and the amount
    of the return matches what the transaction leaves unpaid of the
    group. *)
Definition absorbedByGiftCard (m : Round.t) : Prop :=
  Round.absorbed m = [] \/
  exists ret t,
    Round.absorbed m = [ret] /\ Round.transactions m = [t] /\
    Order.usedGiftCard (Round.order m) = true /\
    amountsMatch (Return.amount ret)
                 (- (getTotalAmount Shipment.amount (Round.shipments m)
                     - Transaction.amount t)) = true.

(** [m] is a round on the input [caller]: its order is an order of the
    input, its group is made of shipments of that order and is not empty,
    it has at least one transaction and one record for each, and it took
    no return, or one as the Gift-Card strategy does. *)
Definition roundOf (caller : Caller) (m : Round.t) : Prop :=
  In (Round.order m) (callerOrders caller) /\
  subseq (Round.shipments m) (Order.shipments (Round.order m)) /\
  Round.shipments m <> [] /\
  Round.transactions m <> [] /\
  Forall2 (recordOfRound m) (Round.transactions m) (Round.records m) /\
  absorbedByGiftCard m.

(** The record of the refund [f] is the record of the return pass for its
    return and its transaction. *)
Definition refundOK (f : Refund.t) : Prop :=
  builtFor (Refund.transaction f) (Refund.record f) /\
  refundOf (Refund.refunded f) (Refund.record f).

(** The rounds and the refunds account for the whole input and the whole
    output of a run: every transaction, shipment and return of the input is
    in one round or refund or in one remaining collection, once; the
    returns that the rounds took are those that the run took out of the
    caller's array; every record is the record of one round or refund. *)
Definition ledger (caller : Caller) (result : JoinResult) (caller' : Caller)
  (rounds : list Round.t) (refunds : list Refund.t) : Prop :=
  Permutation (flat_map Round.transactions rounds
               ++ map Refund.transaction refunds
               ++ remainingMintTransactions result)
              (callerTransactions caller) /\
  Permutation (flat_map Round.shipments rounds
               ++ allShipments (remainingAmazonOrders result))
              (allShipments (callerOrders caller)) /\
  Permutation (flat_map Round.absorbed rounds ++ callerReturns caller')
              (callerReturns caller) /\
  Permutation (map Refund.refunded refunds ++ remainingAmazonReturns result)
              (callerReturns caller') /\
  Permutation (flat_map Round.records rounds ++ map Refund.record refunds)
              (resultJoinedRecords result) /\
  Forall (roundOf caller) rounds /\
  Forall refundOK refunds.

(** The state of the first pass against the input: the rounds so far. *)
Definition ledgerSoFar (caller : Caller) (orders : list WorkingOrder)
  (st : State) : Prop :=
  exists rounds,
    NoDup (map (@ref _) (mintTransactions st)) /\
    Permutation (flat_map Round.transactions rounds
                 ++ map (@val _) (mintTransactions st))
                (callerTransactions caller) /\
    Forall (fun o : WorkingOrder =>
              NoDup (map (@ref _) (Order.shipments o)) /\
              exists o0, In o0 (callerOrders caller) /\ workingCopyOf o0 o)
           orders /\
    Permutation (flat_map Round.shipments rounds
                 ++ map (@val _) (allShipments orders))
                (allShipments (callerOrders caller)) /\
    Permutation (flat_map Round.absorbed rounds ++ amazonReturns st)
                (callerReturns caller) /\
    joinedRecords st = flat_map Round.records rounds /\
    Forall (roundOf caller) rounds.

(** *** A run on the remaining outputs of a run *)


(** The debits of [txs] inside the date window of an order. *)
Definition debitsOf (orderDate : Date) (txs : list Transaction.t)
  : list Transaction.t :=
  filter (fun t => inRange (Transaction.date t) orderDate)
         (filter (fun t => Qltb (Transaction.amount t) 0) txs).

(** No transaction of [txs] lets the strategy settle the amount. *)
Definition noMatch (matcher : Matcher) (amount : Q) (orderDate : Date)
  (usedGiftCard : bool) (txs : list Transaction.t) : Prop :=
  match matcher with
  | ExactMatcher =>
      forall t, In t (debitsOf orderDate txs) ->
                amountsMatch (Transaction.amount t) amount = false
  | CombinationMatcher =>
      forall c, partOf c (debitsOf orderDate txs) -> (2 <= length c)%nat ->
                amountsMatch (getTotalAmount Transaction.amount c) amount
                = false
  | GiftCardMatcher =>
      usedGiftCard = false \/
      forall t, In t (debitsOf orderDate txs) ->
                Qltb amount (Transaction.amount t) = false
  end.

(** No group of the shipments is matched by the strategy. *)
Definition quiet (matcher : Matcher) (orderDate : Date) (usedGiftCard : bool)
  (shipments : list Shipment.t) (txs : list Transaction.t) : Prop :=
  forall c, subseq c shipments -> c <> [] ->
            noMatch matcher (getTotalAmount Shipment.amount c) orderDate
                    usedGiftCard txs.

Definition quietOrder (matcher : Matcher) (o : WorkingOrder)
  (pool : list (Obj Transaction.t)) : Prop :=
  quiet matcher (Order.orderDate o) (Order.usedGiftCard o)
        (map (@val _) (Order.shipments o)) (map (@val _) pool).

(** At most 30 transactions and at most 30 shipments per order: the
    subset enumerations of the strategies and of the shipment groups do
    not wrap. *)
Definition smallInput (caller : Caller) : Prop :=
  (length (callerTransactions caller) <= 30)%nat /\
  Forall (fun o : AmazonOrder => (length (Order.shipments o) <= 30)%nat)
         (callerOrders caller).

(** The strategies [done] find nothing more in the orders. *)
Definition settled (done : list Matcher) (orders : list WorkingOrder)
  (st : State) : Prop :=
  (length (mintTransactions st) <= 30)%nat /\
  Forall (fun o : WorkingOrder => (length (Order.shipments o) <= 30)%nat)
         orders /\
  forall m o, In m done -> In o orders -> quietOrder m o (mintTransactions st).

(** *** Runs that do not throw *)

Definition itemCount (shipments : list Shipment.t) : nat :=
  length (flat_map Shipment.items shipments).

(** The item pool of any shipment group of the order, with what a
    Gift-Card match may push to it, has at most 30 items. *)
Definition smallPool (returns : list Return.t) (shipments : list Shipment.t)
  : Prop :=
  (itemCount shipments + 1 <= 30)%nat /\
  Forall (fun r => (itemCount shipments + length (Return.items r) <= 30)%nat)
         returns.

(** An input on which no subset enumeration of a run wraps. *)
Definition smallPools (caller : Caller) : Prop :=
  smallInput caller /\
  Forall (fun o : AmazonOrder =>
            smallPool (callerReturns caller) (Order.shipments o))
         (callerOrders caller).

(** The sizes that matter, during the first pass. *)
Definition sizesOK (orders : list WorkingOrder) (st : State) : Prop :=
  (length (mintTransactions st) <= 30)%nat /\
  Forall (fun o : WorkingOrder =>
            (length (Order.shipments o) <= 30)%nat /\
            smallPool (amazonReturns st) (map (@val _) (Order.shipments o)))
         orders.

(** *** Sample runs *)

Module Sample.

Definition day : Z := 86400000.

(** An order paid partly by gift card: one shipment of -55.00, charged
    -40.00 two days later. *)
Definition giftCardOrder : AmazonOrder :=
  Order.mk "o1" 0 true
    [Shipment.mk "S1" 0 (-55) [Item.mk "Thing" (-55)]].

Definition giftCardCharge : Transaction.t :=
  Transaction.mk "t1" (-40) (2 * day) [ChildTransaction.mk "AMZN" (-40)].

(** A pending return of 15.00. *)
Definition pendingReturn : Return.t :=
  Return.mk "o9" day 15 [Item.mk "Returned" (-15)].

Definition giftCardRun : Caller :=
  mkCaller [giftCardCharge] [giftCardOrder] [pendingReturn].

(** One shipment of two items of -10.00, charged in two transactions of
    -10.00. *)
Definition splitOrder : AmazonOrder :=
  Order.mk "o1" 0 false
    [Shipment.mk "S1" 0 (-20) [Item.mk "X" (-10); Item.mk "Y" (-10)]].

Definition splitRun : Caller :=
  mkCaller [Transaction.mk "t1" (-10) day []; Transaction.mk "t2" (-10) day []]
           [splitOrder] [].



(** One shipment of twice the same item, and a charge whose existing
    children name two different items. *)
Definition twiceOrder : AmazonOrder :=
  Order.mk "o1" 0 false
    [Shipment.mk "S1" 0 (-20) [Item.mk "X" (-10); Item.mk "X" (-10)]].

Definition twiceCharge : Transaction.t :=
  Transaction.mk "t1" (-20) day
    [ChildTransaction.mk "Amazon - X" (-10);
     ChildTransaction.mk "Amazon - Y" (-10)].

Definition twiceRun : Caller := mkCaller [twiceCharge] [twiceOrder] [].

(** A refund of 25.00 for a return that lists no item. *)
Definition refundRun : Caller :=
  mkCaller [Transaction.mk "t1" 25 day []] []
           [Return.mk "o1" day 25 []].

(** An order of five days ago and a refund of the day after. *)
Definition lateOrder : AmazonOrder :=
  Order.mk "o2" (5 * day) false
    [Shipment.mk "S2" (5 * day) (-50) [Item.mk "Late" (-50)]].

Definition datedRun : Caller :=
  mkCaller [Transaction.mk "t1" (-50) (6 * day) [];
            Transaction.mk "t2" 25 (2 * day) []]
           [lateOrder]
           [Return.mk "o1" day 25 [Item.mk "Back" (-25)]].

(** Two orders, the larger of which is matched in part. *)
Definition partOrder : AmazonOrder :=
  Order.mk "A" 0 false
    [Shipment.mk "S1" 0 (-30) [Item.mk "X" (-30)];
     Shipment.mk "S2" 0 (-5) [Item.mk "Y" (-5)]].

Definition smallOrder : AmazonOrder :=
  Order.mk "B" 0 false [Shipment.mk "S3" 0 (-20) [Item.mk "Z" (-20)]].


(** A run in which every kind of thing happens.  The order "o1" has one
    shipment charged as it is and one that stays; the order "o2", paid
    partly by gift card, is charged -40.00 for -55.00 and takes the pending
    return of 15.00 with it; the order "o3" is charged in two transactions
    that no subset of its items totals; a refund of 25.00 settles a return;
    two transactions and two returns find nothing. *)
Definition busyRun : Caller :=
  mkCaller
    [Transaction.mk "t0" 3 day [];
     Transaction.mk "t1" (-20) day [];
     Transaction.mk "t2" (-40) (2 * day) [];
     Transaction.mk "t4" (-7) day [];
     Transaction.mk "t3" 25 (3 * day) [];
     Transaction.mk "t5" (-12) (20 * day) [];
     Transaction.mk "t6" (-18) (20 * day) []]
    [Order.mk "o1" 0 false
       [Shipment.mk "S1" 0 (-20) [Item.mk "A" (-20)];
        Shipment.mk "S4" 0 (-9) [Item.mk "D" (-9)]];
     Order.mk "o2" day true
       [Shipment.mk "S2" day (-55) [Item.mk "Thing" (-55)]];
     Order.mk "o3" (20 * day) false
       [Shipment.mk "S3" (20 * day) (-30)
          [Item.mk "E" (-10); Item.mk "F" (-20)]]]
    [Return.mk "o8" day 6 [];
     Return.mk "o9" day 15 [Item.mk "Returned" (-15)];
     Return.mk "o7" (4 * day) 25 [Item.mk "Back" (-25)];
     Return.mk "o6" day 8 []].

End Sample.

(** ** Helpers shared by the clients *)

(** [array.find(p)] followed by a change of the object found: the first
    element that satisfies [p] is replaced by its image under [f]. *)
Fixpoint updateFirst {A : Type} (p : A -> bool) (f : A -> A) (l : list A)
  : list A :=
  match l with
  | [] => []
  | x :: rest => if p x then f x :: rest else x :: updateFirst p f rest
  end.

(** A loop whose body may throw. *)
Fixpoint foldRes {A B : Type} (f : B -> A -> Res B) (l : list A) (acc : B)
  : Res B :=
  match l with
  | [] => Ok acc
  | x :: rest => acc1 <- f acc x ;; foldRes f rest acc1
  end.

(** [String.prototype.toLowerCase] on strings of 8-bit characters: the
    letters A-Z and the capital letters of Latin-1. *)
Definition lowerChar (c : ascii) : ascii :=
  let n := nat_of_ascii c in
  if ((65 <=? n) && (n <=? 90)
      || (192 <=? n) && (n <=? 222) && negb (n =? 215))%nat
  then ascii_of_nat (n + 32) else c.

Fixpoint toLowerCase (s : string) : string :=
  match s with
  | EmptyString => EmptyString
  | String c rest => String (lowerChar c) (toLowerCase rest)
  end.

(** [s.startsWith(searchString)] *)
Definition startsWith (s searchString : string) : bool :=
  String.prefix searchString s.

(** [s.includes(searchString)] *)
Fixpoint includes (s searchString : string) : bool :=
  startsWith s searchString
  || match s with
     | EmptyString => false
     | String _ rest => includes rest searchString
     end.

(** ** MintClient.ts *)

Module FiData.
Record t := mk { amount : Q; description : string }.
End FiData.

(** An element of [response.data.Transaction]. *)
Module RawTransaction.
Record t := mk {
  id : string;
  parentId : option string;
  description : string;
  date : string;
  amount : Q;
  fiData : option FiData.t }.
End RawTransaction.

Definition DESCRIPTION_KEYWORDS : list string := ["amazon"; "amzn"]%string.
Definition DESCRIPTION_ANTI_KEYWORDS : list string :=
  ["web services"; "clinic"]%string.

(** [let matches = true; for (const antiKeyword of ...) { if (...) { matches
    = false; break; } }] *)
Fixpoint forAntiKeywords (originalDescription : string)
  (antiKeywords : list string) : bool :=
  match antiKeywords with
  | [] => true
  | antiKeyword :: rest =>
      if includes originalDescription antiKeyword then false
      else forAntiKeywords originalDescription rest
  end.

(** [for (const keyword of DESCRIPTION_KEYWORDS) { ... } return false] *)
Fixpoint forKeywords (originalDescription : string) (keywords : list string)
  : bool :=
  match keywords with
  | [] => false
  | keyword :: rest =>
      if includes originalDescription keyword then
        if forAntiKeywords originalDescription DESCRIPTION_ANTI_KEYWORDS
        then true
        else forKeywords originalDescription rest
      else forKeywords originalDescription rest
  end.

(** The callback of [response.data.Transaction.filter]. *)
Definition isAmazonTransaction (transaction : RawTransaction.t) : bool :=
  match RawTransaction.fiData transaction with
  | None => false
  | Some fiData =>
      forKeywords (toLowerCase (FiData.description fiData))
                  DESCRIPTION_KEYWORDS
  end.

Definition hasId (id : string) (t : Transaction.t) : bool :=
  String.eqb (Transaction.id t) id.

(** [existingTransaction.amount += transaction.amount;
     existingTransaction.children.push(...transaction.children)] *)
Definition absorb (transaction existingTransaction : Transaction.t)
  : Transaction.t :=
  Transaction.mk (Transaction.id existingTransaction)
    (Transaction.amount existingTransaction + Transaction.amount transaction)
    (Transaction.date existingTransaction)
    (Transaction.children existingTransaction
     ++ Transaction.children transaction).

(** The callback of [reduce]. *)
Definition addTransaction (results : list Transaction.t)
  (transaction : Transaction.t) : list Transaction.t :=
  match find (hasId (Transaction.id transaction)) results with
  | None => results ++ [transaction]
  | Some _ =>
      updateFirst (hasId (Transaction.id transaction)) (absorb transaction)
                  results
  end.

Definition earlierTransaction (a b : Transaction.t) : bool :=
  Transaction.date a - Transaction.date b <? 0.

Section GetTransactions.
(** [new Date(date)] for the date strings of the response. *)
Variable newDate : string -> Date.

(** The callback of [map]: [id] is [parentId ?? id]. *)
Definition toTransaction (raw : RawTransaction.t) : Transaction.t :=
  Transaction.mk
    (match RawTransaction.parentId raw with
     | Some parentId => parentId
     | None => RawTransaction.id raw
     end)
    (RawTransaction.amount raw)
    (newDate (RawTransaction.date raw))
    [ChildTransaction.mk (RawTransaction.description raw)
                         (RawTransaction.amount raw)].

(** [MintClient.getTransactions], from [response.data.Transaction] on. *)
Definition getTransactions (response : list RawTransaction.t)
  : list Transaction.t :=
  sort earlierTransaction
    (fold_left addTransaction
       (map toTransaction (filter isAmazonTransaction response)) []).
End GetTransactions.

(** The body that [MintClient.updateTransaction] sends. *)
Module UpdateData.
Record t := mk {
  description : option string;
  children : list ChildTransaction.t }.
End UpdateData.

(** The [data] of [updateTransaction]: the first branch is the one of
    [joinedRecord.items.length === 1].  Its [type] is the same string in
    both branches and [children] is [splitData.children]. *)
Definition updateData (joinedRecord : JoinedRecord.t) : UpdateData.t :=
  match JoinedRecord.items joinedRecord with
  | [item] => UpdateData.mk (Some (JoinedRecordItem.description item)) []
  | items =>
      UpdateData.mk None
        (map (fun item =>
                ChildTransaction.mk (JoinedRecordItem.description item)
                  (JoinedRecordItem.amount item
                   * (if Qltb 0 (JoinedRecord.amount joinedRecord)
                      then - (1) else 1))%Q)
             items)
  end.

(** ** AmazonClient.ts *)

(** A row of the order history, as [on_record] returns it. *)
Module FlatItem.
Record t := mk {
  orderId : string;
  orderDate : Date;
  usedGiftCard : bool;
  trackingId : string;
  shipmentDate : Date;
  description : string;
  amount : Q }.
End FlatItem.

(** A row of the returns file, as [on_record] returns it. *)
Module FlatReturn.
Record t := mk { orderId : string; returnDate : Date; amount : Q }.
End FlatReturn.

Definition EXCLUDED_ORDERS : list string :=
  ["111-0256590-5355439"]%string.

Definition hasOrderId (orderId : string) (order : AmazonOrder) : bool :=
  String.eqb (Order.orderId order) orderId.

Definition hasTrackingId (trackingId : string) (shipment : Shipment.t)
  : bool :=
  String.eqb (Shipment.trackingId shipment) trackingId.

(** [shipment.amount += flatItem.amount; shipment.items.push({ ... })] *)
Definition addItem (flatItem : FlatItem.t) (shipment : Shipment.t)
  : Shipment.t :=
  Shipment.mk (Shipment.trackingId shipment) (Shipment.shipmentDate shipment)
    (Shipment.amount shipment + FlatItem.amount flatItem)
    (Shipment.items shipment
     ++ [Item.mk (FlatItem.description flatItem) (FlatItem.amount flatItem)]).

(** The order made for a row whose order id is new. *)
Definition newOrder (flatItem : FlatItem.t) : AmazonOrder :=
  Order.mk (FlatItem.orderId flatItem) (FlatItem.orderDate flatItem)
           (FlatItem.usedGiftCard flatItem) [].

(** The shipment made for a row whose tracking id is new in its order. *)
Definition newShipment (flatItem : FlatItem.t) : Shipment.t :=
  Shipment.mk (FlatItem.trackingId flatItem) (FlatItem.shipmentDate flatItem)
              0 [].

(** What the callback of [reduce] does to the order of the row: the
    shipment of the row's tracking id is looked up, made and pushed if there
    is none, and takes the item. *)
Definition addToOrder (flatItem : FlatItem.t) (order : AmazonOrder)
  : AmazonOrder :=
  let shipments :=
    match find (hasTrackingId (FlatItem.trackingId flatItem))
               (Order.shipments order) with
    | Some _ => Order.shipments order
    | None => Order.shipments order ++ [newShipment flatItem]
    end in
  Order.mk (Order.orderId order) (Order.orderDate order)
    (Order.usedGiftCard order)
    (updateFirst (hasTrackingId (FlatItem.trackingId flatItem))
                 (addItem flatItem) shipments).

(** The callback of [records.reduce]: the order of the row's order id is
    looked up, made and pushed if there is none. *)
Definition addFlatItem (orders : list AmazonOrder) (flatItem : FlatItem.t)
  : list AmazonOrder :=
  let orders1 :=
    match find (hasOrderId (FlatItem.orderId flatItem)) orders with
    | Some _ => orders
    | None => orders ++ [newOrder flatItem]
    end in
  updateFirst (hasOrderId (FlatItem.orderId flatItem)) (addToOrder flatItem)
              orders1.

Definition earlierOrder (a b : AmazonOrder) : bool :=
  Order.orderDate a - Order.orderDate b <? 0.

(** The rows the [for await] loop keeps. *)
Definition sinceStart (startDate : Date) (records : list FlatItem.t)
  : list FlatItem.t :=
  filter (fun record => negb (FlatItem.orderDate record <? startDate)) records.

Definition isExcluded (order : AmazonOrder) : bool :=
  existsb (String.eqb (Order.orderId order)) EXCLUDED_ORDERS.

(** The body of [for (const orderDataPath of this.orderDataPaths)] in
    [getOrders], for the rows [parsed] of one order history: what it pushes
    to [allOrders]. *)
Definition ordersOfPath (startDate : Date) (parsed : list FlatItem.t)
  : list AmazonOrder :=
  let records := sinceStart startDate parsed in
  let orders := fold_left addFlatItem records [] in
  sort earlierOrder (filter (fun order => negb (isExcluded order)) orders).

(** [AmazonClient.getOrders]; [paths] holds the rows of the order history
    of every path. *)
Definition getOrders (startDate : Date) (paths : list (list FlatItem.t))
  : list AmazonOrder :=
  flat_map (ordersOfPath startDate) paths.

(** What [getReturns] returns. *)
Module ReturnsResult.
Record t := mk {
  returns : list Return.t;
  remainingReturns : list Return.t }.
End ReturnsResult.

(** [completeReturn], before the items are looked for. *)
Definition completeReturn (record : FlatReturn.t) : Return.t :=
  Return.mk (FlatReturn.orderId record) (FlatReturn.returnDate record)
            (FlatReturn.amount record) [].

Definition withItems (r : Return.t) (items : list Item.t) : Return.t :=
  Return.mk (Return.orderId r) (Return.returnDate r) (Return.amount r) items.

(** The test of the loop over [combinations(orderItems)]. *)
Definition settlesReturn (amount : Q) (combination : list Item.t) : bool :=
  amountsMatch (- getTotalAmount Item.amount combination) amount.

Definition itemsOfOrder (order : AmazonOrder) : list Item.t :=
  flat_map Shipment.items (Order.shipments order).

(** The body of [for (const record of records)] in [getReturns]. *)
Definition forRecord (orders : list AmazonOrder) (acc : ReturnsResult.t)
  (record : FlatReturn.t) : Res ReturnsResult.t :=
  match find (hasOrderId (FlatReturn.orderId record)) orders with
  | None =>
      Ok (ReturnsResult.mk (ReturnsResult.returns acc)
            (ReturnsResult.remainingReturns acc ++ [completeReturn record]))
  | Some order =>
      all <- combinations (itemsOfOrder order) ;;
      match find (settlesReturn (FlatReturn.amount record)) all with
      | Some combination =>
          Ok (ReturnsResult.mk
                (ReturnsResult.returns acc
                 ++ [withItems (completeReturn record) combination])
                (ReturnsResult.remainingReturns acc))
      | None =>
          Ok (ReturnsResult.mk (ReturnsResult.returns acc)
                (ReturnsResult.remainingReturns acc
                 ++ [completeReturn record]))
      end
  end.

(** The rows the [for await] loop of [getReturns] keeps. *)
Definition returnsSinceStart (startDate : Date) (records : list FlatReturn.t)
  : list FlatReturn.t :=
  filter (fun record => negb (FlatReturn.returnDate record <? startDate))
         records.

(** [AmazonClient.getReturns]; [paths] holds the rows of the returns file
    of every path. *)
Definition getReturns (orders : list AmazonOrder) (startDate : Date)
  (paths : list (list FlatReturn.t)) : Res ReturnsResult.t :=
  foldRes (fun acc parsed =>
             foldRes (forRecord orders) (returnsSinceStart startDate parsed)
                     acc)
          paths (ReturnsResult.mk [] []).

(** ** index.ts *)

Definition START_DATE : Date := 1677628800000.
Definition BUFFERED_START_DATE : Date :=
  START_DATE - 14 * 24 * 60 * 60 * 1000.

Module Options.
Record t := mk {
  amazonOrdersPaths : list string;
  isDryrun : bool;
  isRefreshCredentials : bool }.
End Options.

(** The two errors of the command line. *)
Inductive ArgError :=
| UnknownArg (arg : string)
| NoPaths.

(** [for (let i = 2; i < process.argv.length; i++) { ... }], from the
    argument at index [i] on. *)
Fixpoint forArgs (args : list string) (options : Options.t)
  : ArgError + Options.t :=
  match args with
  | [] => inr options
  | arg :: rest =>
      if startsWith arg "--" then
        if String.eqb arg "--dry-run" then
          forArgs rest
            (Options.mk (Options.amazonOrdersPaths options) true
                        (Options.isRefreshCredentials options))
        else if String.eqb arg "--refresh-creds" then
          forArgs rest
            (Options.mk (Options.amazonOrdersPaths options)
                        (Options.isDryrun options) true)
        else inl (UnknownArg arg)
      else
        forArgs rest
          (Options.mk (Options.amazonOrdersPaths options ++ [arg])
                      (Options.isDryrun options)
                      (Options.isRefreshCredentials options))
  end.

(** The options as the top of index.ts leaves them, or the error it throws. *)
Definition parseArgs (argv : list string) : ArgError + Options.t :=
  match forArgs (skipn 2 argv) (Options.mk [] false false) with
  | inl e => inl e
  | inr options =>
      if (length (Options.amazonOrdersPaths options) =? 0)%nat
      then inl NoPaths
      else inr options
  end.

(** The three arrays that the main function hands to [joinOrders]. *)
Definition joinerInput (newDate : string -> Date)
  (response : list RawTransaction.t) (orderRows : list (list FlatItem.t))
  (returnRows : list (list FlatReturn.t)) : Res Caller :=
  let transactions := getTransactions newDate response in
  let orders := getOrders BUFFERED_START_DATE orderRows in
  found <- getReturns orders BUFFERED_START_DATE returnRows ;;
  Ok (mkCaller transactions orders (ReturnsResult.returns found)).

(** *** Notions the properties of the clients are stated with *)

(** The amount of a shipment is the sum of the amounts of its items, of
    which there is at least one. *)
Definition shipmentBalanced (s : Shipment.t) : Prop :=
  Shipment.items s <> [] /\
  (Shipment.amount s == sumAmounts Item.amount (Shipment.items s))%Q.

(** What a row of the order history says: an item, with the ids of its
    order and of its shipment. *)
Definition Row : Type := (string * string * Item.t)%type.

Definition rowOf (flatItem : FlatItem.t) : Row :=
  (FlatItem.orderId flatItem, FlatItem.trackingId flatItem,
   Item.mk (FlatItem.description flatItem) (FlatItem.amount flatItem)).

(** The rows that can be read back from orders. *)
Definition rowsOfOrder (order : AmazonOrder) : list Row :=
  flat_map (fun shipment =>
              map (fun item => (Order.orderId order,
                                Shipment.trackingId shipment, item))
                  (Shipment.items shipment))
           (Order.shipments order).

Definition rowsOf (orders : list AmazonOrder) : list Row :=
  flat_map rowsOfOrder orders.

(** The rows of an order history that [getOrders] uses. *)
Definition usedRows (startDate : Date) (parsed : list FlatItem.t)
  : list FlatItem.t :=
  filter (fun record =>
            negb (existsb (String.eqb (FlatItem.orderId record))
                          EXCLUDED_ORDERS))
         (sinceStart startDate parsed).

Definition sortedByOrderDate (orders : list AmazonOrder) : Prop :=
  StronglySorted (fun a b : AmazonOrder => Order.orderDate a <= Order.orderDate b)
                 orders.

(** The first of the rows that names the order id. *)
Definition firstRowOf (orderId : string) (records : list FlatItem.t)
  : option FlatItem.t :=
  find (fun record => String.eqb (FlatItem.orderId record) orderId) records.

(** The date and the gift-card flag of [order] are those of [flatItem]. *)
Definition headedBy (flatItem : FlatItem.t) (order : AmazonOrder) : Prop :=
  Order.orderDate order = FlatItem.orderDate flatItem /\
  Order.usedGiftCard order = FlatItem.usedGiftCard flatItem.

(** [r] lists items of the order of its order id that total its amount:
    the order is the first of [orders] with that id, the items are some of
    that order's items, in their order, and at least one. *)
Definition settledBy (orders : list AmazonOrder) (r : Return.t) : Prop :=
  exists order,
    find (hasOrderId (Return.orderId r)) orders = Some order /\
    subseq (Return.items r) (itemsOfOrder order) /\
    Return.items r <> [] /\
    (Qabs (- getTotalAmount Item.amount (Return.items r) - Return.amount r)
     < 1 # 100)%Q.

(** No items of the order of its order id total the amount of [r]. *)
Definition unsettled (orders : list AmazonOrder) (r : Return.t) : Prop :=
  find (hasOrderId (Return.orderId r)) orders = None \/
  exists order,
    find (hasOrderId (Return.orderId r)) orders = Some order /\
    forall c, subseq c (itemsOfOrder order) -> c <> [] ->
              settlesReturn (Return.amount r) c = false.

(** The rows of the returns files that [getReturns] looks at, in the order
    it takes them. *)
Definition returnRows (startDate : Date) (paths : list (list FlatReturn.t))
  : list FlatReturn.t :=
  flat_map (returnsSinceStart startDate) paths.

(** The order of [record] has a number of items on which [combinations]
    throws. *)
Definition overflows (orders : list AmazonOrder) (record : FlatReturn.t)
  : Prop :=
  exists order,
    find (hasOrderId (FlatReturn.orderId record)) orders = Some order /\
    Z.of_nat (length (itemsOfOrder order)) mod 32 = 31.

(** The items of [r] are the first list, in the order [combinations]
    enumerates the items of the order, that settles its amount. *)
Definition firstSettling (orders : list AmazonOrder) (r : Return.t) : Prop :=
  exists order all before after,
    find (hasOrderId (Return.orderId r)) orders = Some order /\
    combinations (itemsOfOrder order) = Ok all /\
    all = before ++ Return.items r :: after /\
    Forall (fun c => settlesReturn (Return.amount r) c = false) before.

(** *** Sample exports *)

Module SampleExport.

(** An order of two shipments, three rows; the second row of the order
    carries another date and the gift-card flag. *)
Definition orderRows : list FlatItem.t :=
  [FlatItem.mk "o1" (3 * Sample.day) false "S1" (4 * Sample.day) "Book" (-(1250 # 100));
   FlatItem.mk "o2" (2 * Sample.day) false "S3" (2 * Sample.day) "Lamp" (-30);
   FlatItem.mk "o1" (5 * Sample.day) true "S2" (5 * Sample.day) "Pen" (-(250 # 100));
   FlatItem.mk "o1" (3 * Sample.day) false "S1" (4 * Sample.day) "Cable" (-5);
   FlatItem.mk "o0" 0 false "S0" 0 "Old" (-1)].

Definition orders : list AmazonOrder := getOrders Sample.day [orderRows].

(** A refund of the pen and the cable, a refund nothing adds up to, and a
    refund of an unknown order. *)
Definition returnRows : list FlatReturn.t :=
  [FlatReturn.mk "o1" (6 * Sample.day) (750 # 100);
   FlatReturn.mk "o1" (6 * Sample.day) 1;
   FlatReturn.mk "o7" (6 * Sample.day) 30;
   FlatReturn.mk "o2" (6 * Sample.day) 30].

(** The record of a refund of 25.00, for two items. *)
Definition refundRecord : JoinedRecord.t :=
  JoinedRecord.mk "t1" "o1" (6 * Sample.day) 25
    [JoinedRecordItem.mk "none" "Amazon - Lamp" 20;
     JoinedRecordItem.mk "none" "Amazon - Pen" 5] false.

(** A response, an order history and a returns file of March 2023. *)
Definition response : list RawTransaction.t :=
  [RawTransaction.mk "t1" None "Amazon" "2023-03-05" (-(1750 # 100))
     (Some (FiData.mk (-(1750 # 100)) "AMZN Mktp US"));
   RawTransaction.mk "t2" None "Hosting" "2023-03-06" (-(900 # 100))
     (Some (FiData.mk (-(900 # 100)) "Amazon Web Services"));
   RawTransaction.mk "t3" (Some "t1"%string) "Amazon" "2023-03-05" (-(250 # 100))
     (Some (FiData.mk (-(250 # 100)) "AMAZON.COM"));
   RawTransaction.mk "t4" None "Refund" "2023-03-09" (750 # 100)
     (Some (FiData.mk (750 # 100) "Amazon refund"));
   RawTransaction.mk "t5" None "Cash" "2023-03-09" (-20) None].

Definition marchRows : list FlatItem.t :=
  [FlatItem.mk "o1" (START_DATE + 3 * Sample.day) false "S1"
     (START_DATE + 4 * Sample.day) "Book" (-(1250 # 100));
   FlatItem.mk "o1" (START_DATE + 3 * Sample.day) false "S2"
     (START_DATE + 4 * Sample.day) "Pen" (-(250 # 100));
   FlatItem.mk "o1" (START_DATE + 3 * Sample.day) false "S1"
     (START_DATE + 4 * Sample.day) "Cable" (-5)].

Definition marchReturns : list FlatReturn.t :=
  [FlatReturn.mk "o1" (START_DATE + 8 * Sample.day) (750 # 100)].

(** An order of 31 items, and a refund for it. *)
Definition bigOrder : AmazonOrder :=
  Order.mk "big" 0 false
    [Shipment.mk "S9" 0 (-31) (repeat (Item.mk "Screw" (-1)) 31)].

Definition bigReturn : FlatReturn.t := FlatReturn.mk "big" Sample.day 2.

End SampleExport.

(** [sub] occurs in [s]. *)
Definition occursIn (sub s : string) : Prop :=
  exists before after, s = (before ++ sub ++ after)%string.

(** The id under which [getTransactions] files a transaction of the
    response: that of its parent, if it has one. *)
Definition groupId (raw : RawTransaction.t) : string :=
  match RawTransaction.parentId raw with
  | Some parentId => parentId
  | None => RawTransaction.id raw
  end.

Definition childOf (raw : RawTransaction.t) : ChildTransaction.t :=
  ChildTransaction.mk (RawTransaction.description raw)
                      (RawTransaction.amount raw).

(** The children of transactions, each with the id of its transaction. *)
Definition childrenOf (transactions : list Transaction.t)
  : list (string * ChildTransaction.t) :=
  flat_map (fun t => map (fun child => (Transaction.id t, child))
                         (Transaction.children t))
           transactions.

(** The amount of a transaction is the sum of the amounts of its children,
    of which there is at least one. *)
Definition transactionBalanced (t : Transaction.t) : Prop :=
  Transaction.children t <> [] /\
  (Transaction.amount t
   == sumAmounts ChildTransaction.amount (Transaction.children t))%Q.

Definition sortedByTransactionDate (l : list Transaction.t) : Prop :=
  StronglySorted (fun a b => Transaction.date a <= Transaction.date b) l.

(** An argument that the command line accepts as an option. *)
Definition knownOption (arg : string) : Prop :=
  arg = "--dry-run"%string \/ arg = "--refresh-creds"%string.

(** An argument that does not stop the command line: a path, or an option
    that it knows. *)
Definition accepted (arg : string) : Prop :=
  startsWith arg "--" = true -> knownOption arg.

Definition isPath (arg : string) : bool := negb (startsWith arg "--").

(** *** Notions for the Exact and Combination strategies *)

(** A transaction the Exact strategy may pick for the candidate amount
    [amount]: a debit inside the date window of the order, within the
    tolerance of [amount]. *)
Definition exactCandidate (amount : Q) (amazonOrder : WorkingOrder)
  (t : Obj Transaction.t) : Prop :=
  (txAmount t < 0)%Q /\
  inRange (txDate t) (Order.orderDate amazonOrder) = true /\
  (Qabs (txAmount t - amount) < 1 # 100)%Q.

(** The array whose subsets the Combination strategy enumerates: the
    debits inside the date window of the order, nearest date first. *)
Definition combinationPool (amazonOrder : WorkingOrder)
  (pool : list (Obj Transaction.t)) : list (Obj Transaction.t) :=
  sort (closerTo (Order.orderDate amazonOrder))
       (debitsInWindow amazonOrder pool).

(** The total by which [joinOrders] sorts the orders. *)
Definition orderTotal (o : AmazonOrder) : Q :=
  getTotalAmount Shipment.amount (Order.shipments o).

(** * Properties *)

(** ** First checks *)

Example combinations_abc :
  combinations ["a"; "b"; "c"]%string =
  Ok [["a"]; ["b"]; ["a"; "b"]; ["c"]; ["a"; "c"]; ["b"; "c"];
      ["a"; "b"; "c"]]%string.
Proof. reflexivity. Qed.

(** A tie is rounded away from zero (-25.125 is exact in binary floating
    point, so the tie is one for the code as well). *)
Example toFixed2_half : (toFixed2 (-(25125 # 1000)) == -(2513 # 100))%Q.
Proof. vm_compute. reflexivity. Qed.

(** ** The subset generator *)

Section Int32.

Lemma toInt32_small (z : Z) : - 2 ^ 31 <= z < 2 ^ 31 -> toInt32 z = z.
Proof.
  intros Hz. unfold toInt32.
  rewrite Z.mod_small; lia.
Qed.

Lemma pow2_lt_31 (j : Z) : 0 <= j <= 30 -> 0 < 2 ^ j < 2 ^ 31.
Proof.
  intros Hj. split.
  - apply Z.pow_pos_nonneg; lia.
  - apply Z.pow_lt_mono_r; lia.
Qed.

Lemma shl32_one (j : Z) : 0 <= j <= 30 -> shl32 1 j = 2 ^ j.
Proof.
  intros Hj. unfold shl32.
  rewrite (@toInt32_small 1) by (cbn; lia).
  rewrite Z.mod_small by lia.
  rewrite Z.mul_1_l.
  apply toInt32_small.
  pose proof (pow2_lt_31 Hj). lia.
Qed.

Lemma land_pow2 (m j : Z) :
  0 <= j -> Z.land m (2 ^ j) = if Z.testbit m j then 2 ^ j else 0.
Proof.
  intros Hj. apply Z.bits_inj'. intros k Hk.
  rewrite Z.land_spec, Z.pow2_bits_eqb by assumption.
  destruct (Z.eqb_spec j k) as [->|Hne].
  - destruct (Z.testbit m k) eqn:E; cbn.
    + now rewrite Z.pow2_bits_true.
    + now rewrite Z.bits_0.
  - rewrite andb_false_r.
    destruct (Z.testbit m j).
    + now rewrite Z.pow2_bits_false.
    + now rewrite Z.bits_0.
Qed.

Lemma mask_test (m j : Z) :
  0 <= m < 2 ^ 31 -> 0 <= j <= 30 ->
  truthy (and32 m (shl32 1 j)) = Z.testbit m j.
Proof.
  intros Hm Hj. unfold truthy, and32.
  rewrite shl32_one by assumption.
  pose proof (pow2_lt_31 Hj) as Hp.
  rewrite (@toInt32_small m), (@toInt32_small (2 ^ j)) by lia.
  rewrite land_pow2 by lia.
  destruct (Z.testbit m j); cbn.
  - destruct (Z.eqb_spec (2 ^ j) 0); [lia | reflexivity].
  - reflexivity.
Qed.

End Int32.

Section FilterFrom.
Variable T : Type.

Lemma filterFrom_ext (p q : Z -> bool) (array : list T) (j : Z) :
  (forall k, j <= k < j + Z.of_nat (length array) -> p k = q k) ->
  filterFrom p j array = filterFrom q j array.
Proof.
  revert j. induction array as [|e rest IH]; intros j Hpq; cbn.
  - reflexivity.
  - rewrite (Hpq j) by (cbn [length]; lia).
    rewrite (IH (j + 1)).
    + reflexivity.
    + intros k Hk. apply Hpq. cbn [length]. lia.
Qed.

Lemma filterFrom_subseq (p : Z -> bool) (array : list T) (j : Z) :
  subseq (filterFrom p j array) array.
Proof.
  revert j. induction array as [|e rest IH]; intros j; cbn.
  - constructor.
  - destruct (p j); constructor; apply IH.
Qed.

End FilterFrom.

(** Up to 30 elements the 32-bit operators do not wrap: the result is the
    list of the subsets selected by the masks 1, 2, ..., 2^n - 1. *)
Lemma combinations_masks (T : Type) (array : list T) :
  (length array <= 30)%nat ->
  combinations array =
  Ok (map (fun i : nat => subsetOfMask (Z.of_nat i + 1) array)
          (seq 0 (Z.to_nat (2 ^ Z.of_nat (length array) - 1)))).
Proof.
  intros Hn. unfold combinations.
  assert (Hlen : 0 <= Z.of_nat (length array) <= 30) by lia.
  rewrite shl32_one by assumption.
  pose proof (pow2_lt_31 Hlen) as Hp.
  destruct (Z.ltb_spec (2 ^ Z.of_nat (length array) - 1) 0) as [Hneg|_];
    [lia|].
  f_equal. apply map_ext_in. intros i Hi.
  apply in_seq in Hi. unfold subsetOfMask, filteri.
  apply filterFrom_ext. intros k Hk.
  apply mask_test; lia.
Qed.

Lemma subsetOfMask_subseq (T : Type) (m : Z) (array : list T) :
  subseq (subsetOfMask m array) array.
Proof. apply filterFrom_subseq. Qed.

(** C7, counterexample: at 32 elements [1 << 32] is 1 and the generator
    returns no subset at all, not 2^32 - 1 of them. *)
Lemma combinations_32_elements :
  ~ (exists subsets : list (list nat),
        combinations (seq 0 32) = Ok subsets /\
        Z.of_nat (length subsets) = 2 ^ Z.of_nat (length (seq 0 32)) - 1).
Proof.
  intros [subsets [Hc Hl]].
  vm_compute in Hc. injection Hc as <-.
  vm_compute in Hl. discriminate.
Qed.

(** At 31 elements [(1 << 31) - 1] is negative and [new Array] throws. *)
Example combinations_31_elements : combinations (seq 0 31) = Throw.
Proof. vm_compute. reflexivity. Qed.

(** C7, amended: for every input list of length n <= 30, [combinations]
    returns exactly 2^n - 1 subsets in increasing binary-mask order (the
    subset at position m - 1 is the one of mask m, which holds element j
    iff bit j of m is set), every subset is a subsequence of the input, and
    the empty list yields no subset. *)
Theorem combinations_contract (T : Type) (array : list T) :
  (length array <= 30)%nat ->
  exists subsets : list (list T),
    combinations array = Ok subsets /\
    Z.of_nat (length subsets) = 2 ^ Z.of_nat (length array) - 1 /\
    (forall m : Z,
        1 <= m <= 2 ^ Z.of_nat (length array) - 1 ->
        nth_error subsets (Z.to_nat (m - 1)) = Some (subsetOfMask m array)) /\
    Forall (fun s => subseq s array) subsets /\
    (array = [] -> subsets = []).
Proof.
  intros Hn. eexists. split; [apply combinations_masks; assumption|].
  assert (Hpos : 0 < 2 ^ Z.of_nat (length array))
    by (apply Z.pow_pos_nonneg; lia).
  repeat split.
  - rewrite length_map, length_seq. lia.
  - intros m Hm.
    rewrite nth_error_map, nth_error_seq.
    destruct (Nat.ltb_spec (Z.to_nat (m - 1))
                (Z.to_nat (2 ^ Z.of_nat (length array) - 1))) as [_|Hge];
      [|lia].
    cbn. do 2 f_equal. lia.
  - apply Forall_forall. intros s Hs.
    apply in_map_iff in Hs. destruct Hs as [i [<- _]].
    apply subsetOfMask_subseq.
  - intros ->. reflexivity.
Qed.

Lemma combinations_contract_witness :
  (length ["a"; "b"]%string <= 30)%nat /\
  exists subsets : list (list string),
    combinations ["a"; "b"]%string = Ok subsets /\
    Z.of_nat (length subsets) = 2 ^ Z.of_nat 2 - 1 /\
    (forall m : Z,
        1 <= m <= 2 ^ Z.of_nat 2 - 1 ->
        nth_error subsets (Z.to_nat (m - 1))
        = Some (subsetOfMask m ["a"; "b"]%string)) /\
    Forall (fun s => subseq s ["a"; "b"]%string) subsets /\
    (["a"; "b"]%string = [] -> subsets = []).
Proof.
  split; [cbn; lia|].
  apply (@combinations_contract string ["a"; "b"]%string). cbn; lia.
Defined.

(** ** Amount comparisons *)

Section Amounts.
Local Open Scope Q_scope.

Lemma Qltb_lt (a b : Q) : Qltb a b = true <-> a < b.
Proof.
  unfold Qltb. rewrite Qlt_alt.
  destruct (a ?= b); split; intro H; congruence.
Qed.

Lemma Qltb_ge (a b : Q) : Qltb a b = false <-> b <= a.
Proof.
  split; intro H.
  - apply Qnot_lt_le. intro Hlt. apply Qltb_lt in Hlt. congruence.
  - destruct (Qltb a b) eqn:E; [|reflexivity].
    apply Qltb_lt in E. apply Qle_not_lt in H. contradiction.
Qed.

Lemma amountsMatch_spec (a b : Q) :
  amountsMatch a b = true <-> Qabs (a - b) < 1 # 100.
Proof. apply Qltb_lt. Qed.

Lemma amountsMatch_false (a b : Q) :
  amountsMatch a b = false <-> 1 # 100 <= Qabs (a - b).
Proof. apply Qltb_ge. Qed.
End Amounts.

(** ** The stable sort *)

Section SortFacts.
Variable A : Type.
Variable before : A -> A -> bool.

Lemma insertSorted_perm (x : A) (l : list A) :
  Permutation (insertSorted before x l) (x :: l).
Proof.
  induction l as [|y rest IH]; cbn.
  - reflexivity.
  - destruct (before y x).
    + rewrite IH. apply perm_swap.
    + reflexivity.
Qed.

Lemma sort_perm (l : list A) : Permutation (sort before l) l.
Proof.
  induction l as [|x rest IH]; cbn.
  - reflexivity.
  - rewrite insertSorted_perm. now constructor.
Qed.

Lemma sort_In (l : list A) (x : A) : In x (sort before l) <-> In x l.
Proof.
  split; apply Permutation_in;
    [apply sort_perm | symmetry; apply sort_perm].
Qed.

Lemma sort_length (l : list A) : length (sort before l) = length l.
Proof. apply Permutation_length, sort_perm. Qed.

(** A comparator that orders by a key: [a] comes before [b] exactly
    when the key of [a] is smaller. *)
Hypothesis before_irrefl : forall a, before a a = false.
Hypothesis before_asym :
  forall a b, before a b = true -> before b a = false.
Hypothesis before_negtrans :
  forall a b c, before a b = false -> before b c = false ->
                before a c = false.

Lemma insertSorted_sorted (x : A) (l : list A) :
  StronglySorted (notAfter before) l ->
  StronglySorted (notAfter before) (insertSorted before x l).
Proof.
  induction 1 as [|y rest Hs IH Hall]; cbn.
  - repeat constructor.
  - destruct (before y x) eqn:E.
    + constructor; [assumption|].
      apply Forall_forall. intros z Hz.
      apply (Permutation_in _ (insertSorted_perm x rest)) in Hz.
      destruct Hz as [<-|Hz].
      * now apply before_asym.
      * rewrite Forall_forall in Hall. now apply Hall.
    + constructor; [now constructor|].
      constructor; [exact E|].
      apply Forall_forall. intros z Hz.
      rewrite Forall_forall in Hall. specialize (Hall z Hz).
      unfold notAfter in *. now apply before_negtrans with y.
Qed.

Lemma sort_sorted (l : list A) : StronglySorted (notAfter before) (sort before l).
Proof.
  induction l as [|x rest IH]; cbn.
  - constructor.
  - now apply insertSorted_sorted.
Qed.

(** The first element of the sorted array is a least one. *)
Lemma sort_head_least (l : list A) (x : A) (rest : list A) :
  sort before l = x :: rest -> forall y, In y l -> before y x = false.
Proof.
  intros Hs y Hy.
  pose proof (sort_sorted l) as Hsorted. rewrite Hs in Hsorted.
  apply sort_In in Hy. rewrite Hs in Hy.
  inversion Hsorted as [|? ? _ Hall]; subst.
  destruct Hy as [<-|Hy].
  - apply before_irrefl.
  - rewrite Forall_forall in Hall. now apply Hall.
Qed.
End SortFacts.

(** Comparators that subtract two keys. *)
Section KeyComparators.
Variable A : Type.

Section QKey.
Variable key : A -> Q.
Let before (a b : A) : bool := Qltb (key a - key b) 0.

Lemma Qkey_before (a b : A) : before a b = true <-> (key a < key b)%Q.
Proof. unfold before. rewrite Qltb_lt. split; intro; lra. Qed.

Lemma Qkey_not_before (a b : A) :
  before a b = false <-> (key b <= key a)%Q.
Proof. unfold before. rewrite Qltb_ge. split; intro; lra. Qed.

Lemma Qkey_irrefl (a : A) : before a a = false.
Proof. apply Qkey_not_before. lra. Qed.

Lemma Qkey_asym (a b : A) : before a b = true -> before b a = false.
Proof. rewrite Qkey_before, Qkey_not_before. lra. Qed.

Lemma Qkey_negtrans (a b c : A) :
  before a b = false -> before b c = false -> before a c = false.
Proof. rewrite !Qkey_not_before. lra. Qed.
End QKey.

Section ZKey.
Variable key : A -> Z.
Let before (a b : A) : bool := key a - key b <? 0.

Lemma Zkey_not_before (a b : A) : before a b = false <-> key b <= key a.
Proof. unfold before. rewrite Z.ltb_ge. lia. Qed.

Lemma Zkey_irrefl (a : A) : before a a = false.
Proof. apply Zkey_not_before. lia. Qed.

Lemma Zkey_asym (a b : A) : before a b = true -> before b a = false.
Proof.
  intro H. apply Zkey_not_before. unfold before in H.
  apply Z.ltb_lt in H. lia.
Qed.

Lemma Zkey_negtrans (a b c : A) :
  before a b = false -> before b c = false -> before a c = false.
Proof. rewrite !Zkey_not_before. lia. Qed.
End ZKey.
End KeyComparators.

(** ** The match strategies *)

Lemma debitsInWindow_In (amazonOrder : WorkingOrder)
  (pool : list (Obj Transaction.t)) (t : Obj Transaction.t) :
  In t (debitsInWindow amazonOrder pool) <->
  In t pool /\ (txAmount t < 0)%Q /\
  inRange (txDate t) (Order.orderDate amazonOrder) = true.
Proof.
  unfold debitsInWindow. rewrite !filter_In, Qltb_lt. tauto.
Qed.

(** The candidates of the Gift-Card strategy, sorted by distance to the
    candidate amount: the first one is a candidate of least distance. *)
Lemma giftCard_sort_head (amount : Q) (amazonOrder : WorkingOrder)
  (pool : list (Obj Transaction.t)) (t : Obj Transaction.t)
  (rest : list (Obj Transaction.t)) :
  sort (fun a b =>
          Qltb (Qabs (txAmount a - amount) - Qabs (txAmount b - amount)) 0)
       (filter (fun t => Qltb amount (txAmount t))
               (debitsInWindow amazonOrder pool)) = t :: rest ->
  In t pool /\ giftCardCandidate amount amazonOrder t /\
  forall t', In t' pool -> giftCardCandidate amount amazonOrder t' ->
             (Qabs (txAmount t - amount) <= Qabs (txAmount t' - amount))%Q.
Proof.
  intros Hs.
  set (key := fun t : Obj Transaction.t => Qabs (txAmount t - amount)) in *.
  assert (Hin : In t (filter (fun t => Qltb amount (txAmount t))
                             (debitsInWindow amazonOrder pool))).
  { eapply sort_In. rewrite Hs. now left. }
  apply filter_In in Hin. destruct Hin as [Hin Hgt].
  apply debitsInWindow_In in Hin. destruct Hin as (Hpool & Hneg & Hrange).
  apply Qltb_lt in Hgt.
  split; [assumption|]. split; [now repeat split|].
  intros t' Hpool' (Hneg' & Hrange' & Hgt').
  apply (Qkey_not_before key t' t).
  apply (@sort_head_least _ (fun a b => Qltb (key a - key b) 0)
           (Qkey_irrefl key) (Qkey_asym key) (Qkey_negtrans key) _ _ _ Hs).
  apply filter_In. split; [|now apply Qltb_lt].
  apply debitsInWindow_In. now repeat split.
Qed.

(** C3, counterexample: for a candidate amount of -55 the strategy returns
    the debit of -40, whose absolute amount does not exceed 55. *)
Lemma giftCard_smaller_charge :
  let amazonOrder : WorkingOrder := Order.mk "o1" 0 true [] in
  let shipment := mkObj 0%nat (Shipment.mk "S1" 0 (-55) []) in
  let t := mkObj 0%nat (Transaction.mk "t1" (-40) 172800000 []) in
  exists s1 r1,
    getGiftCardMatches [shipment] (-55) amazonOrder [] [t] = Ok ([t], s1, r1)
    /\ ~ (Qabs (-55) < Qabs (txAmount t))%Q.
Proof.
  cbv zeta. do 2 eexists. split.
  - vm_compute. reflexivity.
  - vm_compute. discriminate.
Qed.

(** C3, amended: the Gift-Card strategy returns no transaction when
    [order.usedGiftCard] is false; when it is true and the candidate amount
    is A, any transaction it returns is the only one returned, is an
    unmatched debit dated within [orderDate, orderDate + 14 days] whose
    amount is greater than A (a charge smaller in absolute value than the
    shipment total), and among all such candidates it is one with the
    smallest |amount - A|. *)
Theorem getGiftCardMatches_selects (shipments : list (Obj Shipment.t))
  (amount : Q) (amazonOrder : WorkingOrder) (returns : list Return.t)
  (pool : list (Obj Transaction.t)) :
  (Order.usedGiftCard amazonOrder = false ->
   getGiftCardMatches shipments amount amazonOrder returns pool
   = Ok ([], shipments, returns)) /\
  (forall matches s1 r1 t,
      getGiftCardMatches shipments amount amazonOrder returns pool
      = Ok (matches, s1, r1) ->
      In t matches ->
      Order.usedGiftCard amazonOrder = true /\ matches = [t] /\
      In t pool /\ giftCardCandidate amount amazonOrder t /\
      forall t', In t' pool -> giftCardCandidate amount amazonOrder t' ->
                 (Qabs (txAmount t - amount)
                  <= Qabs (txAmount t' - amount))%Q).
Proof.
  unfold getGiftCardMatches. split.
  - intros ->. reflexivity.
  - intros matches s1 r1 t.
    destruct (Order.usedGiftCard amazonOrder); cbn [negb].
    2:{ intros [= <- _ _] []. }
    destruct (sort _ _) as [|mintTransaction rest] eqn:Hs.
    { intros [= <- _ _] []. }
    apply giftCard_sort_head in Hs.
    destruct shipments as [|first others]; [discriminate|].
    destruct (find _ returns); intros [= <- _ _] [<-|[]]; tauto.
Qed.

Lemma getGiftCardMatches_selects_witness :
  let amazonOrder : WorkingOrder := Order.mk "o1" 0 true [] in
  let shipment := mkObj 0%nat (Shipment.mk "S1" 0 (-55) []) in
  let t := mkObj 0%nat (Transaction.mk "t1" (-40) 172800000 []) in
  let far := mkObj 1%nat (Transaction.mk "t2" (-30) 172800000 []) in
  Order.usedGiftCard amazonOrder = true /\ In far [far; t] /\
  giftCardCandidate (-55) amazonOrder far /\
  (Qabs (txAmount t - (-55)) <= Qabs (txAmount far - (-55)))%Q.
Proof.
  cbv zeta.
  pose proof (getGiftCardMatches_selects
                [mkObj 0%nat (Shipment.mk "S1" 0 (-55) [])] (-55)
                (Order.mk "o1" 0 true []) []
                [mkObj 1%nat (Transaction.mk "t2" (-30) 172800000 []);
                 mkObj 0%nat (Transaction.mk "t1" (-40) 172800000 [])])
    as [_ H].
  specialize (H _ _ _ (mkObj 0%nat (Transaction.mk "t1" (-40) 172800000 []))
                eq_refl (or_introl eq_refl)).
  destruct H as (Hgc & _ & _ & _ & Hleast).
  assert (Hcand : giftCardCandidate (-55) (Order.mk "o1" 0 true [])
            (mkObj 1%nat (Transaction.mk "t2" (-30) 172800000 []))).
  { repeat split. }
  repeat split.
  - now left.
  - apply Hleast; [now left | exact Hcand].
Defined.

(** The amount functions respect the equality of rationals. *)
Section AmountMorphisms.
Local Open Scope Q_scope.

#[export] Instance Qltb_wd : Proper (Qeq ==> Qeq ==> eq) Qltb.
Proof. intros a a' Ha b b' Hb. unfold Qltb. now rewrite Ha, Hb. Qed.

#[export] Instance amountsMatch_wd :
  Proper (Qeq ==> Qeq ==> eq) amountsMatch.
Proof.
  intros a a' Ha b b' Hb. unfold amountsMatch. now rewrite Ha, Hb.
Qed.

#[export] Instance toFixed2_wd : Proper (Qeq ==> Qeq) toFixed2.
Proof.
  intros x y Hxy. unfold toFixed2.
  assert (Hbig : Qle_bool (inject_Z (10 ^ 21)) (Qabs x)
                 = Qle_bool (inject_Z (10 ^ 21)) (Qabs y))
    by now rewrite Hxy.
  assert (Hneg : Qltb x 0 = Qltb y 0) by now rewrite Hxy.
  assert (Hfloor : Qfloor (Qabs x * inject_Z 100 + (1 # 2))
                   = Qfloor (Qabs y * inject_Z 100 + (1 # 2)))
    by now rewrite Hxy.
  rewrite Hbig, Hneg, Hfloor. clear Hbig Hneg Hfloor.
  destruct (Qle_bool _ _); [exact Hxy|].
  destruct (Qltb y 0); reflexivity.
Qed.
End AmountMorphisms.

Lemma find_none_iff (A : Type) (p : A -> bool) (l : list A) :
  find p l = None <-> forall x, In x l -> p x = false.
Proof.
  split; [apply find_none|].
  induction l as [|x rest IH]; intros H; cbn.
  - reflexivity.
  - rewrite (H x) by now left.
    apply IH. intros y Hy. apply H. now right.
Qed.

(** C4, counterexample: in the scenario the item pushed to the shipment
    group is a "Gift Card" item of amount +15, and no item of amount -15 is
    among the items of the group. *)
Lemma giftCard_scenario_amount :
  let amazonOrder : WorkingOrder := Order.mk "o1" 0 true [] in
  let shipment :=
    mkObj 0%nat (Shipment.mk "S1" 0 (-55) [Item.mk "Thing" (-55)]) in
  let t := mkObj 0%nat (Transaction.mk "t1" (-40) 172800000 []) in
  exists group,
    getGiftCardMatches [shipment]
      (getTotalAmount shipmentAmount [shipment]) amazonOrder [] [t]
    = Ok ([t], group, []) /\
    ~ (exists s item,
          In s group /\ In item (Shipment.items (val s)) /\
          Item.description item = GIFT_CARD_DESCRIPTION /\
          (Item.amount item == -15)%Q).
Proof.
  cbv zeta. eexists. split.
  - vm_compute. reflexivity.
  - intros (s & item & [<-|[]] & Hitem & Hd & Ha).
    cbn in Hitem. destruct Hitem as [<-|[<-|[]]].
    + discriminate Hd.
    + vm_compute in Ha. discriminate Ha.
Qed.

(** C4, amended: for an order flagged usedGiftCard whose single shipment
    totals -55.00, a sole unmatched debit of -40.00 dated within the 14-day
    window and no pending return of amount 15.00, the Exact and Combination
    strategies return nothing, the Gift-Card strategy returns that
    transaction and a synthetic "Gift Card" line item of amount +15.00 is
    appended to the shipment group; the pending returns stay as they
    are. *)
Theorem giftCard_scenario (amazonOrder : WorkingOrder)
  (shipment : Obj Shipment.t) (t : Obj Transaction.t)
  (returns : list Return.t) :
  Order.usedGiftCard amazonOrder = true ->
  (shipmentAmount shipment == -55)%Q ->
  (txAmount t == -40)%Q ->
  inRange (txDate t) (Order.orderDate amazonOrder) = true ->
  (forall r, In r returns -> amountsMatch (Return.amount r) 15 = false) ->
  let amount := getTotalAmount shipmentAmount [shipment] in
  getExactMatches [shipment] amount amazonOrder returns [t]
  = Ok ([], [shipment], returns) /\
  getCombinationMatches [shipment] amount amazonOrder returns [t]
  = Ok ([], [shipment], returns) /\
  exists giftCardAmount : Q,
    (giftCardAmount == 15)%Q /\
    getGiftCardMatches [shipment] amount amazonOrder returns [t]
    = Ok ([t],
          [pushItems shipment
             [Item.mk GIFT_CARD_DESCRIPTION giftCardAmount]],
          returns).
Proof.
  intros Hgc Hs Ht Hrange Hreturns amount.
  assert (Hamount : (amount == -55)%Q).
  { unfold amount, getTotalAmount, sumAmounts. cbn [fold_left].
    rewrite Hs. vm_compute. reflexivity. }
  assert (Hdebits : debitsInWindow amazonOrder [t] = [t]).
  { unfold debitsInWindow. cbn [filter].
    rewrite Ht. cbn [Qltb Qcompare]. cbn. now rewrite Hrange. }
  repeat split.
  - unfold getExactMatches. rewrite Hdebits. cbn [filter].
    rewrite Ht, Hamount. reflexivity.
  - unfold getCombinationMatches. rewrite Hdebits. reflexivity.
  - exists (toFixed2 (- (amount - txAmount t))). split.
    + rewrite Hamount, Ht. vm_compute. reflexivity.
    + unfold getGiftCardMatches. rewrite Hgc, Hdebits. cbn [negb filter].
      replace (Qltb amount (txAmount t)) with true
        by (now rewrite Hamount, Ht).
      cbn [sort insertSorted].
      replace (find _ returns) with (@None Return.t); [reflexivity|].
      symmetry. apply find_none_iff. intros r Hr.
      rewrite <- (Hreturns r Hr).
      apply amountsMatch_wd; [reflexivity|].
      rewrite Hamount, Ht. reflexivity.
Qed.

Lemma giftCard_scenario_witness :
  let amazonOrder : WorkingOrder := Order.mk "o1" 0 true [] in
  let shipment :=
    mkObj 0%nat (Shipment.mk "S1" 0 (-55) [Item.mk "Thing" (-55)]) in
  let t := mkObj 0%nat (Transaction.mk "t1" (-40) 172800000 []) in
  let returns := [Return.mk "o2" 0 20 []] in
  let amount := getTotalAmount shipmentAmount [shipment] in
  getExactMatches [shipment] amount amazonOrder returns [t]
  = Ok ([], [shipment], returns) /\
  getCombinationMatches [shipment] amount amazonOrder returns [t]
  = Ok ([], [shipment], returns) /\
  exists giftCardAmount : Q,
    (giftCardAmount == 15)%Q /\
    getGiftCardMatches [shipment] amount amazonOrder returns [t]
    = Ok ([t],
          [pushItems shipment
             [Item.mk GIFT_CARD_DESCRIPTION giftCardAmount]],
          returns).
Proof.
  cbv zeta.
  apply (@giftCard_scenario (Order.mk "o1" 0 true [])
           (mkObj 0%nat (Shipment.mk "S1" 0 (-55) [Item.mk "Thing" (-55)]))
           (mkObj 0%nat (Transaction.mk "t1" (-40) 172800000 []))
           [Return.mk "o2" 0 20 []]).
  - reflexivity.
  - reflexivity.
  - reflexivity.
  - reflexivity.
  - intros r [<-|[]]. reflexivity.
Defined.

(** ** The sorted output *)

Lemma StronglySorted_weaken (A : Type) (R S : A -> A -> Prop) (l : list A) :
  (forall a b, R a b -> S a b) -> StronglySorted R l -> StronglySorted S l.
Proof.
  intros HRS. induction 1 as [|x rest Hs IH Hall]; constructor.
  - assumption.
  - revert Hall. apply Forall_impl. intros b. apply HRS.
Qed.

Lemma sort_earlierRecord_sorted (l : list JoinedRecord.t) :
  sortedByDate (sort earlierRecord l).
Proof.
  unfold sortedByDate.
  apply StronglySorted_weaken with (R := notAfter earlierRecord).
  - intros a b. unfold notAfter. apply Zkey_not_before.
  - apply sort_sorted.
    + apply (Zkey_asym JoinedRecord.orderDate).
    + apply (Zkey_negtrans JoinedRecord.orderDate).
Qed.

(** The joined records returned by a run are those collected by the two
    passes, sorted by the last statement of [joinOrders]. *)
Lemma joinOrders_result (caller : Caller) (result : JoinResult)
  (caller' : Caller) :
  joinOrders caller = Ok (result, caller') ->
  exists amazonOrders1 st1 amazonReturns2 mintTransactions2 joinedRecords2,
    forMatchers [ExactMatcher; CombinationMatcher; GiftCardMatcher]
      (sort largerTotal (map cloneOrder (callerOrders caller)))
      (mkState (tagFrom 0 (callerTransactions caller))
               (callerReturns caller) [] [])
    = Ok (amazonOrders1, st1) /\
    forReturns (giftCards st1) [] (amazonReturns st1) (mintTransactions st1)
               (joinedRecords st1)
    = (amazonReturns2, mintTransactions2, joinedRecords2) /\
    result = mkJoinResult (sort earlierRecord joinedRecords2)
                          (map (@val _) mintTransactions2)
                          (map plainOrder amazonOrders1) amazonReturns2 /\
    caller' = mkCaller (callerTransactions caller) (callerOrders caller)
                       (amazonReturns st1).
Proof.
  unfold joinOrders. intros H.
  destruct (forMatchers _ _ _) as [[amazonOrders1 st1]| |] eqn:Hfirst;
    cbn [bind] in H; try discriminate.
  destruct (forReturns _ _ _ _ _) as [[amazonReturns2 mintTransactions2]
                                        joinedRecords2] eqn:Hsecond.
  injection H as <- <-.
  now exists amazonOrders1, st1, amazonReturns2, mintTransactions2,
    joinedRecords2.
Qed.

(** ** Input isolation *)

(** The transactions and the orders of the caller are cloned on entry. *)
Lemma joinOrders_keeps_transactions_and_orders (caller : Caller)
  (result : JoinResult) (caller' : Caller) :
  joinOrders caller = Ok (result, caller') ->
  callerTransactions caller' = callerTransactions caller /\
  callerOrders caller' = callerOrders caller.
Proof.
  intros H. apply joinOrders_result in H.
  destruct H as (? & ? & ? & ? & ? & _ & _ & _ & ->). now split.
Qed.

(** C5, the code at the failing input: the Gift-Card strategy absorbs the
    pending return of 15.00 and removes it from [amazonReturns], which at
    that point is still the caller's array: after the run the caller's
    returns are no longer what they were. *)
Theorem joinOrders_mutates_caller_returns :
  exists result caller',
    joinOrders Sample.giftCardRun = Ok (result, caller') /\
    callerReturns Sample.giftCardRun = [Sample.pendingReturn] /\
    callerReturns caller' = [].
Proof.
  do 2 eexists. split; [|split].
  - vm_compute. reflexivity.
  - reflexivity.
  - reflexivity.
Qed.

(** ** The item allocator *)

Lemma last_cons (A : Type) (c : A) (l : list A) (d : A) :
  last (c :: l) d = last l c.
Proof.
  revert c d. induction l as [|x rest IH]; intros c d.
  - reflexivity.
  - change (last (c :: x :: rest) d) with (last (x :: rest) d).
    now rewrite !IH.
Qed.

Lemma scan_fold_last (A B : Type) (p : list A -> bool)
  (remove : list A -> B -> B) (all : list (list A)) (acc : list A * B) :
  fst (fold_left (fun (acc : list A * B) c =>
                    if p c then (c, remove c (snd acc)) else acc)
                 all acc)
  = last (filter p all) (fst acc).
Proof.
  revert acc. induction all as [|c rest IH]; intros acc; cbn [fold_left filter].
  - reflexivity.
  - rewrite IH. destruct (p c); cbn [fst].
    + now rewrite last_cons.
    + reflexivity.
Qed.

(** The allocation of the exact-subset attempt is the last subset, in
    mask order, that totals the transaction amount. *)
Lemma exactSubsetScan_last (items : list (Obj JoinedRecordItem.t))
  (matchAmount : Q) :
  (length items <= 30)%nat ->
  exists matchItems items',
    exactSubsetScan items matchAmount = Ok (matchItems, items') /\
    matchItems =
    last (filter (fun c => amountsMatch (getTotalAmount itemAmount c)
                                        matchAmount)
                 (map (fun i : nat => subsetOfMask (Z.of_nat i + 1) items)
                      (seq 0 (Z.to_nat (2 ^ Z.of_nat (length items) - 1)))))
         [].
Proof.
  intros Hn. unfold exactSubsetScan.
  rewrite combinations_masks by assumption. cbn [bind].
  match goal with
  | |- context [Ok (fold_left ?f ?l ?a)] =>
      exists (fst (fold_left f l a)), (snd (fold_left f l a))
  end.
  split.
  - now rewrite <- surjective_pairing.
  - apply (scan_fold_last
             (fun c => amountsMatch (getTotalAmount itemAmount c) matchAmount)
             (fun c its => fold_left (@removeItem _) c its)).
Qed.

(** C6, the code at the failing input: both single items total the
    transaction amount; the allocation is the last of them, [Y], and [X],
    which is not in the allocation, has left the pool as well. *)
Theorem exactSubsetScan_removes_every_match :
  let X := mkObj 0%nat (JoinedRecordItem.mk "S1" "Amazon - X" (-10)) in
  let Y := mkObj 1%nat (JoinedRecordItem.mk "S1" "Amazon - Y" (-10)) in
  flattenItems (tagFrom 0 (Order.shipments Sample.splitOrder)) = [X; Y] /\
  exactSubsetScan [X; Y] (-10) = Ok ([Y], []) /\
  allocateItems [X; Y] (-10) = Ok ([val Y], []).
Proof.
  cbv zeta. repeat split.
Qed.

(** In the run, the second transaction of the split finds the pool empty
    and is given a "Balance Adjust" item; item X is in no record. *)
Example splitRun_records :
  exists result caller',
    joinOrders Sample.splitRun = Ok (result, caller') /\
    map JoinedRecord.items (resultJoinedRecords result)
    = [[JoinedRecordItem.mk "S1" "Amazon - Y" (-10)];
       [balanceAdjust (-10)]].
Proof.
  do 2 eexists. split.
  - vm_compute. reflexivity.
  - reflexivity.
Qed.

(** ** Arrays: subsequences and removal *)

Section Subseq.
Variable T : Type.

Lemma subseq_refl (l : list T) : subseq l l.
Proof.
  induction l; [apply subseq_nil | now apply subseq_keep].
Qed.

Lemma subseq_nil_l (l : list T) : subseq [] l.
Proof. induction l; constructor; assumption. Qed.

Lemma subseq_In (s l : list T) (x : T) : subseq s l -> In x s -> In x l.
Proof.
  induction 1 as [|y s l _ IH|y s l _ IH]; cbn; intros Hx.
  - assumption.
  - right. now apply IH.
  - destruct Hx as [->|Hx]; [now left | right; now apply IH].
Qed.

Lemma subseq_trans (a b c : list T) : subseq a b -> subseq b c -> subseq a c.
Proof.
  intros Hab Hbc. revert a Hab.
  induction Hbc as [|y b c _ IH|y b c _ IH]; intros a Hab.
  - assumption.
  - constructor. now apply IH.
  - inversion Hab; subst.
    + constructor. now apply IH.
    + apply subseq_keep. now apply IH.
Qed.

Lemma subseq_length (s l : list T) : subseq s l -> (length s <= length l)%nat.
Proof. induction 1; cbn; lia. Qed.

Lemma subseq_app (s1 l1 s2 l2 : list T) :
  subseq s1 l1 -> subseq s2 l2 -> subseq (s1 ++ s2) (l1 ++ l2).
Proof.
  induction 1 as [|y s l _ IH|y s l _ IH]; cbn; intros H2.
  - assumption.
  - apply subseq_skip. now apply IH.
  - apply subseq_keep. now apply IH.
Qed.

Lemma subseq_Forall (P : T -> Prop) (s l : list T) :
  subseq s l -> Forall P l -> Forall P s.
Proof.
  intros Hs Hl. apply Forall_forall. intros x Hx.
  rewrite Forall_forall in Hl. apply Hl. eapply subseq_In; eassumption.
Qed.

Lemma subseq_map (U : Type) (f : T -> U) (s l : list T) :
  subseq s l -> subseq (map f s) (map f l).
Proof.
  induction 1; cbn;
    [apply subseq_nil | now apply subseq_skip | now apply subseq_keep].
Qed.

Lemma subseq_filter (p : T -> bool) (l : list T) : subseq (filter p l) l.
Proof.
  induction l as [|x rest IH]; cbn.
  - constructor.
  - destruct (p x); [now apply subseq_keep | now apply subseq_skip].
Qed.

(** A subsequence and what it leaves out make up the array. *)
Lemma subseq_complement (s l : list T) :
  subseq s l -> exists rest, Permutation (s ++ rest) l.
Proof.
  induction 1 as [|y s l _ [rest IH]|y s l _ [rest IH]].
  - now exists [].
  - exists (y :: rest). rewrite <- Permutation_middle. now constructor.
  - exists rest. cbn. now constructor.
Qed.

End Subseq.

Lemma subseq_NoDup (T : Type) (s l : list T) :
  subseq s l -> NoDup l -> NoDup s.
Proof.
  induction 1 as [|y s l Hs IH|y s l Hs IH]; intros Hnd.
  - assumption.
  - inversion Hnd; subst. now apply IH.
  - inversion Hnd as [|? ? Hnotin Hnd']; subst. constructor.
    + intros Hin. apply Hnotin. eapply subseq_In; eassumption.
    + now apply IH.
Qed.

Section RemoveItem.
Variable A : Type.

Lemma removeItem_subseq (l : list (Obj A)) (item : Obj A) :
  subseq (removeItem l item) l.
Proof.
  induction l as [|x rest IH]; cbn.
  - constructor.
  - destruct (Nat.eqb (ref x) (ref item)).
    + apply subseq_skip, subseq_refl.
    + now apply subseq_keep.
Qed.

Lemma removeItems_subseq (c l : list (Obj A)) :
  subseq (fold_left (@removeItem A) c l) l.
Proof.
  revert l. induction c as [|x rest IH]; intros l; cbn.
  - apply subseq_refl.
  - eapply subseq_trans; [apply IH | apply removeItem_subseq].
Qed.

Lemma removeItem_length (l : list (Obj A)) (item : Obj A) :
  In (ref item) (map (@ref A) l) ->
  S (length (removeItem l item)) = length l.
Proof.
  induction l as [|x rest IH]; cbn.
  - intros [].
  - destruct (Nat.eqb_spec (ref x) (ref item)) as [_|Hne].
    + reflexivity.
    + intros [Heq|Hin]; [contradiction|]. cbn. now rewrite IH.
Qed.

(** Removing an object that is not in the array changes nothing. *)
Lemma removeItem_absent (l : list (Obj A)) (item : Obj A) :
  ~ In (ref item) (map (@ref A) l) -> removeItem l item = l.
Proof.
  induction l as [|x rest IH]; cbn; intros Hnot.
  - reflexivity.
  - destruct (Nat.eqb_spec (ref x) (ref item)) as [Heq|_].
    + exfalso. apply Hnot. now left.
    + f_equal. apply IH. intros Hin. apply Hnot. now right.
Qed.

(** With distinct objects in the array, [removeItem] takes out the item
    and nothing else. *)
Lemma removeItem_perm (l rest : list (Obj A)) (item : Obj A) :
  NoDup (map (@ref A) l) ->
  Permutation (item :: rest) l -> Permutation (removeItem l item) rest.
Proof.
  revert rest. induction l as [|x others IH]; intros rest Hnd Hperm.
  - apply Permutation_sym, Permutation_nil in Hperm. discriminate.
  - cbn. inversion Hnd as [|? ? Hnotin Hnd']; subst.
    destruct (Nat.eqb_spec (ref x) (ref item)) as [Heq|Hne].
    + assert (Hx : In x (item :: rest)).
      { eapply Permutation_in; [symmetry; exact Hperm | now left]. }
      destruct Hx as [<-|Hx].
      * symmetry. now apply Permutation_cons_inv with item.
      * exfalso.
        assert (Hitem : In item (x :: others)).
        { eapply Permutation_in; [exact Hperm | now left]. }
        destruct Hitem as [->|Hitem].
        -- apply in_split in Hx. destruct Hx as (l1 & l2 & ->).
           assert (Hp : Permutation (item :: item :: l1 ++ l2)
                                    (item :: others)).
           { rewrite <- Hperm. constructor. apply Permutation_middle. }
           apply Permutation_cons_inv in Hp.
           apply Hnotin. apply in_map.
           eapply Permutation_in; [exact Hp | now left].
        -- apply Hnotin. rewrite Heq. now apply in_map.
    + assert (Hx : In x (item :: rest)).
      { eapply Permutation_in; [symmetry; exact Hperm | now left]. }
      destruct Hx as [<-|Hx]; [contradiction|].
      apply in_split in Hx. destruct Hx as (l1 & l2 & ->).
      rewrite <- Permutation_middle. constructor.
      apply IH; [assumption|].
      apply Permutation_cons_inv with x.
      rewrite <- Hperm.
      rewrite perm_swap. constructor. apply Permutation_middle.
Qed.

Lemma removeItems_perm (c l rest : list (Obj A)) :
  NoDup (map (@ref A) l) ->
  Permutation (c ++ rest) l ->
  Permutation (fold_left (@removeItem A) c l) rest.
Proof.
  revert l. induction c as [|x others IH]; intros l Hnd Hperm; cbn.
  - now symmetry.
  - apply IH.
    + eapply subseq_NoDup; [|exact Hnd].
      apply subseq_map, removeItem_subseq.
    + symmetry. apply removeItem_perm; [assumption|].
      cbn in Hperm. exact Hperm.
Qed.

End RemoveItem.

(** ** The subset generator, at any length *)

Lemma toInt32_range (z : Z) : - 2 ^ 31 <= toInt32 z < 2 ^ 31.
Proof.
  unfold toInt32.
  pose proof (Z.mod_pos_bound (z + 2 ^ 31) (2 ^ 32) ltac:(lia)). lia.
Qed.

Lemma filterFrom_nonempty (T : Type) (p : Z -> bool) (array : list T)
  (j k : Z) :
  j <= k < j + Z.of_nat (length array) -> p k = true ->
  filterFrom p j array <> [].
Proof.
  revert j. induction array as [|e rest IH]; intros j Hk Hp; cbn in *.
  - lia.
  - destruct (p j) eqn:Hj; [discriminate|].
    apply IH; [|assumption].
    assert (j <> k) by congruence. lia.
Qed.

Lemma combinations_subseq (T : Type) (array : list T)
  (all : list (list T)) :
  combinations array = Ok all -> Forall (fun c => subseq c array) all.
Proof.
  unfold combinations.
  destruct (_ <? 0); [discriminate|]. intros [= <-].
  apply Forall_forall. intros c Hc.
  apply in_map_iff in Hc. destruct Hc as [i [<- _]].
  apply filterFrom_subseq.
Qed.

(** No subset returned is empty, wrapped shifts or not. *)
Lemma combinations_nonempty (T : Type) (array : list T)
  (all : list (list T)) :
  combinations array = Ok all -> Forall (fun c => c <> []) all.
Proof.
  unfold combinations.
  set (n := Z.of_nat (length array)).
  destruct (Z.ltb_spec (shl32 1 n - 1) 0) as [|Hlen]; [discriminate|].
  intros [= <-].
  apply Forall_forall. intros c Hc.
  apply in_map_iff in Hc. destruct Hc as [i [<- Hi]].
  apply in_seq in Hi.
  set (m := Z.of_nat i + 1).
  assert (Hm : 1 <= m <= shl32 1 n - 1) by lia.
  assert (Hm31 : m < 2 ^ 31).
  { pose proof (toInt32_range (toInt32 1 * 2 ^ (n mod 32))) as Hr.
    unfold shl32 in Hm. lia. }
  assert (Hlog : 0 <= Z.log2 m < 31).
  { split; [apply Z.log2_nonneg|]. apply Z.log2_lt_pow2; lia. }
  assert (Hbit : Z.testbit m (Z.log2 m) = true) by (apply Z.bit_log2; lia).
  assert (Hbound : Z.log2 m < n).
  { destruct (Z.le_gt_cases n 30) as [Hsmall|Hbig]; [|lia].
    rewrite shl32_one in Hm by lia.
    apply Z.log2_lt_pow2; lia. }
  apply filterFrom_nonempty with (k := Z.log2 m).
  - fold n. lia.
  - rewrite mask_test by lia. exact Hbit.
Qed.

(** ** What a strategy returns *)

Lemma partOf_nil (A : Type) (l : list A) : partOf [] l.
Proof. now exists l. Qed.

Lemma partOf_subseq (A : Type) (c l : list A) : subseq c l -> partOf c l.
Proof. apply subseq_complement. Qed.

Lemma partOf_single (A : Type) (x : A) (l : list A) : In x l -> partOf [x] l.
Proof.
  intros Hx. apply in_split in Hx. destruct Hx as (l1 & l2 & ->).
  exists (l1 ++ l2). cbn. apply Permutation_middle.
Qed.

Lemma partOf_trans (A : Type) (a b c : list A) :
  partOf a b -> partOf b c -> partOf a c.
Proof.
  intros [r1 H1] [r2 H2]. exists (r1 ++ r2).
  rewrite app_assoc, H1. exact H2.
Qed.


Lemma partOf_of_perm (A : Type) (a b : list A) :
  Permutation a b -> partOf a b.
Proof. intros H. exists []. now rewrite app_nil_r. Qed.

Lemma partOf_In (A : Type) (c l : list A) (x : A) :
  partOf c l -> In x c -> In x l.
Proof.
  intros [rest H] Hx. eapply Permutation_in; [exact H|].
  apply in_or_app. now left.
Qed.

Lemma debitsInWindow_subseq (amazonOrder : WorkingOrder)
  (pool : list (Obj Transaction.t)) :
  subseq (debitsInWindow amazonOrder pool) pool.
Proof.
  unfold debitsInWindow.
  eapply subseq_trans; apply subseq_filter.
Qed.

Lemma removeFirst_subseq (p : Return.t -> bool) (l : list Return.t) :
  subseq (removeFirst p l) l.
Proof.
  induction l as [|r rest IH]; cbn.
  - constructor.
  - destruct (p r); [apply subseq_skip, subseq_refl | now apply subseq_keep].
Qed.

(** The head of a sorted filtered pool is an object of the pool. *)
Lemma sorted_head_partOf (before : Obj Transaction.t -> Obj Transaction.t
                                   -> bool)
  (sub pool : list (Obj Transaction.t)) (t : Obj Transaction.t)
  (rest : list (Obj Transaction.t)) :
  subseq sub pool -> sort before sub = t :: rest -> partOf [t] pool.
Proof.
  intros Hsub Hs. apply partOf_single.
  eapply subseq_In; [exact Hsub|].
  apply (sort_In before). rewrite Hs. now left.
Qed.

Lemma runMatcher_result (matcher : Matcher)
  (shipments : list (Obj Shipment.t)) (amount : Q)
  (amazonOrder : WorkingOrder) (returns : list Return.t)
  (pool : list (Obj Transaction.t)) (matches : list (Obj Transaction.t))
  (s1 : list (Obj Shipment.t)) (r1 : list Return.t) :
  runMatcher matcher shipments amount amazonOrder returns pool
  = Ok (matches, s1, r1) ->
  partOf matches pool /\
  subseq r1 returns /\
  pushedTo returns amount matches shipments s1 /\
  (matches = [] -> s1 = shipments /\ r1 = returns).
Proof.
  destruct matcher; cbn [runMatcher].
  - unfold getExactMatches. intros [= <- <- <-].
    repeat split; try (now left); try apply subseq_refl.
    destruct (sort _ _) as [|t rest] eqn:Hs; [apply partOf_nil|].
    eapply sorted_head_partOf; [|exact Hs].
    eapply subseq_trans; [apply subseq_filter | apply debitsInWindow_subseq].
  - unfold getCombinationMatches.
    destruct (combinations _) as [all| |] eqn:Hall; cbn [bind];
      try discriminate.
    intros [= <- <- <-].
    repeat split; try (now left); try apply subseq_refl.
    destruct (find _ _) as [c|] eqn:Hfind; [|apply partOf_nil].
    apply find_some in Hfind. destruct Hfind as [Hc _].
    apply filter_In in Hc. destruct Hc as [Hc _].
    apply combinations_subseq in Hall.
    rewrite Forall_forall in Hall. specialize (Hall c Hc).
    eapply partOf_trans; [apply partOf_subseq; exact Hall|].
    eapply partOf_trans; [apply partOf_of_perm, sort_perm|].
    apply partOf_subseq, debitsInWindow_subseq.
  - unfold getGiftCardMatches.
    destruct (Order.usedGiftCard amazonOrder); cbn [negb].
    2:{ intros [= <- <- <-].
        repeat split; try (now left);
          [apply partOf_nil | apply subseq_refl]. }
    destruct (sort _ _) as [|t rest] eqn:Hs.
    { intros [= <- <- <-].
      repeat split; try (now left);
        [apply partOf_nil | apply subseq_refl]. }
    assert (Hpart : partOf [t] pool).
    { eapply sorted_head_partOf; [|exact Hs].
      eapply subseq_trans; [apply subseq_filter | apply debitsInWindow_subseq]. }
    destruct shipments as [|first others]; [discriminate|].
    destruct (find _ returns) as [matchingReturn|] eqn:Hfind;
      intros [= <- <- <-].
    + split; [exact Hpart|]. split; [apply removeFirst_subseq|].
      split; [|discriminate].
      right. do 3 eexists. split; [reflexivity|]. split; [reflexivity|].
      left. exists matchingReturn. split; [|reflexivity].
      now apply find_some in Hfind.
    + split; [exact Hpart|]. split; [apply subseq_refl|].
      split; [|discriminate].
      right. do 3 eexists. split; [reflexivity|]. split; [reflexivity|].
      right. eexists. split; reflexivity.
Qed.

(** ** The item allocator and the loops of the first pass *)

Lemma scan_fold_subseq (A : Type) (p : list (Obj A) -> bool)
  (all : list (list (Obj A))) (acc : list (Obj A) * list (Obj A)) :
  subseq (snd (fold_left
                 (fun (acc : list (Obj A) * list (Obj A)) c =>
                    if p c then (c, fold_left (@removeItem A) c (snd acc))
                    else acc)
                 all acc))
         (snd acc).
Proof.
  revert acc. induction all as [|c rest IH]; intros acc; cbn [fold_left].
  - apply subseq_refl.
  - eapply subseq_trans; [apply IH|].
    destruct (p c); cbn [snd].
    + apply removeItems_subseq.
    + apply subseq_refl.
Qed.

Lemma exactSubsetScan_subseq (items : list (Obj JoinedRecordItem.t))
  (matchAmount : Q) (matchItems items1 : list (Obj JoinedRecordItem.t)) :
  exactSubsetScan items matchAmount = Ok (matchItems, items1) ->
  subseq items1 items.
Proof.
  unfold exactSubsetScan.
  destruct (combinations items) as [all| |]; cbn [bind]; try discriminate.
  intros [= H].
  pose proof (scan_fold_subseq
                (fun c => amountsMatch (getTotalAmount itemAmount c)
                                       matchAmount)
                all ([], items)) as Hsub.
  cbn [snd] in Hsub.
  match type of Hsub with
  | subseq (snd ?f) _ => replace f with (matchItems, items1) in Hsub
  end.
  exact Hsub.
Qed.

Lemma splitAcross_subseq (items : list (Obj JoinedRecordItem.t))
  (acc : list JoinedRecordItem.t) (remaining : Q) :
  subseq (snd (fst (splitAcross items acc remaining))) items.
Proof.
  revert acc remaining.
  induction items as [|item rest IH]; intros acc remaining; cbn.
  - constructor.
  - destruct (Qltb remaining 0).
    + apply subseq_skip, IH.
    + apply subseq_refl.
Qed.

Lemma allocateItems_subseq (items : list (Obj JoinedRecordItem.t))
  (matchAmount : Q) (a : list JoinedRecordItem.t)
  (items' : list (Obj JoinedRecordItem.t)) :
  allocateItems items matchAmount = Ok (a, items') -> subseq items' items.
Proof.
  unfold allocateItems.
  destruct (exactSubsetScan items matchAmount) as [[matchItems items1]| |]
    eqn:Hscan; cbn [bind]; try discriminate.
  apply exactSubsetScan_subseq in Hscan.
  destruct (length matchItems =? 0)%nat.
  - pose proof (splitAcross_subseq items1 [] matchAmount) as Hsplit.
    destruct (splitAcross items1 [] matchAmount) as [[a2 items2] remaining].
    cbn [fst snd] in Hsplit.
    destruct (negb _); intros [= <- <-];
      eapply subseq_trans; eassumption.
  - now intros [= <- <-].
Qed.

Lemma Allocated_weaken (o : WorkingOrder)
  (pool pool' : list (Obj JoinedRecordItem.t)) (m : Obj Transaction.t)
  (r : JoinedRecord.t) :
  subseq pool pool' -> Allocated o pool m r -> Allocated o pool' m r.
Proof.
  intros Hsub [items a items' Hitems Halloc ->].
  apply allocated with items a items'; try assumption; try reflexivity.
  eapply subseq_trans; eassumption.
Qed.

Lemma forMatches_spec (o : WorkingOrder) (matches : list (Obj Transaction.t))
  (items : list (Obj JoinedRecordItem.t)) (st : State)
  (items' : list (Obj JoinedRecordItem.t)) (st' : State) :
  forMatches o matches items st = Ok (items', st') ->
  amazonReturns st' = amazonReturns st /\
  mintTransactions st'
  = fold_left (@removeItem _) matches (mintTransactions st) /\
  exists news,
    joinedRecords st' = joinedRecords st ++ news /\
    Forall2 (Allocated o items) matches news.
Proof.
  revert items st.
  induction matches as [|m rest IH]; intros items st; cbn [forMatches].
  - intros [= <- <-]. repeat split.
    exists []. split; [now rewrite app_nil_r | constructor].
  - destruct (allocateItems items (txAmount m)) as [[a items1]| |] eqn:Halloc;
      cbn [bind]; try discriminate.
    intros Hrest. apply IH in Hrest.
    destruct Hrest as (Hret & Htx & news & Hrecs & Hall).
    cbn [amazonReturns mintTransactions joinedRecords] in *.
    split; [assumption|]. split; [assumption|].
    exists (makeJoinedRecord o m a :: news). split.
    + rewrite Hrecs, <- app_assoc. reflexivity.
    + constructor.
      * apply allocated with items a items1;
          [apply subseq_refl | assumption | reflexivity].
      * revert Hall. apply Forall2_impl. intros m' r'.
        apply Allocated_weaken.
        eapply allocateItems_subseq; eassumption.
Qed.

Lemma forShipmentCombinations_step (matcher : Matcher) (o : WorkingOrder)
  (st : State) (combos : list (list (Obj Shipment.t)))
  (o1 : WorkingOrder) (st1 : State) :
  Forall (fun c => subseq c (Order.shipments o) /\ c <> []) combos ->
  forShipmentCombinations matcher o st combos = Ok (Some (o1, st1)) ->
  MatchStep o st o1 st1.
Proof.
  induction 1 as [|shipments rest [Hsub Hne] _ IH];
    cbn [forShipmentCombinations]; [discriminate|].
  destruct (runMatcher _ _ _ _ _ _) as [[[matches s1] r1]| |] eqn:Hm;
    cbn [bind]; try discriminate.
  apply runMatcher_result in Hm.
  destruct Hm as (Hpart & Hret & Hpush & _).
  destruct (Nat.ltb_spec 0 (length matches)) as [Hlen|_]; [|exact IH].
  destruct (forMatches _ _ _ _) as [[items' st']| |] eqn:Hfor;
    cbn [bind]; try discriminate.
  intros [= <- <-].
  apply forMatches_spec in Hfor.
  cbn [amazonReturns mintTransactions joinedRecords] in Hfor.
  destruct Hfor as (Hret' & Htx & news & Hrecs & Hall).
  apply matchStep with shipments matches s1 news; try assumption.
  - destruct matches; [cbn in Hlen; lia | discriminate].
  - now rewrite Hret'.
  - reflexivity.
Qed.

(** A strategy that returns no transaction leaves the shipment group and
    the pending returns as they were. *)
Lemma runMatcher_no_match (matcher : Matcher)
  (shipments : list (Obj Shipment.t)) (amount : Q)
  (amazonOrder : WorkingOrder) (returns : list Return.t)
  (pool : list (Obj Transaction.t)) (s1 : list (Obj Shipment.t))
  (r1 : list Return.t) :
  runMatcher matcher shipments amount amazonOrder returns pool
  = Ok ([], s1, r1) ->
  s1 = shipments /\ r1 = returns.
Proof.
  intros H. apply runMatcher_result in H.
  destruct H as (_ & _ & _ & H). now apply H.
Qed.

Lemma pushedTo_refs (returns : list Return.t) (amount : Q)
  (matches : list (Obj Transaction.t)) (shipments s1 : list (Obj Shipment.t)) :
  pushedTo returns amount matches shipments s1 ->
  map (@ref _) s1 = map (@ref _) shipments.
Proof.
  intros [->|(first & others & new & -> & -> & _)]; reflexivity.
Qed.

Lemma removeItem_ref_ext (A : Type) (l : list (Obj A)) (x y : Obj A) :
  ref x = ref y -> removeItem l x = removeItem l y.
Proof.
  intros Heq. induction l as [|z rest IH]; cbn.
  - reflexivity.
  - rewrite Heq, IH. reflexivity.
Qed.

Lemma removeItems_ref_ext (A : Type) (c c' l : list (Obj A)) :
  map (@ref A) c = map (@ref A) c' ->
  fold_left (@removeItem A) c l = fold_left (@removeItem A) c' l.
Proof.
  revert c' l. induction c as [|x rest IH]; intros [|y rest'] l Heq;
    try discriminate; cbn in *.
  - reflexivity.
  - injection Heq as Hxy Hrest.
    rewrite (@removeItem_ref_ext _ l x y Hxy). now apply IH.
Qed.

(** A match takes at least one shipment out of the order. *)
Lemma MatchStep_shrinks (o : WorkingOrder) (st : State) (o1 : WorkingOrder)
  (st1 : State) :
  MatchStep o st o1 st1 ->
  (length (Order.shipments o1) < length (Order.shipments o))%nat.
Proof.
  intros [shipments matches s1 news Hsub Hne _ _ Hpush _ _ _ _ ->].
  cbn [setShipments Order.shipments].
  rewrite (@removeItems_ref_ext _ s1 shipments _ (pushedTo_refs Hpush)).
  destruct shipments as [|x rest]; [contradiction|]. cbn [fold_left].
  pose proof (subseq_length (removeItems_subseq rest
                (removeItem (Order.shipments o) x))) as Hle.
  assert (Hin : In (ref x) (map (@ref _) (Order.shipments o))).
  { apply in_map. eapply subseq_In; [exact Hsub | now left]. }
  apply removeItem_length in Hin. lia.
Qed.

Lemma combinations_rev_facts (o : WorkingOrder)
  (all : list (list (Obj Shipment.t))) :
  combinations (Order.shipments o) = Ok all ->
  Forall (fun c => subseq c (Order.shipments o) /\ c <> []) (rev all).
Proof.
  intros Hall. apply Forall_rev.
  pose proof (combinations_subseq _ Hall) as H1.
  pose proof (combinations_nonempty _ Hall) as H2.
  rewrite Forall_forall in *. intros c Hc. split; auto.
Qed.

Lemma whileDirty_empty (fuel : nat) (matcher : Matcher) (o : WorkingOrder)
  (removed : bool) (st : State) (o' : WorkingOrder) (removed' : bool)
  (st' : State) :
  Order.shipments o = [] ->
  whileDirty fuel matcher o removed st = Ok (o', removed', st') ->
  o' = o /\ removed' = removed /\ st' = st.
Proof.
  intros Hempty. destruct fuel as [|fuel]; cbn [whileDirty]; [discriminate|].
  rewrite Hempty. cbn. intros [= <- <- <-]. now repeat split.
Qed.

(** A property of the orders and of the variables of [joinOrders] that
    every match preserves, and that does not depend on orders without
    shipments, holds after the first pass if it held before. *)
Section FirstPassInvariant.
Variable G : list WorkingOrder -> State -> Prop.
Hypothesis G_match :
  forall kept o rest st o1 st1,
    G (kept ++ o :: rest) st -> MatchStep o st o1 st1 ->
    G (kept ++ o1 :: rest) st1.
Hypothesis G_remove :
  forall kept o rest st,
    G (kept ++ o :: rest) st -> Order.shipments o = [] -> G (kept ++ rest) st.

Lemma whileDirty_invariant (matcher : Matcher) (kept rest : list WorkingOrder)
  (fuel : nat) :
  forall o removed st o' removed' st',
    G (kept ++ o :: rest) st ->
    whileDirty fuel matcher o removed st = Ok (o', removed', st') ->
    G (kept ++ o' :: rest) st' /\
    (removed' = true -> removed = true \/ Order.shipments o' = []).
Proof.
  induction fuel as [|fuel IH]; intros o removed st o' removed' st' HG;
    cbn [whileDirty]; [discriminate|].
  destruct (combinations (Order.shipments o)) as [all| |] eqn:Hall;
    cbn [bind]; try discriminate.
  destruct (forShipmentCombinations _ _ _ _) as [[[o1 st1]|]| |] eqn:Hfor;
    cbn [bind]; try discriminate.
  - intros Hrest.
    apply forShipmentCombinations_step in Hfor;
      [|now apply combinations_rev_facts].
    pose proof (@G_match kept o rest st o1 st1 HG Hfor) as HG1.
    destruct (length (Order.shipments o1) =? 0)%nat eqn:Hlen.
    + apply Nat.eqb_eq, length_zero_iff_nil in Hlen.
      destruct (@whileDirty_empty fuel matcher o1 _ st1 o' removed' st' Hlen Hrest)
        as (-> & _ & ->).
      split; [assumption|]. intros _. now right.
    + rewrite orb_false_r in Hrest. now apply IH in Hrest.
  - intros [= <- <- <-]. split; [assumption|]. intros ->. now left.
Qed.

Lemma forOrders_invariant (matcher : Matcher) (todo : list WorkingOrder) :
  forall kept st orders' st',
    G (kept ++ todo) st ->
    forOrders matcher kept todo st = Ok (orders', st') -> G orders' st'.
Proof.
  induction todo as [|o rest IH]; intros kept st orders' st' HG;
    cbn [forOrders].
  - intros [= <- <-]. now rewrite app_nil_r in HG.
  - destruct (whileDirty _ _ _ _ _) as [[[o1 removed] st1]| |] eqn:Hwhile;
      cbn [bind]; try discriminate.
    apply (whileDirty_invariant _ kept rest) in Hwhile; [|assumption].
    destruct Hwhile as [HG1 Hremoved].
    destruct removed.
    + apply IH. apply G_remove with o1; [assumption|].
      destruct (Hremoved eq_refl) as [|]; [discriminate | assumption].
    + apply IH. now rewrite <- app_assoc.
Qed.

Theorem forMatchers_invariant (matchers : list Matcher) :
  forall orders st orders' st',
    G orders st ->
    forMatchers matchers orders st = Ok (orders', st') -> G orders' st'.
Proof.
  induction matchers as [|matcher rest IH]; intros orders st orders' st' HG;
    cbn [forMatchers].
  - now intros [= <- <-].
  - destruct (forOrders matcher [] orders st) as [[orders1 st1]| |] eqn:Hfor;
      cbn [bind]; try discriminate.
    apply IH. eapply forOrders_invariant; [|exact Hfor]. exact HG.
Qed.

End FirstPassInvariant.

(** ** The fuel of the [while] loop is never used up *)

Lemma bind_fuel (A B : Type) (c : Res A) (k : A -> Res B) :
  c <> OutOfFuel -> (forall a, c = Ok a -> k a <> OutOfFuel) ->
  bind c k <> OutOfFuel.
Proof.
  intros Hc Hk. destruct c as [a| |]; cbn.
  - now apply Hk.
  - discriminate.
  - contradiction.
Qed.

Lemma combinations_fuel (T : Type) (array : list T) :
  combinations array <> OutOfFuel.
Proof. unfold combinations. destruct (_ <? 0); discriminate. Qed.

Lemma runMatcher_fuel (matcher : Matcher) (shipments : list (Obj Shipment.t))
  (amount : Q) (o : WorkingOrder) (returns : list Return.t)
  (pool : list (Obj Transaction.t)) :
  runMatcher matcher shipments amount o returns pool <> OutOfFuel.
Proof.
  destruct matcher; cbn [runMatcher].
  - discriminate.
  - unfold getCombinationMatches. apply bind_fuel.
    + apply combinations_fuel.
    + discriminate.
  - unfold getGiftCardMatches.
    destruct (negb _); [discriminate|].
    destruct (sort _ _); [discriminate|].
    destruct shipments; [discriminate|].
    destruct (find _ _); discriminate.
Qed.

Lemma allocateItems_fuel (items : list (Obj JoinedRecordItem.t))
  (matchAmount : Q) :
  allocateItems items matchAmount <> OutOfFuel.
Proof.
  unfold allocateItems. apply bind_fuel.
  - unfold exactSubsetScan. apply bind_fuel.
    + apply combinations_fuel.
    + discriminate.
  - intros [matchItems items1] _.
    destruct (_ =? _)%nat; [|discriminate].
    destruct (splitAcross _ _ _) as [[? ?] ?].
    destruct (negb _); discriminate.
Qed.

Lemma forMatches_fuel (o : WorkingOrder) (matches : list (Obj Transaction.t)) :
  forall items st, forMatches o matches items st <> OutOfFuel.
Proof.
  induction matches as [|m rest IH]; intros items st; cbn [forMatches].
  - discriminate.
  - apply bind_fuel.
    + apply allocateItems_fuel.
    + intros [a items1] _. apply IH.
Qed.

Lemma forShipmentCombinations_fuel (matcher : Matcher) (o : WorkingOrder)
  (st : State) (combos : list (list (Obj Shipment.t))) :
  forShipmentCombinations matcher o st combos <> OutOfFuel.
Proof.
  induction combos as [|shipments rest IH]; cbn [forShipmentCombinations].
  - discriminate.
  - apply bind_fuel.
    + apply runMatcher_fuel.
    + intros [[matches s1] r1] _.
      destruct (_ <? _)%nat; [|exact IH].
      apply bind_fuel.
      * apply forMatches_fuel.
      * intros [items' st'] _. discriminate.
Qed.

Lemma whileDirty_fuel (matcher : Matcher) (fuel : nat) :
  forall o removed st,
    (length (Order.shipments o) < fuel)%nat ->
    whileDirty fuel matcher o removed st <> OutOfFuel.
Proof.
  induction fuel as [|fuel IH]; intros o removed st Hlen; [lia|].
  cbn [whileDirty]. apply bind_fuel; [apply combinations_fuel|].
  intros all Hall. apply bind_fuel; [apply forShipmentCombinations_fuel|].
  intros [[o1 st1]|] Hfor; [|discriminate].
  apply forShipmentCombinations_step in Hfor;
    [|now apply combinations_rev_facts].
  apply MatchStep_shrinks in Hfor.
  apply IH. lia.
Qed.

Lemma forOrders_fuel (matcher : Matcher) (todo : list WorkingOrder) :
  forall kept st, forOrders matcher kept todo st <> OutOfFuel.
Proof.
  induction todo as [|o rest IH]; intros kept st; cbn [forOrders].
  - discriminate.
  - apply bind_fuel.
    + apply whileDirty_fuel. lia.
    + intros [[o1 removed] st1] _. destruct removed; apply IH.
Qed.

Lemma forMatchers_fuel (matchers : list Matcher) :
  forall orders st, forMatchers matchers orders st <> OutOfFuel.
Proof.
  induction matchers as [|matcher rest IH]; intros orders st;
    cbn [forMatchers].
  - discriminate.
  - apply bind_fuel; [apply forOrders_fuel|].
    intros [orders1 st1] _. apply IH.
Qed.

(** X26: the [while (dirty)] loop of [joinOrders] ends: for an order of n
    shipments it runs at most n + 1 times, since every round that finds a
    match takes a shipment out of the order.  A run of [joinOrders]
    returns or throws. *)
Theorem joinOrders_fuel (caller : Caller) : joinOrders caller <> OutOfFuel.
Proof.
  unfold joinOrders. apply bind_fuel; [apply forMatchers_fuel|].
  intros [orders1 st1] _.
  destruct (forReturns _ _ _ _ _) as [[? ?] ?]. discriminate.
Qed.

(** ** The return pass *)

Lemma forReturns_spec (giftCards : list GiftCard.t) (todo : list Return.t) :
  forall kept pool records,
  exists unmatched pool' news,
    forReturns giftCards kept todo pool records
    = (kept ++ unmatched, pool', records ++ news) /\
    ReturnsMatched giftCards todo pool unmatched pool' news.
Proof.
  induction todo as [|ret rest IH]; intros kept pool records;
    cbn [forReturns].
  - exists [], pool, []. rewrite !app_nil_r. split; [reflexivity|constructor].
  - destruct (findReturnTransaction giftCards ret pool) as [[tx gc]|] eqn:Hfind.
    + destruct (IH kept (removeItem pool tx)
                   (records ++ [makeReturnRecord ret tx gc]))
        as (unmatched & pool' & news & -> & Hrel).
      exists unmatched, pool', (makeReturnRecord ret tx gc :: news).
      split; [now rewrite <- app_assoc|].
      now apply returns_match.
    + destruct (IH (kept ++ [ret]) pool records)
        as (unmatched & pool' & news & -> & Hrel).
      exists (ret :: unmatched), pool', news.
      split; [now rewrite <- app_assoc|].
      now apply returns_skip.
Qed.

Lemma findReturnTransaction_some (giftCards : list GiftCard.t)
  (ret : Return.t) (pool : list (Obj Transaction.t))
  (tx : Obj Transaction.t) (gc : option GiftCard.t) :
  findReturnTransaction giftCards ret pool = Some (tx, gc) ->
  In tx pool /\ returnMatches giftCards ret tx = Some gc.
Proof.
  induction pool as [|t rest IH]; cbn; [discriminate|].
  destruct (returnMatches giftCards ret t) as [g|] eqn:Hm.
  - intros [= <- <-]. split; [now left | assumption].
  - intros H. apply IH in H. destruct H. split; [now right | assumption].
Qed.

Lemma findReturnTransaction_none (giftCards : list GiftCard.t)
  (ret : Return.t) (pool : list (Obj Transaction.t)) :
  findReturnTransaction giftCards ret pool = None <->
  forall tx, In tx pool -> returnMatches giftCards ret tx = None.
Proof.
  induction pool as [|t rest IH]; cbn.
  - split; [intros _ tx [] | reflexivity].
  - destruct (returnMatches giftCards ret t) as [g|] eqn:Hm.
    + split; [discriminate|]. intros H.
      specialize (H t (or_introl eq_refl)). congruence.
    + rewrite IH. split.
      * intros H tx [<-|Htx]; [assumption | now apply H].
      * intros H tx Htx. apply H. now right.
Qed.

(** The transactions left by the return pass are some of those it was
    given, in their order. *)
Lemma ReturnsMatched_pool (giftCards : list GiftCard.t)
  (todo : list Return.t) (pool : list (Obj Transaction.t))
  (unmatched : list Return.t) (pool' : list (Obj Transaction.t))
  (news : list JoinedRecord.t) :
  ReturnsMatched giftCards todo pool unmatched pool' news ->
  subseq pool' pool.
Proof.
  induction 1 as [pool| ? ? ? ? ? ? ? ? _ _ IH | ? ? ? ? ? ? _ _ IH].
  - apply subseq_refl.
  - eapply subseq_trans; [exact IH | apply removeItem_subseq].
  - exact IH.
Qed.

(** ** isUnmodified *)

Lemma transactionMatches_spec (r : JoinedRecord.t) (t : Transaction.t) :
  transactionMatches r t = true <-> itemsCoveredBy r t.
Proof.
  unfold transactionMatches, itemsCoveredBy.
  destruct (Nat.eqb_spec (length (Transaction.children t))
                         (length (JoinedRecord.items r))) as [Hlen|Hlen];
    cbn [negb].
  - rewrite forallb_forall. split.
    + intros H. split; [assumption|]. intros item Hitem.
      specialize (H item Hitem). apply existsb_exists in H.
      destruct H as (child & Hchild & Hm).
      unfold itemMatchesChild in Hm. apply andb_true_iff in Hm.
      destruct Hm as [Ha Hd].
      exists child. split; [assumption|]. split.
      * now apply amountsMatch_spec.
      * now apply String.eqb_eq.
    + intros [_ H] item Hitem.
      destruct (H item Hitem) as (child & Hchild & Ha & Hd).
      apply existsb_exists. exists child. split; [assumption|].
      unfold itemMatchesChild. apply andb_true_iff. split.
      * now apply amountsMatch_spec.
      * now apply String.eqb_eq.
  - split; [discriminate|]. intros [H _]. contradiction.
Qed.

Lemma makeJoinedRecord_builtFor (o : WorkingOrder) (m : Obj Transaction.t)
  (a : list JoinedRecordItem.t) :
  builtFor (val m) (makeJoinedRecord o m a).
Proof. repeat split. Qed.

Lemma makeReturnRecord_builtFor (ret : Return.t) (tx : Obj Transaction.t)
  (gc : option GiftCard.t) :
  builtFor (val tx) (makeReturnRecord ret tx gc).
Proof. repeat split. Qed.

Section Provenance.
Variable transactions : list Transaction.t.

Lemma provenance_match (o : WorkingOrder) (st : State) (o1 : WorkingOrder)
  (st1 : State) :
  provenance transactions st -> MatchStep o st o1 st1 ->
  provenance transactions st1.
Proof.
  intros [Hpool Hrecs]
         [shipments matches s1 news _ _ Hpart _ _ _ Htx Hnews Hall _].
  split.
  - rewrite Htx. eapply subseq_Forall; [apply removeItems_subseq|assumption].
  - rewrite Hnews. apply Forall_app. split; [assumption|].
    assert (Hmatches : Forall (fun m => In (val m) transactions) matches).
    { apply Forall_forall. intros m Hm.
      rewrite Forall_forall in Hpool. apply Hpool.
      eapply partOf_In; eassumption. }
    clear -Hall Hmatches.
    induction Hall as [|m r ms rs [items a items' _ _ ->] _ IH];
      constructor.
    + inversion Hmatches; subst.
      exists (val m). split; [assumption | apply makeJoinedRecord_builtFor].
    + apply IH. now inversion Hmatches.
Qed.

Lemma provenance_returns (giftCards : list GiftCard.t)
  (todo : list Return.t) (pool : list (Obj Transaction.t))
  (unmatched : list Return.t) (pool' : list (Obj Transaction.t))
  (news : list JoinedRecord.t) :
  ReturnsMatched giftCards todo pool unmatched pool' news ->
  Forall (fun m => In (val m) transactions) pool ->
  Forall (fun r => exists t, In t transactions /\ builtFor t r) news.
Proof.
  induction 1 as [pool| ret rest pool tx gc ? ? ? Hfind _ IH
                 | ? ? ? ? ? ? _ _ IH]; intros Hpool.
  - constructor.
  - apply findReturnTransaction_some in Hfind. destruct Hfind as [Htx _].
    constructor.
    + exists (val tx). split; [|apply makeReturnRecord_builtFor].
      rewrite Forall_forall in Hpool. now apply Hpool.
    + apply IH. eapply subseq_Forall; [apply removeItem_subseq|assumption].
  - now apply IH.
Qed.

End Provenance.

Lemma tagFrom_val (A : Type) (l : list A) (k : nat) :
  map (@val A) (tagFrom k l) = l.
Proof.
  revert k. induction l as [|x rest IH]; intros k; cbn.
  - reflexivity.
  - now rewrite IH.
Qed.

(** Every record of a run was made for one of the caller's transactions. *)
Lemma joinOrders_provenance (caller : Caller) (result : JoinResult)
  (caller' : Caller) :
  joinOrders caller = Ok (result, caller') ->
  Forall (fun r => exists t, In t (callerTransactions caller) /\ builtFor t r)
         (resultJoinedRecords result).
Proof.
  intros Hrun. apply joinOrders_result in Hrun.
  destruct Hrun as (orders1 & st1 & returns2 & pool2 & records2 &
                    Hfirst & Hsecond & -> & _).
  cbn [resultJoinedRecords].
  assert (Hst1 : provenance (callerTransactions caller) st1).
  { apply (@forMatchers_invariant
             (fun _ st => provenance (callerTransactions caller) st))
      in Hfirst; [exact Hfirst | | | ].
    - intros kept o rest st o' st' HG Hstep.
      eapply provenance_match; eassumption.
    - intros kept o rest st HG _. exact HG.
    - split; cbn [mintTransactions joinedRecords]; [|constructor].
      apply Forall_forall. intros m Hm.
      rewrite <- (tagFrom_val (callerTransactions caller) 0).
      now apply in_map. }
  destruct (forReturns_spec (giftCards st1) (amazonReturns st1) []
              (mintTransactions st1) (joinedRecords st1))
    as (unmatched & pool' & news & Heq & Hrel).
  rewrite Hsecond in Heq. injection Heq as _ _ ->.
  destruct Hst1 as [Hpool Hrecs].
  apply (@provenance_returns (callerTransactions caller)) in Hrel;
    [|assumption].
  eapply Permutation_Forall; [symmetry; apply sort_perm|].
  apply Forall_app. now split.
Qed.

(** C2, counterexample: a shipment of twice the same item is matched to a
    charge whose children name two different items; every item finds a
    child, the record is marked unmodified, and the two multisets
    differ. *)
Lemma isUnmodified_not_multiset :
  exists result caller' r,
    joinOrders Sample.twiceRun = Ok (result, caller') /\
    resultJoinedRecords result = [r] /\
    JoinedRecord.mintTransactionId r = Transaction.id Sample.twiceCharge /\
    JoinedRecord.isUnmodified r = true /\
    ~ sameMultiset (itemPairs r) (childPairs Sample.twiceCharge).
Proof.
  do 3 eexists. split; [vm_compute; reflexivity|].
  split; [reflexivity|]. split; [reflexivity|]. split; [reflexivity|].
  intros (l & Hperm & Hall).
  assert (Hsnd : map snd l = map snd (childPairs Sample.twiceCharge)).
  { clear Hperm. induction Hall as [|a b ? ? [_ Hab] _ IH]; cbn.
    - reflexivity.
    - now rewrite Hab, IH. }
  assert (Hin : In "Amazon - Y"%string (map snd l)).
  { rewrite Hsnd. vm_compute. right. now left. }
  apply (Permutation_in _ (Permutation_map snd (Permutation_sym Hperm)))
    in Hin.
  vm_compute in Hin.
  destruct Hin as [Hin|[Hin|[]]]; discriminate Hin.
Qed.

(** C2, amended: for every JoinedRecord produced by joinOrders, made for
    the ledger transaction t, isUnmodified is true if and only if t has as
    many pre-existing children as the record has items and every item of
    the record has some child of t whose amount is within 0.01 of the
    item's and whose trimmed description equals the item's. *)
Theorem isUnmodified_characterized (caller : Caller) (result : JoinResult)
  (caller' : Caller) (r : JoinedRecord.t) :
  joinOrders caller = Ok (result, caller') ->
  In r (resultJoinedRecords result) ->
  exists t,
    In t (callerTransactions caller) /\
    JoinedRecord.mintTransactionId r = Transaction.id t /\
    JoinedRecord.amount r = Transaction.amount t /\
    (JoinedRecord.isUnmodified r = true <-> itemsCoveredBy r t).
Proof.
  intros Hrun Hr. apply joinOrders_provenance in Hrun.
  rewrite Forall_forall in Hrun.
  destruct (Hrun r Hr) as (t & Ht & Hid & Hamount & Hun).
  exists t. split; [assumption|]. split; [assumption|].
  split; [assumption|].
  rewrite Hun. apply transactionMatches_spec.
Qed.

Lemma isUnmodified_characterized_witness :
  exists result caller' r,
    joinOrders Sample.twiceRun = Ok (result, caller') /\
    In r (resultJoinedRecords result) /\
    exists t,
      In t (callerTransactions Sample.twiceRun) /\
      JoinedRecord.mintTransactionId r = Transaction.id t /\
      JoinedRecord.amount r = Transaction.amount t /\
      (JoinedRecord.isUnmodified r = true <-> itemsCoveredBy r t).
Proof.
  destruct (joinOrders Sample.twiceRun) as [[result caller']| |] eqn:Hrun;
    try (vm_compute in Hrun; discriminate Hrun).
  destruct (resultJoinedRecords result) as [|r rest] eqn:Hrecs.
  { vm_compute in Hrun. injection Hrun as <- _. discriminate Hrecs. }
  assert (Hin : In r (resultJoinedRecords result))
    by (rewrite Hrecs; now left).
  exists result, caller', r. split; [reflexivity|]. split; [exact Hin|].
  exact (@isUnmodified_characterized Sample.twiceRun result caller' r
           Hrun Hin).
Defined.

Lemma Forall2_In_l (A B : Type) (R : A -> B -> Prop) (l1 : list A)
  (l2 : list B) (a : A) :
  Forall2 R l1 l2 -> In a l1 -> exists b, In b l2 /\ R a b.
Proof.
  induction 1 as [|x y l1 l2 Hxy _ IH]; intros Ha; [destruct Ha|].
  destruct Ha as [<-|Ha].
  - exists y. split; [now left | assumption].
  - destruct (IH Ha) as (b & Hb & Hab). exists b. split; [now right|assumption].
Qed.

(** Equal multisets are covered: the direction of the specification's
    statement that the code satisfies. *)
Lemma sameMultiset_covered (r : JoinedRecord.t) (t : Transaction.t) :
  sameMultiset (itemPairs r) (childPairs t) -> itemsCoveredBy r t.
Proof.
  intros (l & Hperm & Hall). split.
  - apply Forall2_length in Hall. apply Permutation_length in Hperm.
    unfold itemPairs, childPairs in *. rewrite !length_map in *. lia.
  - intros item Hitem.
    assert (Hin : In (JoinedRecordItem.amount item,
                      trim (JoinedRecordItem.description item)) l).
    { eapply Permutation_in; [exact Hperm|].
      unfold itemPairs.
      apply (in_map (fun item => (JoinedRecordItem.amount item,
                                  trim (JoinedRecordItem.description item)))).
      exact Hitem. }
    destruct (@Forall2_In_l _ _ _ _ _ _ Hall Hin) as (q & Hq & Ha & Hd).
    unfold childPairs in Hq. apply in_map_iff in Hq.
    destruct Hq as (child & <- & Hchild). cbn [fst snd] in Ha, Hd.
    exists child. split; [assumption|]. split; [|now symmetry].
    rewrite Ha.
    setoid_replace (ChildTransaction.amount child
                    - ChildTransaction.amount child)%Q with 0%Q by ring.
    reflexivity.
Qed.

(** ** Sums of amounts *)

Section Sums.
Local Open Scope Q_scope.
Variable A : Type.
Variable amt : A -> Q.

Lemma sumAmounts_from (l : list A) (acc : Q) :
  fold_left (fun amount item => amount + amt item) l acc
  == acc + sumAmounts amt l.
Proof.
  unfold sumAmounts. revert acc.
  induction l as [|x rest IH]; intros acc; cbn [fold_left].
  - ring.
  - rewrite (IH (acc + amt x)), (IH (0 + amt x)). ring.
Qed.

Lemma sumAmounts_cons (x : A) (l : list A) :
  sumAmounts amt (x :: l) == amt x + sumAmounts amt l.
Proof.
  unfold sumAmounts at 1. cbn [fold_left].
  rewrite sumAmounts_from. ring.
Qed.

Lemma sumAmounts_app (l1 l2 : list A) :
  sumAmounts amt (l1 ++ l2) == sumAmounts amt l1 + sumAmounts amt l2.
Proof.
  induction l1 as [|x rest IH]; cbn [app].
  - unfold sumAmounts at 2. cbn. ring.
  - rewrite !sumAmounts_cons, IH. ring.
Qed.

End Sums.

Lemma sumAmounts_map (A B : Type) (f : A -> B) (amt : B -> Q) (l : list A) :
  sumAmounts amt (map f l) = sumAmounts (fun x => amt (f x)) l.
Proof.
  unfold sumAmounts. generalize 0%Q.
  induction l as [|x rest IH]; intros acc; cbn.
  - reflexivity.
  - apply IH.
Qed.

Lemma last_In (A : Type) (l : list A) (d : A) : l <> [] -> In (last l d) l.
Proof.
  induction l as [|x rest IH]; intros Hne; [contradiction|].
  destruct rest as [|y rest'].
  - now left.
  - right. apply IH. discriminate.
Qed.

(** ** The balance of the records *)

Lemma splitAcross_remaining (items : list (Obj JoinedRecordItem.t)) :
  forall acc remaining a items' remaining',
    splitAcross items acc remaining = (a, items', remaining') ->
    exists taken,
      a = acc ++ taken /\ remaining' = remainingAfter remaining taken.
Proof.
  induction items as [|item rest IH]; intros acc remaining a items' remaining';
    cbn [splitAcross].
  - intros [= <- _ <-]. exists []. now rewrite app_nil_r.
  - destruct (Qltb remaining 0).
    + intros H. apply IH in H. destruct H as (taken & -> & ->).
      exists (val item :: taken). now rewrite <- app_assoc.
    + intros [= <- _ <-]. exists []. now rewrite app_nil_r.
Qed.

Lemma getTotalAmount_vals (c : list (Obj JoinedRecordItem.t)) :
  getTotalAmount JoinedRecordItem.amount (map (@val _) c)
  = getTotalAmount itemAmount c.
Proof. unfold getTotalAmount. now rewrite sumAmounts_map. Qed.

(** The items allocated to a transaction passed the test of the subset
    scan, or were split off the pool and balanced. *)
Lemma allocateItems_balance (items : list (Obj JoinedRecordItem.t))
  (matchAmount : Q) (a : list JoinedRecordItem.t)
  (items' : list (Obj JoinedRecordItem.t)) :
  allocateItems items matchAmount = Ok (a, items') ->
  (a <> [] /\
   amountsMatch (getTotalAmount JoinedRecordItem.amount a) matchAmount = true)
  \/
  exists taken,
    (a = taken /\ amountsMatch (remainingAfter matchAmount taken) 0 = true) \/
    (a = taken ++ [balanceAdjust (remainingAfter matchAmount taken)] /\
     amountsMatch (remainingAfter matchAmount taken) 0 = false).
Proof.
  unfold allocateItems, exactSubsetScan.
  destruct (combinations items) as [all| |] eqn:Hall; cbn [bind];
    try discriminate.
  set (p := fun c => amountsMatch (getTotalAmount itemAmount c) matchAmount).
  pose proof (scan_fold_last p
                (fun c its => fold_left (@removeItem _) c its)
                all ([], items)) as Hlast.
  cbn [fst] in Hlast. fold p.
  destruct (fold_left _ all ([], items)) as [matchItems items1].
  cbn [fst] in Hlast.
  destruct (Nat.eqb_spec (length matchItems) 0) as [_|Hlen].
  - destruct (splitAcross items1 [] matchAmount) as [[a2 items2] remaining]
      eqn:Hsplit.
    apply splitAcross_remaining in Hsplit.
    destruct Hsplit as (taken & -> & ->). cbn [app].
    destruct (amountsMatch (remainingAfter matchAmount taken) 0) eqn:Hzero;
      cbn [negb]; intros [= <- _]; right; exists taken; [left | right];
      now split.
  - intros [= <- _]. left.
    assert (Hne : filter p all <> []).
    { intros Hnil. rewrite Hnil in Hlast. cbn in Hlast. subst matchItems.
      now apply Hlen. }
    pose proof (last_In [] Hne) as Hin. rewrite <- Hlast in Hin.
    apply filter_In in Hin. destruct Hin as [_ Hp]. split.
    + destruct matchItems; [now contradiction Hlen | discriminate].
    + rewrite getTotalAmount_vals. exact Hp.
Qed.

Lemma Allocated_balanced (o : WorkingOrder)
  (pool : list (Obj JoinedRecordItem.t)) (m : Obj Transaction.t)
  (r : JoinedRecord.t) :
  Allocated o pool m r -> exactlyAllocated r \/ splitAllocated r.
Proof.
  intros [items a items' _ Halloc ->].
  unfold exactlyAllocated, splitAllocated.
  cbn [makeJoinedRecord JoinedRecord.items JoinedRecord.amount].
  exact (allocateItems_balance _ _ Halloc).
Qed.

Lemma makeReturnRecord_refundOf (giftCards : list GiftCard.t)
  (ret : Return.t) (tx : Obj Transaction.t) (gc : option GiftCard.t) :
  returnMatches giftCards ret tx = Some gc ->
  refundOf ret (makeReturnRecord ret tx gc).
Proof.
  unfold returnMatches, refundOf.
  cbn [makeReturnRecord JoinedRecord.orderId JoinedRecord.orderDate
       JoinedRecord.items JoinedRecord.amount].
  fold (negatedItems ret).
  intros Hm. split; [reflexivity|]. split; [reflexivity|].
  destruct (find _ giftCards) as [g|] eqn:Hfind.
  - injection Hm as <-. apply find_some in Hfind. destruct Hfind as [_ Hfind].
    right. exists (GiftCard.amount g). split; [reflexivity | exact Hfind].
  - destruct (amountsMatch _ _) eqn:Hplain; [|discriminate].
    injection Hm as <-. left. split; [apply app_nil_r | reflexivity].
Qed.

Lemma ReturnsMatched_refunds (giftCards : list GiftCard.t)
  (todo : list Return.t) (pool : list (Obj Transaction.t))
  (unmatched : list Return.t) (pool' : list (Obj Transaction.t))
  (news : list JoinedRecord.t) :
  ReturnsMatched giftCards todo pool unmatched pool' news ->
  Forall (fun r => exists ret, In ret todo /\ refundOf ret r) news.
Proof.
  induction 1 as [pool| ret rest pool tx gc ? ? ? Hfind _ IH
                 | ret rest ? ? ? ? _ _ IH].
  - constructor.
  - apply findReturnTransaction_some in Hfind. destruct Hfind as [_ Hm].
    constructor.
    + exists ret. split; [now left|].
      eapply makeReturnRecord_refundOf; exact Hm.
    + revert IH. apply Forall_impl. intros r (ret' & Hin & Hr).
      exists ret'. split; [now right | assumption].
  - revert IH. apply Forall_impl. intros r (ret' & Hin & Hr).
    exists ret'. split; [now right | assumption].
Qed.

(** The records of the first pass balance as the allocator tested, and
    the returns it leaves are returns of the input. *)
Lemma firstPass_balanced (caller : Caller) (orders1 : list WorkingOrder)
  (st1 : State) :
  forMatchers [ExactMatcher; CombinationMatcher; GiftCardMatcher]
    (sort largerTotal (map cloneOrder (callerOrders caller)))
    (mkState (tagFrom 0 (callerTransactions caller)) (callerReturns caller)
             [] [])
  = Ok (orders1, st1) ->
  subseq (amazonReturns st1) (callerReturns caller) /\
  Forall (fun r => exactlyAllocated r \/ splitAllocated r)
         (joinedRecords st1).
Proof.
  intros Hfirst.
  apply (@forMatchers_invariant
           (fun _ st =>
              subseq (amazonReturns st) (callerReturns caller) /\
              Forall (fun r => exactlyAllocated r \/ splitAllocated r)
                     (joinedRecords st))) in Hfirst.
  - exact Hfirst.
  - intros kept o rest st o1 st2 [Hreturns Hrecords]
      [shipments matches s1 news _ _ _ _ _ Hret _ Hnews Hall _].
    split.
    + eapply subseq_trans; eassumption.
    + rewrite Hnews. apply Forall_app. split; [assumption|].
      clear -Hall. induction Hall as [|m r ms rs Hmr _ IH]; constructor.
      * eapply Allocated_balanced; exact Hmr.
      * exact IH.
  - intros kept o rest st H _. exact H.
  - cbn [amazonReturns joinedRecords]. split; [apply subseq_refl|constructor].
Qed.

(** C1, counterexample: a refund of 25.00 is paired with a return of 25.00
    that lists no item; the record has amount 25.00 and no item at all. *)
Lemma refund_without_items :
  exists result caller' r,
    joinOrders Sample.refundRun = Ok (result, caller') /\
    In r (resultJoinedRecords result) /\
    ~ conserved r.
Proof.
  do 3 eexists. split; [vm_compute; reflexivity|].
  split; [now left|].
  vm_compute. discriminate.
Qed.

(** C1, amended: every JoinedRecord that joinOrders returns balances in
    the way the code tested when it made the record.  A record of the
    first pass has items that the subset scan accepted (at least one item,
    and getTotalAmount of the items matches the amount of the record under
    amountsMatch), or items split off the pool, followed by a
    "Balance Adjust" item that carries what is left of the amount of the
    record after their amounts were subtracted from it one by one, unless
    amountsMatch finds that within the tolerance of zero.  A record of the
    return pass is for a return of the input: it has the negated items of
    the return, whatever they total, and either its amount matches the
    amount of the return, or a "Gift Card" item of minus a gift-card
    amount follows and its amount matches the amount of the return less
    that gift-card amount. *)
Theorem joinOrders_balances (caller : Caller) (result : JoinResult)
  (caller' : Caller) :
  joinOrders caller = Ok (result, caller') ->
  Forall (balancedAsTested (callerReturns caller))
         (resultJoinedRecords result).
Proof.
  intros Hrun.
  apply joinOrders_result in Hrun
    as (orders1 & st1 & returns2 & pool2 & records2 &
        Hfirst & Hsecond & -> & _).
  cbn [resultJoinedRecords].
  eapply Permutation_Forall; [symmetry; apply sort_perm|].
  apply firstPass_balanced in Hfirst. destruct Hfirst as [Hreturns Hrecords].
  destruct (forReturns_spec (giftCards st1) (amazonReturns st1) []
              (mintTransactions st1) (joinedRecords st1))
    as (unmatched & pool' & news & Heq & Hrel).
  rewrite Hsecond in Heq. injection Heq as _ _ ->.
  apply Forall_app. split.
  - revert Hrecords. apply Forall_impl. intros r [Hr|Hr].
    + now left.
    + right. now left.
  - apply ReturnsMatched_refunds in Hrel.
    revert Hrel. apply Forall_impl. intros r (ret & Hin & Hr).
    right. right. exists ret. split; [|assumption].
    eapply subseq_In; eassumption.
Qed.

Lemma joinOrders_balances_witness :
  exists result caller',
    joinOrders Sample.busyRun = Ok (result, caller') /\
    length (resultJoinedRecords result) = 5%nat /\
    Forall (balancedAsTested (callerReturns Sample.busyRun))
           (resultJoinedRecords result).
Proof.
  destruct (joinOrders Sample.busyRun) as [[result caller']| |] eqn:Hrun;
    try (vm_compute in Hrun; discriminate Hrun).
  exists result, caller'. split; [reflexivity|]. split.
  - vm_compute in Hrun. injection Hrun as <- _. reflexivity.
  - exact (@joinOrders_balances Sample.busyRun result caller' Hrun).
Defined.

(** ** The partition of the input *)


Lemma tagFrom_ref (A : Type) (l : list A) (k : nat) :
  map (@ref A) (tagFrom k l) = seq k (length l).
Proof.
  revert k. induction l as [|x rest IH]; intros k; cbn.
  - reflexivity.
  - now rewrite IH.
Qed.

Lemma tagFrom_NoDup (A : Type) (l : list A) (k : nat) :
  NoDup (map (@ref A) (tagFrom k l)).
Proof. rewrite tagFrom_ref. apply seq_NoDup. Qed.

Lemma splitAcross_items (items : list (Obj JoinedRecordItem.t)) :
  forall acc remaining i,
    In i (fst (fst (splitAcross items acc remaining))) ->
    In i acc \/ In i (map (@val _) items).
Proof.
  induction items as [|item rest IH]; intros acc remaining i; cbn.
  - now left.
  - destruct (Qltb remaining 0); cbn.
    + intros Hi. apply IH in Hi. destruct Hi as [Hi|Hi]; [|now right; right].
      apply in_app_or in Hi. destruct Hi as [Hi|[<-|[]]];
        [now left | right; now left].
    + now left.
Qed.

(** An allocated item is an item of the pool or the balancing item. *)
Lemma allocateItems_items (items : list (Obj JoinedRecordItem.t))
  (matchAmount : Q) (a : list JoinedRecordItem.t)
  (items' : list (Obj JoinedRecordItem.t)) (i : JoinedRecordItem.t) :
  allocateItems items matchAmount = Ok (a, items') -> In i a ->
  In i (map (@val _) items) \/ exists x, i = balanceAdjust x.
Proof.
  unfold allocateItems.
  destruct (exactSubsetScan items matchAmount) as [[matchItems items1]| |]
    eqn:Hscan; cbn [bind]; try discriminate.
  pose proof (exactSubsetScan_subseq _ _ Hscan) as Hsub1.
  destruct (Nat.eqb_spec (length matchItems) 0) as [_|Hlen].
  - pose proof (splitAcross_items items1 [] matchAmount i) as Hsplit.
    destruct (splitAcross items1 [] matchAmount) as [[a2 items2] remaining].
    cbn [fst] in Hsplit.
    assert (Ha2 : In i a2 -> In i (map (@val _) items)).
    { intros Hi. destruct (Hsplit Hi) as [[]|Hi'].
      eapply subseq_In; [apply subseq_map; exact Hsub1 | exact Hi']. }
    destruct (negb _); intros [= <- _] Hi.
    + apply in_app_or in Hi. destruct Hi as [Hi|[<-|[]]].
      * left. now apply Ha2.
      * right. now eexists.
    + left. now apply Ha2.
  - intros [= <- _] Hi. left.
    unfold exactSubsetScan in Hscan.
    destruct (combinations items) as [all| |] eqn:Hall; cbn [bind] in Hscan;
      try discriminate.
    injection Hscan as Hscan.
    pose proof (scan_fold_last
                  (fun c => amountsMatch (getTotalAmount itemAmount c)
                                         matchAmount)
                  (fun c its => fold_left (@removeItem _) c its)
                  all ([], items)) as Hlast.
    cbv beta in Hlast. rewrite Hscan in Hlast. cbn [fst] in Hlast.
    destruct (filter _ all) as [|c cs] eqn:Hfilter.
    { cbn in Hlast. subst matchItems. now contradiction Hlen. }
    assert (Hin : In matchItems (c :: cs)).
    { rewrite Hlast. apply last_In. discriminate. }
    rewrite <- Hfilter in Hin. apply filter_In in Hin.
    destruct Hin as [Hin _].
    apply combinations_subseq in Hall. rewrite Forall_forall in Hall.
    eapply subseq_In; [apply subseq_map, Hall; exact Hin | exact Hi].
Qed.

Lemma allShipments_app (S : Type) (l1 l2 : list (Order.t S)) :
  allShipments (l1 ++ l2) = allShipments l1 ++ allShipments l2.
Proof. apply flat_map_app. Qed.

Lemma allShipments_cons (S : Type) (o : Order.t S) (l : list (Order.t S)) :
  allShipments (o :: l) = Order.shipments o ++ allShipments l.
Proof. reflexivity. Qed.

Lemma perm_regroup (A : Type) (a s k o1 r : list A) :
  Permutation ((a ++ s) ++ k ++ o1 ++ r) (a ++ k ++ (s ++ o1) ++ r).
Proof.
  rewrite <- !app_assoc. apply Permutation_app_head.
  rewrite !app_assoc. do 2 apply Permutation_app_tail.
  apply Permutation_app_comm.
Qed.

Lemma transactions_step (pool matches : list (Obj Transaction.t))
  (matched transactions : list Transaction.t) :
  NoDup (map (@ref _) pool) ->
  partOf matches pool ->
  Permutation (matched ++ map (@val _) pool) transactions ->
  NoDup (map (@ref _) (fold_left (@removeItem _) matches pool)) /\
  Permutation ((matched ++ map (@val _) matches)
               ++ map (@val _) (fold_left (@removeItem _) matches pool))
              transactions.
Proof.
  intros Hnd [rest Hrest] Hperm. split.
  - eapply subseq_NoDup; [|exact Hnd].
    apply subseq_map, removeItems_subseq.
  - rewrite <- Hperm, <- app_assoc. apply Permutation_app_head.
    rewrite <- map_app. apply Permutation_map.
    rewrite (@removeItems_perm _ matches pool rest Hnd Hrest). exact Hrest.
Qed.

Lemma shipments_step (all shipments s1 : list (Obj Shipment.t)) :
  NoDup (map (@ref _) all) ->
  subseq shipments all ->
  map (@ref _) s1 = map (@ref _) shipments ->
  NoDup (map (@ref _) (fold_left (@removeItem _) s1 all)) /\
  Permutation (map (@val _) shipments
               ++ map (@val _) (fold_left (@removeItem _) s1 all))
              (map (@val _) all).
Proof.
  intros Hnd Hsub Hrefs.
  rewrite (@removeItems_ref_ext _ s1 shipments all Hrefs). split.
  - eapply subseq_NoDup; [|exact Hnd].
    apply subseq_map, removeItems_subseq.
  - destruct (subseq_complement Hsub) as [rest Hrest].
    rewrite <- map_app. apply Permutation_map.
    rewrite (@removeItems_perm _ shipments all rest Hnd Hrest). exact Hrest.
Qed.


Lemma pushedTo_trackingIds (returns : list Return.t) (amount : Q)
  (matches : list (Obj Transaction.t)) (shipments s1 : list (Obj Shipment.t)) :
  pushedTo returns amount matches shipments s1 ->
  map (fun s => Shipment.trackingId (val s)) s1
  = map (fun s => Shipment.trackingId (val s)) shipments.
Proof.
  intros [->|(first & others & new & -> & -> & _)]; reflexivity.
Qed.

Lemma flattenItems_trackingIds (s1 : list (Obj Shipment.t))
  (i : JoinedRecordItem.t) :
  In i (map (@val _) (flattenItems s1)) ->
  In (JoinedRecordItem.trackingId i)
     (map (fun s => Shipment.trackingId (val s)) s1).
Proof.
  unfold flattenItems. rewrite tagFrom_val. intros Hi.
  apply in_flat_map in Hi. destruct Hi as (s & Hs & Hi).
  apply in_map_iff in Hi. destruct Hi as (item & <- & _).
  cbn. apply (in_map (fun s => Shipment.trackingId (val s))). exact Hs.
Qed.

Lemma itemsFrom_allocated (o : WorkingOrder) (returns : list Return.t)
  (amount : Q) (matches : list (Obj Transaction.t))
  (shipments s1 : list (Obj Shipment.t)) (news : list JoinedRecord.t) :
  pushedTo returns amount matches shipments s1 ->
  Forall2 (Allocated o (flattenItems s1)) matches news ->
  Forall (itemsFrom (map (@val _) shipments)) news.
Proof.
  intros Hpush Hall. apply pushedTo_trackingIds in Hpush.
  induction Hall as [|m r ms rs [items a items' Hsub Halloc ->] _ IH];
    constructor; [|exact IH].
  unfold itemsFrom. cbn [makeJoinedRecord JoinedRecord.items].
  apply Forall_forall. intros i Hi.
  destruct (@allocateItems_items _ _ _ _ _ Halloc Hi) as [Hpool|[x ->]];
    [|now left].
  right.
  assert (Hin : In i (map (@val _) (flattenItems s1))).
  { eapply subseq_In; [apply subseq_map; exact Hsub | exact Hpool]. }
  apply flattenItems_trackingIds in Hin. rewrite Hpush in Hin.
  apply in_map_iff in Hin. destruct Hin as (s & Hid & Hs).
  exists (val s). split; [now apply in_map | now symmetry].
Qed.

Lemma removeItem_In_perm (A : Type) (l : list (Obj A)) (x : Obj A) :
  NoDup (map (@ref A) l) -> In x l -> Permutation (x :: removeItem l x) l.
Proof.
  intros Hnd Hx. apply in_split in Hx. destruct Hx as (l1 & l2 & ->).
  assert (Hp : Permutation (x :: l1 ++ l2) (l1 ++ x :: l2))
    by apply Permutation_middle.
  rewrite (@removeItem_perm _ (l1 ++ x :: l2) (l1 ++ l2) x Hnd Hp).
  exact Hp.
Qed.

Lemma allShipments_plain (orders : list WorkingOrder) :
  allShipments (map plainOrder orders) = map (@val _) (allShipments orders).
Proof.
  induction orders as [|o rest IH].
  - reflexivity.
  - cbn [map]. rewrite !allShipments_cons, map_app, IH. reflexivity.
Qed.

Lemma allShipments_clone (orders : list AmazonOrder) :
  map (@val _) (allShipments (map cloneOrder orders)) = allShipments orders.
Proof.
  induction orders as [|o rest IH].
  - reflexivity.
  - cbn [map]. rewrite !allShipments_cons, map_app, IH.
    cbn [cloneOrder Order.shipments]. now rewrite tagFrom_val.
Qed.


Lemma forShipmentCombinations_round (matcher : Matcher) (o : WorkingOrder)
  (st : State) (combos : list (list (Obj Shipment.t)))
  (o1 : WorkingOrder) (st1 : State) :
  Forall (fun c => subseq c (Order.shipments o) /\ c <> []) combos ->
  forShipmentCombinations matcher o st combos = Ok (Some (o1, st1)) ->
  MatchRound o st o1 st1.
Proof.
  induction 1 as [|shipments rest [Hsub Hne] _ IH];
    cbn [forShipmentCombinations]; [discriminate|].
  destruct (runMatcher _ _ _ _ _ _) as [[[matches s1] r1]| |] eqn:Hm;
    cbn [bind]; try discriminate.
  destruct (Nat.ltb_spec 0 (length matches)) as [Hlen|_]; [|exact IH].
  destruct (forMatches _ _ _ _) as [[items' st']| |] eqn:Hfor;
    cbn [bind]; try discriminate.
  intros [= <- <-].
  pose proof (forMatches_spec _ _ _ _ Hfor) as (Hret & _).
  cbn [amazonReturns] in Hret. rewrite <- Hret in Hm, Hfor.
  apply matchRound with matcher shipments matches s1 items';
    try assumption; try reflexivity.
  destruct matches; [cbn in Hlen; lia | discriminate].
Qed.

(** A property of the orders and of the variables of [joinOrders] that
    every round preserves, and that does not depend on orders without
    shipments, holds after the first pass if it held before. *)
Section FirstPassRounds.
Variable G : list WorkingOrder -> State -> Prop.
Hypothesis G_round :
  forall kept o rest st o1 st1,
    G (kept ++ o :: rest) st -> MatchRound o st o1 st1 ->
    G (kept ++ o1 :: rest) st1.
Hypothesis G_remove :
  forall kept o rest st,
    G (kept ++ o :: rest) st -> Order.shipments o = [] -> G (kept ++ rest) st.

Lemma whileDirty_rounds (matcher : Matcher) (kept rest : list WorkingOrder)
  (fuel : nat) :
  forall o removed st o' removed' st',
    G (kept ++ o :: rest) st ->
    whileDirty fuel matcher o removed st = Ok (o', removed', st') ->
    G (kept ++ o' :: rest) st' /\
    (removed' = true -> removed = true \/ Order.shipments o' = []).
Proof.
  induction fuel as [|fuel IH]; intros o removed st o' removed' st' HG;
    cbn [whileDirty]; [discriminate|].
  destruct (combinations (Order.shipments o)) as [all| |] eqn:Hall;
    cbn [bind]; try discriminate.
  destruct (forShipmentCombinations _ _ _ _) as [[[o1 st1]|]| |] eqn:Hfor;
    cbn [bind]; try discriminate.
  - intros Hrest.
    apply forShipmentCombinations_round in Hfor;
      [|now apply combinations_rev_facts].
    pose proof (@G_round kept o rest st o1 st1 HG Hfor) as HG1.
    destruct (length (Order.shipments o1) =? 0)%nat eqn:Hlen.
    + apply Nat.eqb_eq, length_zero_iff_nil in Hlen.
      destruct (@whileDirty_empty fuel matcher o1 _ st1 o' removed' st' Hlen
                  Hrest) as (-> & _ & ->).
      split; [assumption|]. intros _. now right.
    + rewrite orb_false_r in Hrest. now apply IH in Hrest.
  - intros [= <- <- <-]. split; [assumption|]. intros ->. now left.
Qed.

Lemma forOrders_rounds (matcher : Matcher) (todo : list WorkingOrder) :
  forall kept st orders' st',
    G (kept ++ todo) st ->
    forOrders matcher kept todo st = Ok (orders', st') -> G orders' st'.
Proof.
  induction todo as [|o rest IH]; intros kept st orders' st' HG;
    cbn [forOrders].
  - intros [= <- <-]. now rewrite app_nil_r in HG.
  - destruct (whileDirty _ _ _ _ _) as [[[o1 removed] st1]| |] eqn:Hwhile;
      cbn [bind]; try discriminate.
    apply (whileDirty_rounds _ kept rest) in Hwhile; [|assumption].
    destruct Hwhile as [HG1 Hremoved].
    destruct removed.
    + apply IH. apply G_remove with o1; [assumption|].
      destruct (Hremoved eq_refl) as [|]; [discriminate | assumption].
    + apply IH. now rewrite <- app_assoc.
Qed.

Lemma forMatchers_rounds (matchers : list Matcher) :
  forall orders st orders' st',
    G orders st ->
    forMatchers matchers orders st = Ok (orders', st') -> G orders' st'.
Proof.
  induction matchers as [|matcher rest IH]; intros orders st orders' st' HG;
    cbn [forMatchers].
  - now intros [= <- <-].
  - destruct (forOrders matcher [] orders st) as [[orders1 st1]| |] eqn:Hfor;
      cbn [bind]; try discriminate.
    apply IH. eapply forOrders_rounds; [|exact Hfor]. exact HG.
Qed.

End FirstPassRounds.

Lemma removeFirst_found (p : Return.t -> bool) (l : list Return.t)
  (x : Return.t) :
  find p l = Some x -> Permutation (x :: removeFirst p l) l.
Proof.
  induction l as [|r rest IH]; cbn; [discriminate|].
  destruct (p r).
  - now intros [= ->].
  - intros H. rewrite perm_swap. constructor. now apply IH.
Qed.

(** The pending returns after a strategy ran: as they were, or without
    the one return that the Gift-Card strategy found for what its
    transaction leaves unpaid. *)
Lemma runMatcher_absorbed (matcher : Matcher)
  (shipments : list (Obj Shipment.t)) (amount : Q)
  (amazonOrder : WorkingOrder) (returns : list Return.t)
  (pool : list (Obj Transaction.t)) (matches : list (Obj Transaction.t))
  (s1 : list (Obj Shipment.t)) (r1 : list Return.t) :
  runMatcher matcher shipments amount amazonOrder returns pool
  = Ok (matches, s1, r1) ->
  r1 = returns \/
  exists ret t,
    Permutation (ret :: r1) returns /\ matches = [t] /\
    Order.usedGiftCard amazonOrder = true /\
    amountsMatch (Return.amount ret) (- (amount - txAmount t)) = true.
Proof.
  destruct matcher; cbn [runMatcher].
  - unfold getExactMatches. intros [= _ _ <-]. now left.
  - unfold getCombinationMatches.
    destruct (combinations _) as [all| |]; cbn [bind]; try discriminate.
    intros [= _ _ <-]. now left.
  - unfold getGiftCardMatches.
    destruct (Order.usedGiftCard amazonOrder) eqn:Hgift; cbn [negb].
    2:{ intros [= _ _ <-]. now left. }
    destruct (sort _ _) as [|t rest].
    { intros [= _ _ <-]. now left. }
    destruct shipments as [|first others]; [discriminate|].
    destruct (find _ returns) as [matchingReturn|] eqn:Hfind.
    + intros [= <- _ <-]. right. exists matchingReturn, t.
      split; [now apply removeFirst_found|].
      split; [reflexivity|]. split; [reflexivity|].
      now apply find_some in Hfind.
    + intros [= _ _ <-]. now left.
Qed.

Lemma getTotalAmount_group (shipments : list (Obj Shipment.t)) :
  getTotalAmount Shipment.amount (map (@val _) shipments)
  = getTotalAmount shipmentAmount shipments.
Proof. unfold getTotalAmount. now rewrite sumAmounts_map. Qed.

Lemma recordOfRound_allocated (o : WorkingOrder) (m : Round.t)
  (pool : list (Obj JoinedRecordItem.t)) (matches : list (Obj Transaction.t))
  (news : list JoinedRecord.t) :
  Order.orderId o = Order.orderId (Round.order m) ->
  Order.orderDate o = Order.orderDate (Round.order m) ->
  Forall2 (Allocated o pool) matches news ->
  Forall (itemsFrom (Round.shipments m)) news ->
  Forall2 (recordOfRound m) (map (@val _) matches) news.
Proof.
  intros Hid Hdate Hall. induction Hall as [|t r ts rs Hr _ IH];
    intros Hitems; cbn [map]; constructor.
  - inversion Hitems as [|? ? Hfrom _]; subst.
    destruct Hr as [items a items' _ _ ->].
    split; [apply makeJoinedRecord_builtFor|].
    split; [exact Hid|]. split; [exact Hdate | exact Hfrom].
  - apply IH. now inversion Hitems.
Qed.

Lemma ledgerSoFar_round (caller : Caller) (kept : list WorkingOrder)
  (o : WorkingOrder) (rest : list WorkingOrder) (st : State)
  (o1 : WorkingOrder) (st1 : State) :
  ledgerSoFar caller (kept ++ o :: rest) st -> MatchRound o st o1 st1 ->
  ledgerSoFar caller (kept ++ o1 :: rest) st1.
Proof.
  intros (rounds & Hnd & Htx & Horders & Hship & Hret & Hrecs & Hrounds)
         [matcher shipments matches s1 items' Hsub Hne Hmatches Hrun Hfor ->].
  pose proof (runMatcher_result _ _ _ _ _ _ Hrun)
    as (Hpart & _ & Hpush & _).
  pose proof (runMatcher_absorbed _ _ _ _ _ _ Hrun) as Habsorbed.
  apply forMatches_spec in Hfor.
  cbn [amazonReturns mintTransactions joinedRecords] in Hfor.
  destruct Hfor as (_ & Hpool & news & Hnews & Hall).
  destruct (@transactions_step _ _ (flat_map Round.transactions rounds) _
              Hnd Hpart Htx) as [Hnd1 Htx1].
  apply Forall_app in Horders. destruct Horders as [Hkept Hrest].
  inversion Hrest as [|? ? [Ho (o0 & Hin0 & Hid & Hdate & Hgift & Hcopy)]
                        Hrest']; subst.
  destruct (@shipments_step _ _ _ Ho Hsub (pushedTo_refs Hpush))
    as [Ho1 Hship1].
  assert (Hgone : exists gone,
             Permutation (gone ++ amazonReturns st1) (amazonReturns st) /\
             (gone = [] \/
              exists ret t,
                gone = [ret] /\ map (@val _) matches = [t] /\
                Order.usedGiftCard o0 = true /\
                amountsMatch (Return.amount ret)
                  (- (getTotalAmount Shipment.amount (map (@val _) shipments)
                      - Transaction.amount t)) = true)).
  { destruct Habsorbed as [Hsame|(ret & t & Hperm & -> & Hused & Hclose)].
    - exists []. split; [now rewrite Hsame | now left].
    - exists [ret]. split; [exact Hperm|]. right. exists ret, (val t).
      split; [reflexivity|]. split; [reflexivity|].
      split; [now rewrite <- Hgift|].
      rewrite getTotalAmount_group. exact Hclose. }
  destruct Hgone as (gone & Hgone & Hhow).
  set (m := Round.mk o0 (map (@val _) shipments) gone (map (@val _) matches)
                     news).
  exists (rounds ++ [m]).
  rewrite !flat_map_app. cbn [flat_map]. rewrite !app_nil_r.
  cbn [Round.transactions Round.shipments Round.absorbed Round.records m].
  rewrite Hpool, Hnews. repeat split.
  - exact Hnd1.
  - exact Htx1.
  - apply Forall_app. split; [assumption|]. constructor; [|assumption].
    split; [exact Ho1|]. exists o0. split; [exact Hin0|].
    repeat split; try assumption.
    cbn [setShipments Order.shipments].
    eapply subseq_trans; [|exact Hcopy].
    apply subseq_map, removeItems_subseq.
  - rewrite <- Hship.
    rewrite !allShipments_app, !allShipments_cons, !map_app.
    cbn [setShipments Order.shipments].
    rewrite perm_regroup, Hship1. reflexivity.
  - rewrite <- Hret, <- Hgone.
    rewrite <- !app_assoc. reflexivity.
  - now rewrite Hrecs.
  - apply Forall_app. split; [assumption|]. constructor; [|constructor].
    split; [exact Hin0|]. cbn [Round.order Round.shipments
                                  Round.transactions Round.records m].
    split; [eapply subseq_trans; [apply subseq_map; exact Hsub|exact Hcopy]|].
    split; [destruct shipments; [now contradiction Hne | discriminate]|].
    split; [destruct matches; [now contradiction Hmatches | discriminate]|].
    split.
    + apply recordOfRound_allocated with o (flattenItems s1);
        try assumption.
      eapply itemsFrom_allocated; eassumption.
    + exact Hhow.
Qed.

Lemma ledgerSoFar_remove (caller : Caller) (kept : list WorkingOrder)
  (o : WorkingOrder) (rest : list WorkingOrder) (st : State) :
  ledgerSoFar caller (kept ++ o :: rest) st -> Order.shipments o = [] ->
  ledgerSoFar caller (kept ++ rest) st.
Proof.
  intros (rounds & Hnd & Htx & Horders & Hship & Hret & Hrecs & Hrounds)
         Hempty.
  exists rounds. repeat split; try assumption.
  - apply Forall_app in Horders. destruct Horders as [Hkept Hrest].
    apply Forall_app. split; [assumption | now inversion Hrest].
  - rewrite <- Hship.
    rewrite !allShipments_app, allShipments_cons, Hempty. reflexivity.
Qed.

Lemma ledgerSoFar_initially (caller : Caller) :
  ledgerSoFar caller
    (sort largerTotal (map cloneOrder (callerOrders caller)))
    (mkState (tagFrom 0 (callerTransactions caller)) (callerReturns caller)
             [] []).
Proof.
  exists [].
  cbn [mintTransactions joinedRecords amazonReturns app flat_map].
  repeat split.
  - apply tagFrom_NoDup.
  - now rewrite tagFrom_val.
  - eapply Permutation_Forall; [symmetry; apply sort_perm|].
    apply Forall_forall. intros o Ho.
    apply in_map_iff in Ho. destruct Ho as (o0 & <- & Hin).
    cbn [cloneOrder Order.shipments]. split; [apply tagFrom_NoDup|].
    exists o0. split; [exact Hin|].
    split; [reflexivity|]. split; [reflexivity|]. split; [reflexivity|].
    cbn [cloneOrder Order.shipments]. rewrite tagFrom_val. apply subseq_refl.
  - rewrite <- allShipments_clone. apply Permutation_map.
    unfold allShipments. apply Permutation_flat_map, sort_perm.
  - reflexivity.
  - constructor.
Qed.

Lemma ReturnsMatched_ledger (giftCards : list GiftCard.t)
  (todo : list Return.t) (pool : list (Obj Transaction.t))
  (unmatched : list Return.t) (pool' : list (Obj Transaction.t))
  (news : list JoinedRecord.t) :
  ReturnsMatched giftCards todo pool unmatched pool' news ->
  NoDup (map (@ref _) pool) ->
  exists refunds,
    Permutation (map Refund.transaction refunds ++ map (@val _) pool')
                (map (@val _) pool) /\
    Permutation (map Refund.refunded refunds ++ unmatched) todo /\
    news = map Refund.record refunds /\
    Forall refundOK refunds.
Proof.
  induction 1 as [pool| ret rest pool tx gc unmatched pool' news Hfind _ IH
                 | ret rest pool unmatched pool' news _ _ IH]; intros Hnd.
  - exists []. repeat split; constructor || reflexivity.
  - apply findReturnTransaction_some in Hfind. destruct Hfind as [Htx Hm].
    destruct IH as (refunds & Hpool & Hret & -> & Hok).
    { eapply subseq_NoDup; [|exact Hnd].
      apply subseq_map, removeItem_subseq. }
    exists (Refund.mk ret (val tx) (makeReturnRecord ret tx gc) :: refunds).
    cbn [map Refund.transaction Refund.refunded Refund.record]. repeat split.
    + cbn [app]. rewrite Hpool.
      change (val tx :: map (@val _) (removeItem pool tx))
        with (map (@val _) (tx :: removeItem pool tx)).
      apply Permutation_map. now apply removeItem_In_perm.
    + cbn [app]. now constructor.
    + constructor; [|assumption]. split.
      * apply makeReturnRecord_builtFor.
      * eapply makeReturnRecord_refundOf; exact Hm.
  - destruct (IH Hnd) as (refunds & Hpool & Hret & -> & Hok).
    exists refunds. repeat split; try assumption.
    rewrite <- Permutation_middle. now constructor.
Qed.

(** Every run has a ledger. *)
Lemma joinOrders_ledger (caller : Caller) (result : JoinResult)
  (caller' : Caller) :
  joinOrders caller = Ok (result, caller') ->
  exists rounds refunds, ledger caller result caller' rounds refunds.
Proof.
  intros Hrun. apply joinOrders_result in Hrun.
  destruct Hrun as (orders1 & st1 & returns2 & pool2 & records2 &
                    Hfirst & Hsecond & -> & ->).
  unfold ledger.
  cbn [resultJoinedRecords remainingMintTransactions remainingAmazonOrders
       remainingAmazonReturns callerReturns].
  apply (@forMatchers_rounds (ledgerSoFar caller)
           (@ledgerSoFar_round caller) (@ledgerSoFar_remove caller))
    in Hfirst; [|apply ledgerSoFar_initially].
  destruct Hfirst as (rounds & Hnd & Htx & _ & Hship & Hret & Hrecs & Hrounds).
  destruct (forReturns_spec (giftCards st1) (amazonReturns st1) []
              (mintTransactions st1) (joinedRecords st1))
    as (unmatched & pool' & news & Heq & Hrel).
  rewrite Hsecond in Heq. injection Heq as -> -> ->.
  destruct (ReturnsMatched_ledger Hrel Hnd)
    as (refunds & Hpool & Hret2 & -> & Hok).
  exists rounds, refunds. cbn [app]. repeat split; try assumption.
  - rewrite <- Htx. apply Permutation_app_head. exact Hpool.
  - rewrite allShipments_plain. exact Hship.
  - rewrite sort_perm, Hrecs. reflexivity.
Qed.







(** ** The dates of the sorted output *)

(** C10: the joinedRecords list returned by joinOrders is sorted in
    non-decreasing order of each record's orderDate field; in that field a
    record of the first pass holds the orderDate of its order, and a record
    of the return pass holds the returnDate of its return. *)
Theorem joinOrders_sorted_by_date (caller : Caller) (result : JoinResult)
  (caller' : Caller) :
  joinOrders caller = Ok (result, caller') ->
  sortedByDate (resultJoinedRecords result) /\
  exists rounds refunds,
    ledger caller result caller' rounds refunds /\
    Forall (fun m =>
              Forall (fun r => JoinedRecord.orderDate r
                               = Order.orderDate (Round.order m))
                     (Round.records m))
           rounds /\
    Forall (fun f => JoinedRecord.orderDate (Refund.record f)
                     = Return.returnDate (Refund.refunded f))
           refunds.
Proof.
  intros Hrun. split.
  - apply joinOrders_result in Hrun.
    destruct Hrun as (? & ? & ? & ? & records & _ & _ & -> & _).
    apply sort_earlierRecord_sorted.
  - destruct (@joinOrders_ledger caller result caller' Hrun)
      as (rounds & refunds & Hledger).
    exists rounds, refunds. split; [exact Hledger|].
    destruct Hledger as (_ & _ & _ & _ & _ & Hrounds & Hrefunds). split.
    + revert Hrounds. apply Forall_impl.
      intros m (_ & _ & _ & _ & Hall & _).
      induction Hall as [|t r ts rs (_ & _ & Hdate & _) _ IH];
        constructor; assumption.
    + revert Hrefunds. apply Forall_impl.
      now intros f (_ & _ & Hdate & _).
Qed.

Lemma joinOrders_sorted_by_date_witness :
  exists result caller',
    joinOrders Sample.busyRun = Ok (result, caller') /\
    map JoinedRecord.mintTransactionId (resultJoinedRecords result)
    = ["t1"; "t2"; "t3"; "t5"; "t6"]%string /\
    map JoinedRecord.orderDate (resultJoinedRecords result)
    = [0; Sample.day; 4 * Sample.day; 20 * Sample.day; 20 * Sample.day] /\
    sortedByDate (resultJoinedRecords result) /\
    exists rounds refunds,
      ledger Sample.busyRun result caller' rounds refunds /\
      Forall (fun m =>
                Forall (fun r => JoinedRecord.orderDate r
                                 = Order.orderDate (Round.order m))
                       (Round.records m))
             rounds /\
      Forall (fun f => JoinedRecord.orderDate (Refund.record f)
                       = Return.returnDate (Refund.refunded f))
             refunds.
Proof.
  destruct (joinOrders Sample.busyRun) as [[result caller']| |] eqn:Hrun;
    try (vm_compute in Hrun; discriminate Hrun).
  exists result, caller'. split; [reflexivity|].
  pose proof (@joinOrders_sorted_by_date Sample.busyRun result caller' Hrun)
    as Hsorted.
  vm_compute in Hrun. injection Hrun as <- <-.
  do 2 (split; [reflexivity|]).
  exact Hsorted.
Defined.

(** ** Completeness of the subset generator up to 30 elements *)

Lemma filterFrom_shift (T : Type) (p : Z -> bool) (array : list T) (j : Z) :
  filterFrom p (j + 1) array = filterFrom (fun k => p (k + 1)) j array.
Proof.
  revert j. induction array as [|e rest IH]; intros j; cbn.
  - reflexivity.
  - now rewrite IH.
Qed.

Lemma subsetOfMask_even (T : Type) (m : Z) (x : T) (l : list T) :
  subsetOfMask (2 * m) (x :: l) = subsetOfMask m l.
Proof.
  unfold subsetOfMask, filteri. cbn [filterFrom].
  rewrite Z.testbit_even_0.
  change (0 + 1) with (0 + 1). rewrite filterFrom_shift.
  apply filterFrom_ext. intros k Hk. apply Z.testbit_even_succ. lia.
Qed.

Lemma subsetOfMask_odd (T : Type) (m : Z) (x : T) (l : list T) :
  subsetOfMask (2 * m + 1) (x :: l) = x :: subsetOfMask m l.
Proof.
  unfold subsetOfMask, filteri. cbn [filterFrom].
  rewrite Z.testbit_odd_0. f_equal.
  rewrite filterFrom_shift.
  apply filterFrom_ext. intros k Hk. apply Z.testbit_odd_succ. lia.
Qed.

(** Every subsequence is the subset of some mask. *)
Lemma subseq_mask (T : Type) (c l : list T) :
  subseq c l ->
  exists m, 0 <= m < 2 ^ Z.of_nat (length l) /\ subsetOfMask m l = c /\
            (c <> [] -> 1 <= m).
Proof.
  induction 1 as [|x c l _ (m & Hm & Hc & Hpos)|x c l _ (m & Hm & Hc & Hpos)].
  - exists 0. cbn. repeat split; try lia. intros H. now contradiction H.
  - exists (2 * m). cbn [length]. rewrite Nat2Z.inj_succ, Z.pow_succ_r by lia.
    split; [lia|]. split; [now rewrite subsetOfMask_even|].
    intros Hne. specialize (Hpos Hne). lia.
  - exists (2 * m + 1). cbn [length].
    rewrite Nat2Z.inj_succ, Z.pow_succ_r by lia.
    split; [lia|]. split; [now rewrite subsetOfMask_odd, Hc|].
    intros _. lia.
Qed.

Lemma combinations_complete (T : Type) (l : list T) (all : list (list T))
  (c : list T) :
  (length l <= 30)%nat -> combinations l = Ok all ->
  subseq c l -> c <> [] -> In c all.
Proof.
  intros Hn Hall Hsub Hne.
  rewrite combinations_masks in Hall by assumption. injection Hall as <-.
  destruct (subseq_mask Hsub) as (m & Hm & <- & Hpos).
  specialize (Hpos Hne).
  apply in_map_iff. exists (Z.to_nat (m - 1)). split.
  - f_equal. lia.
  - apply in_seq. lia.
Qed.

Lemma combinations_ok (T : Type) (l : list T) :
  (length l <= 30)%nat -> exists all, combinations l = Ok all.
Proof. intros Hn. eexists. now apply combinations_masks. Qed.

(** ** More on subsequences *)





(** ** Strategies that find nothing *)

Lemma map_filter_val (A B : Type) (f : A -> B) (p : B -> bool) (l : list A) :
  map f (filter (fun x => p (f x)) l) = filter p (map f l).
Proof.
  induction l as [|x rest IH]; cbn.
  - reflexivity.
  - destruct (p (f x)); cbn; now rewrite IH.
Qed.

Lemma debitsInWindow_val (o : WorkingOrder) (pool : list (Obj Transaction.t)) :
  map (@val _) (debitsInWindow o pool)
  = debitsOf (Order.orderDate o) (map (@val _) pool).
Proof.
  unfold debitsInWindow, debitsOf.
  rewrite <- !map_filter_val. reflexivity.
Qed.

Lemma filter_nil_iff (A : Type) (p : A -> bool) (l : list A) :
  filter p l = [] <-> forall x, In x l -> p x = false.
Proof.
  induction l as [|x rest IH]; cbn.
  - split; [intros _ y [] | reflexivity].
  - destruct (p x) eqn:Hp.
    + split; [discriminate|]. intros H.
      specialize (H x (or_introl eq_refl)). congruence.
    + rewrite IH. split.
      * intros H y [<-|Hy]; [assumption | now apply H].
      * intros H y Hy. apply H. now right.
Qed.

Lemma sort_nil_iff (A : Type) (before : A -> A -> bool) (l : list A) :
  sort before l = [] <-> l = [].
Proof.
  split.
  - intros H. apply length_zero_iff_nil.
    rewrite <- (sort_length before), H. reflexivity.
  - intros ->. reflexivity.
Qed.

Lemma debitsInWindow_length (o : WorkingOrder)
  (pool : list (Obj Transaction.t)) :
  (length (debitsInWindow o pool) <= length pool)%nat.
Proof. apply subseq_length, debitsInWindow_subseq. Qed.

Lemma getTotalAmount_val (c : list (Obj Transaction.t)) :
  getTotalAmount txAmount c
  = getTotalAmount Transaction.amount (map (@val _) c).
Proof. unfold getTotalAmount. now rewrite sumAmounts_map. Qed.


(** A strategy that has nothing to find returns nothing and has no side
    effect. *)
Lemma runMatcher_quiet (matcher : Matcher) (shipments : list (Obj Shipment.t))
  (amount : Q) (o : WorkingOrder) (returns : list Return.t)
  (pool : list (Obj Transaction.t)) :
  (length pool <= 30)%nat ->
  noMatch matcher amount (Order.orderDate o) (Order.usedGiftCard o)
          (map (@val _) pool) ->
  runMatcher matcher shipments amount o returns pool
  = Ok ([], shipments, returns).
Proof.
  intros Hsize.
  destruct matcher; cbn [noMatch runMatcher];
    rewrite <- debitsInWindow_val; intros Hno.
  - unfold getExactMatches.
    replace (filter _ (debitsInWindow o pool)) with (@nil (Obj Transaction.t)).
    + reflexivity.
    + symmetry. apply filter_nil_iff. intros t Ht.
      apply Hno. now apply in_map.
  - unfold getCombinationMatches.
    destruct (@combinations_ok _
                (sort (closerTo (Order.orderDate o)) (debitsInWindow o pool)))
      as [all Hall].
    { rewrite sort_length. pose proof (debitsInWindow_length o pool). lia. }
    rewrite Hall. cbn [bind].
    replace (find _ _) with (@None (list (Obj Transaction.t)));
      [reflexivity|].
    symmetry. apply find_none_iff. intros c Hc.
    apply filter_In in Hc. destruct Hc as [Hc Hlen].
    apply Nat.leb_le in Hlen.
    apply combinations_subseq in Hall. rewrite Forall_forall in Hall.
    rewrite getTotalAmount_val. apply Hno; [|now rewrite length_map].
    eapply partOf_trans.
    + apply partOf_subseq, subseq_map, Hall, Hc.
    + apply partOf_of_perm, Permutation_map, sort_perm.
  - unfold getGiftCardMatches.
    destruct Hno as [->|Hno]; [reflexivity|].
    destruct (Order.usedGiftCard o); [|reflexivity]. cbn [negb].
    replace (filter _ (debitsInWindow o pool)) with (@nil (Obj Transaction.t)).
    + reflexivity.
    + symmetry. apply filter_nil_iff. intros t Ht.
      apply Hno. now apply in_map.
Qed.


(** ** What a run leaves has nothing more to match *)





Lemma MatchStep_pool (o : WorkingOrder) (st : State) (o1 : WorkingOrder)
  (st1 : State) :
  MatchStep o st o1 st1 ->
  subseq (mintTransactions st1) (mintTransactions st).
Proof.
  intros [shipments matches s1 news _ _ _ _ _ _ -> _ _ _].
  apply removeItems_subseq.
Qed.





Lemma getTotalAmount_shipments (c : list (Obj Shipment.t)) :
  getTotalAmount shipmentAmount c
  = getTotalAmount Shipment.amount (map (@val _) c).
Proof. unfold getTotalAmount. now rewrite sumAmounts_map. Qed.





Lemma tagFrom_length (A : Type) (l : list A) (k : nat) :
  length (tagFrom k l) = length l.
Proof.
  rewrite <- (length_map (@ref A)), tagFrom_ref. apply length_seq.
Qed.


(** The returns the return pass leaves match no transaction it leaves. *)
Lemma ReturnsMatched_unmatched (giftCards : list GiftCard.t)
  (todo : list Return.t) (pool : list (Obj Transaction.t))
  (unmatched : list Return.t) (pool' : list (Obj Transaction.t))
  (news : list JoinedRecord.t) :
  ReturnsMatched giftCards todo pool unmatched pool' news ->
  forall ret tx, In ret unmatched -> In tx pool' ->
    amountsMatch (txAmount tx) (Return.amount ret) = false.
Proof.
  induction 1 as [pool| ret1 rest1 pool1 tx1 gc1 unmatched1 pool1' news1 _ _ IH
                 | ret0 rest pool unmatched pool' news Hfind Hrel IH];
    intros r tx Hr Htx.
  - destruct Hr.
  - now apply IH.
  - destruct Hr as [<-|Hr]; [|now apply IH].
    apply ReturnsMatched_pool in Hrel.
    pose proof (proj1 (findReturnTransaction_none giftCards ret0 pool) Hfind
                  tx (@subseq_In _ _ _ tx Hrel Htx)) as Hnone.
    unfold returnMatches in Hnone.
    destruct (find _ giftCards); [discriminate|].
    destruct (amountsMatch _ _); [discriminate | reflexivity].
Qed.

(** ** The second run *)

Lemma forShipmentCombinations_quiet (matcher : Matcher) (o : WorkingOrder)
  (st : State) (combos : list (list (Obj Shipment.t))) :
  (forall c, In c combos ->
     runMatcher matcher c (getTotalAmount shipmentAmount c) o
                (amazonReturns st) (mintTransactions st)
     = Ok ([], c, amazonReturns st)) ->
  forShipmentCombinations matcher o st combos = Ok None.
Proof.
  induction combos as [|shipments rest IH]; intros H;
    cbn [forShipmentCombinations].
  - reflexivity.
  - rewrite (H shipments (or_introl eq_refl)). cbn [bind length Nat.ltb
                                                     Nat.leb].
    apply IH. intros c Hc. apply H. now right.
Qed.

Lemma whileDirty_quiet (matcher : Matcher) (fuel : nat) (o : WorkingOrder)
  (removed : bool) (st : State) :
  (length (mintTransactions st) <= 30)%nat ->
  (length (Order.shipments o) <= 30)%nat ->
  quietOrder matcher o (mintTransactions st) ->
  whileDirty (S fuel) matcher o removed st = Ok (o, removed, st).
Proof.
  intros Hpool Hn Hquiet. cbn [whileDirty].
  destruct (combinations_ok (Order.shipments o) Hn) as [all Hall].
  rewrite Hall. cbn [bind].
  rewrite forShipmentCombinations_quiet; [reflexivity|].
  intros c Hc.
  pose proof (combinations_rev_facts o Hall) as Hfacts.
  rewrite Forall_forall in Hfacts. destruct (Hfacts c Hc) as [Hsub Hne].
  apply runMatcher_quiet; [assumption|].
  rewrite getTotalAmount_shipments.
  apply Hquiet.
  - now apply subseq_map.
  - intros Hnil. apply map_eq_nil in Hnil. contradiction.
Qed.

Lemma forOrders_quiet (matcher : Matcher) (todo : list WorkingOrder) :
  forall kept st,
    (length (mintTransactions st) <= 30)%nat ->
    (forall o, In o todo ->
               (length (Order.shipments o) <= 30)%nat /\
               quietOrder matcher o (mintTransactions st)) ->
    forOrders matcher kept todo st = Ok (kept ++ todo, st).
Proof.
  induction todo as [|o rest IH]; intros kept st Hpool Hquiet;
    cbn [forOrders].
  - now rewrite app_nil_r.
  - destruct (Hquiet o (or_introl eq_refl)) as [Hn Ho].
    rewrite whileDirty_quiet by assumption. cbn [bind].
    rewrite IH; [now rewrite <- app_assoc | assumption |].
    intros x Hx. apply Hquiet. now right.
Qed.

Lemma forMatchers_quiet (done matchers : list Matcher)
  (orders : list WorkingOrder) (st : State) :
  settled done orders st ->
  (forall m, In m matchers -> In m done) ->
  forMatchers matchers orders st = Ok (orders, st).
Proof.
  intros (Hpool & Hsizes & Hquiet).
  induction matchers as [|matcher rest IH]; intros Hincl; cbn [forMatchers].
  - reflexivity.
  - rewrite forOrders_quiet; [cbn [bind app]|assumption|].
    + apply IH. intros m Hm. apply Hincl. now right.
    + intros o Ho. split.
      * rewrite Forall_forall in Hsizes. now apply Hsizes.
      * apply Hquiet; [|assumption]. apply Hincl. now left.
Qed.

Lemma forReturns_quiet (todo : list Return.t) :
  forall kept pool records,
    (forall ret tx, In ret todo -> In tx pool ->
       amountsMatch (txAmount tx) (Return.amount ret) = false) ->
    forReturns [] kept todo pool records = (kept ++ todo, pool, records).
Proof.
  induction todo as [|ret rest IH]; intros kept pool records H;
    cbn [forReturns].
  - now rewrite app_nil_r.
  - replace (findReturnTransaction [] ret pool)
      with (@None (Obj Transaction.t * option GiftCard.t)).
    + rewrite IH; [now rewrite <- app_assoc|].
      intros r tx Hr. apply H. now right.
    + symmetry. apply findReturnTransaction_none. intros tx Htx.
      unfold returnMatches. cbn [find].
      now rewrite (H ret tx (or_introl eq_refl) Htx).
Qed.

Lemma plain_clone (o : AmazonOrder) : plainOrder (cloneOrder o) = o.
Proof.
  destruct o as [orderId orderDate usedGiftCard shipments].
  unfold plainOrder, cloneOrder. cbn. now rewrite tagFrom_val.
Qed.

Lemma map_plain_clone (orders : list AmazonOrder) :
  map plainOrder (map cloneOrder orders) = orders.
Proof.
  induction orders as [|o rest IH]; cbn.
  - reflexivity.
  - now rewrite plain_clone, IH.
Qed.






(** ** Runs that return *)

Lemma itemCount_subseq (s l : list Shipment.t) :
  subseq s l -> (itemCount s <= itemCount l)%nat.
Proof.
  unfold itemCount.
  induction 1 as [|x s l _ IH|x s l _ IH]; cbn; rewrite ?length_app; lia.
Qed.

Lemma smallPool_mono (returns' returns : list Return.t)
  (shipments' shipments : list Shipment.t) :
  subseq returns' returns -> subseq shipments' shipments ->
  smallPool returns shipments -> smallPool returns' shipments'.
Proof.
  intros Hr Hs [H1 Hall]. apply itemCount_subseq in Hs. split; [lia|].
  apply (subseq_Forall Hr) in Hall.
  revert Hall. apply Forall_impl. intros r Hle. lia.
Qed.

Lemma flattenItems_length (shipments : list (Obj Shipment.t)) :
  length (flattenItems shipments) = itemCount (map (@val _) shipments).
Proof.
  unfold flattenItems, itemCount. rewrite tagFrom_length.
  induction shipments as [|s rest IH]; cbn [flat_map map].
  - reflexivity.
  - rewrite !length_app, length_map, IH. reflexivity.
Qed.

Lemma pushedTo_count (returns : list Return.t) (amount : Q)
  (matches : list (Obj Transaction.t)) (shipments s1 : list (Obj Shipment.t)) :
  pushedTo returns amount matches shipments s1 ->
  smallPool returns (map (@val _) shipments) ->
  (itemCount (map (@val _) s1) <= 30)%nat.
Proof.
  intros [->|(first & others & new & -> & -> & Hnew)] [H1 Hall]; [lia|].
  assert (Hcount : itemCount (map (@val _) (pushItems first new :: others))
                   = (itemCount (map (@val _) (first :: others))
                      + length new)%nat).
  { unfold itemCount. cbn. rewrite !length_app. lia. }
  rewrite Hcount.
  destruct Hnew as [(r & Hr & ->)|(t & _ & ->)].
  - rewrite Forall_forall in Hall. specialize (Hall r Hr).
    rewrite length_map. exact Hall.
  - cbn [length]. exact H1.
Qed.

Lemma sizesOK_match (kept : list WorkingOrder) (o : WorkingOrder)
  (rest : list WorkingOrder) (st : State) (o1 : WorkingOrder) (st1 : State) :
  sizesOK (kept ++ o :: rest) st -> MatchStep o st o1 st1 ->
  sizesOK (kept ++ o1 :: rest) st1.
Proof.
  intros [Hpool Horders] Hstep.
  pose proof (MatchStep_pool Hstep) as Hsub. apply subseq_length in Hsub.
  destruct Hstep as [shipments matches s1 news _ _ _ _ _ Hret _ _ _ ->].
  split; [lia|].
  apply Forall_app in Horders. destruct Horders as [Hkept Hrest].
  inversion Hrest as [|? ? [Hn Ho] Hrest']; subst.
  assert (Hweaken : forall l : list WorkingOrder,
             Forall (fun x : WorkingOrder =>
                       (length (Order.shipments x) <= 30)%nat /\
                       smallPool (amazonReturns st)
                                 (map (@val _) (Order.shipments x))) l ->
             Forall (fun x : WorkingOrder =>
                       (length (Order.shipments x) <= 30)%nat /\
                       smallPool (amazonReturns st1)
                                 (map (@val _) (Order.shipments x))) l).
  { intros l. apply Forall_impl. intros x [Hx1 Hx2]. split; [assumption|].
    eapply smallPool_mono; [exact Hret | apply subseq_refl | exact Hx2]. }
  apply Forall_app. split; [now apply Hweaken|].
  constructor; [|now apply Hweaken].
  cbn [setShipments Order.shipments].
  pose proof (removeItems_subseq s1 (Order.shipments o)) as Hshrink.
  split.
  - apply subseq_length in Hshrink. lia.
  - eapply smallPool_mono; [exact Hret | | exact Ho].
    now apply subseq_map.
Qed.

Lemma sizesOK_remove (kept : list WorkingOrder) (o : WorkingOrder)
  (rest : list WorkingOrder) (st : State) :
  sizesOK (kept ++ o :: rest) st -> sizesOK (kept ++ rest) st.
Proof.
  intros [Hpool Horders]. split; [assumption|].
  apply Forall_app in Horders. destruct Horders as [Hkept Hrest].
  apply Forall_app. split; [assumption | now inversion Hrest].
Qed.

Lemma runMatcher_ok (matcher : Matcher) (shipments : list (Obj Shipment.t))
  (amount : Q) (o : WorkingOrder) (returns : list Return.t)
  (pool : list (Obj Transaction.t)) :
  (length pool <= 30)%nat -> shipments <> [] ->
  exists result, runMatcher matcher shipments amount o returns pool
                 = Ok result.
Proof.
  intros Hpool Hne. destruct matcher; cbn [runMatcher].
  - now eexists.
  - unfold getCombinationMatches.
    destruct (@combinations_ok _
                (sort (closerTo (Order.orderDate o)) (debitsInWindow o pool)))
      as [all ->].
    { rewrite sort_length. pose proof (debitsInWindow_length o pool). lia. }
    now eexists.
  - unfold getGiftCardMatches.
    destruct (negb _); [now eexists|].
    destruct (sort _ _); [now eexists|].
    destruct shipments; [contradiction|].
    destruct (find _ _); now eexists.
Qed.

Lemma allocateItems_ok (items : list (Obj JoinedRecordItem.t))
  (matchAmount : Q) :
  (length items <= 30)%nat ->
  exists result, allocateItems items matchAmount = Ok result.
Proof.
  intros Hn. unfold allocateItems, exactSubsetScan.
  destruct (@combinations_ok _ items Hn) as [all ->]. cbn [bind].
  destruct (fold_left _ all ([], items)) as [matchItems items1].
  destruct (_ =? _)%nat; [|now eexists].
  destruct (splitAcross _ _ _) as [[? ?] ?].
  destruct (negb _); now eexists.
Qed.

Lemma forMatches_ok (o : WorkingOrder) (matches : list (Obj Transaction.t)) :
  forall items st,
    (length items <= 30)%nat ->
    exists result, forMatches o matches items st = Ok result.
Proof.
  induction matches as [|m rest IH]; intros items st Hn; cbn [forMatches].
  - now eexists.
  - destruct (@allocateItems_ok items (txAmount m) Hn) as [[a items1] Halloc].
    rewrite Halloc. cbn [bind]. apply IH.
    apply allocateItems_subseq, subseq_length in Halloc. lia.
Qed.

Lemma forShipmentCombinations_ok (matcher : Matcher) (o : WorkingOrder)
  (st : State) (combos : list (list (Obj Shipment.t))) :
  (length (mintTransactions st) <= 30)%nat ->
  smallPool (amazonReturns st) (map (@val _) (Order.shipments o)) ->
  Forall (fun c => subseq c (Order.shipments o) /\ c <> []) combos ->
  exists found, forShipmentCombinations matcher o st combos = Ok found.
Proof.
  intros Hpool Hsmall.
  induction 1 as [|shipments rest [Hsub Hne] _ IH];
    cbn [forShipmentCombinations]; [now eexists|].
  destruct (@runMatcher_ok matcher shipments
              (getTotalAmount shipmentAmount shipments) o (amazonReturns st)
              (mintTransactions st) Hpool Hne) as [[[matches s1] r1] Hrun].
  rewrite Hrun. cbn [bind].
  destruct (0 <? length matches)%nat; [|exact IH].
  apply runMatcher_result in Hrun. destruct Hrun as (_ & _ & Hpush & _).
  destruct (@forMatches_ok o matches (flattenItems s1)
              (mkState (mintTransactions st) r1 (joinedRecords st)
                       (giftCards st))) as [[items' st'] ->].
  { rewrite flattenItems_length.
    eapply pushedTo_count; [exact Hpush|].
    eapply smallPool_mono; [apply subseq_refl | | exact Hsmall].
    now apply subseq_map. }
  now eexists.
Qed.

Lemma whileDirty_ok (matcher : Matcher) (kept rest : list WorkingOrder)
  (fuel : nat) :
  forall o removed st,
    (length (Order.shipments o) < fuel)%nat ->
    sizesOK (kept ++ o :: rest) st ->
    exists result, whileDirty fuel matcher o removed st = Ok result.
Proof.
  induction fuel as [|fuel IH]; intros o removed st Hfuel Hsizes; [lia|].
  cbn [whileDirty].
  assert (Ho : (length (Order.shipments o) <= 30)%nat /\
               smallPool (amazonReturns st)
                         (map (@val _) (Order.shipments o))).
  { destruct Hsizes as [_ Horders]. apply Forall_app in Horders.
    destruct Horders as [_ Hrest]. now inversion Hrest. }
  destruct Ho as [Hn Hsmall].
  destruct (@combinations_ok _ (Order.shipments o) Hn) as [all Hall].
  rewrite Hall. cbn [bind].
  destruct (@forShipmentCombinations_ok matcher o st (rev all)
              (proj1 Hsizes) Hsmall (combinations_rev_facts o Hall))
    as [[[o1 st1]|] Hfor]; rewrite Hfor; cbn [bind]; [|now eexists].
  apply forShipmentCombinations_step in Hfor;
    [|now apply combinations_rev_facts].
  apply IH.
  - apply MatchStep_shrinks in Hfor. lia.
  - eapply sizesOK_match; eassumption.
Qed.

Lemma forOrders_ok (matcher : Matcher) (todo : list WorkingOrder) :
  forall kept st,
    sizesOK (kept ++ todo) st ->
    exists result, forOrders matcher kept todo st = Ok result.
Proof.
  induction todo as [|o rest IH]; intros kept st Hsizes; cbn [forOrders].
  - now eexists.
  - destruct (@whileDirty_ok matcher kept rest
                (S (length (Order.shipments o))) o false st
                (Nat.lt_succ_diag_r _) Hsizes)
      as [[[o1 removed] st1] Hwhile].
    rewrite Hwhile. cbn [bind].
    apply (@whileDirty_invariant sizesOK sizesOK_match matcher kept rest)
      in Hwhile; [|exact Hsizes].
    destruct Hwhile as [Hsizes1 _].
    destruct removed; apply IH.
    + eapply sizesOK_remove; eassumption.
    + now rewrite <- app_assoc.
Qed.

Lemma forMatchers_ok (matchers : list Matcher) :
  forall orders st,
    sizesOK orders st ->
    exists result, forMatchers matchers orders st = Ok result.
Proof.
  induction matchers as [|matcher rest IH]; intros orders st Hsizes;
    cbn [forMatchers].
  - now eexists.
  - destruct (@forOrders_ok matcher orders [] st Hsizes)
      as [[orders1 st1] Hfor].
    rewrite Hfor. cbn [bind]. apply IH.
    apply (@forOrders_invariant sizesOK sizesOK_match
             (fun k o r s H _ => @sizesOK_remove k o r s H))
      in Hfor; assumption.
Qed.

(** X25: on an input of at most 30 transactions and at most 30 shipments
    per order, in which the items of an order, with one more item or with
    the items of any one return, are at most 30, [joinOrders] returns: no
    subset enumeration throws. *)
Theorem joinOrders_returns (caller : Caller) :
  smallPools caller ->
  exists result caller', joinOrders caller = Ok (result, caller').
Proof.
  intros [[Htx Hships] Hpools]. unfold joinOrders.
  destruct (@forMatchers_ok
              [ExactMatcher; CombinationMatcher; GiftCardMatcher]
              (sort largerTotal (map cloneOrder (callerOrders caller)))
              (mkState (tagFrom 0 (callerTransactions caller))
                       (callerReturns caller) [] []))
    as [[orders1 st1] ->].
  - split; cbn [mintTransactions amazonReturns].
    + now rewrite tagFrom_length.
    + eapply Permutation_Forall; [symmetry; apply sort_perm|].
      apply Forall_map. rewrite Forall_forall in *. intros o Ho.
      cbn [cloneOrder Order.shipments].
      rewrite tagFrom_length, tagFrom_val. split; auto.
  - cbn [bind]. destruct (forReturns _ _ _ _ _) as [[? ?] ?].
    now do 2 eexists.
Qed.

Lemma datedRun_small : smallPools Sample.datedRun.
Proof. repeat split; repeat constructor; cbn; lia. Defined.

Lemma joinOrders_returns_witness :
  smallPools Sample.datedRun /\
  exists result caller', joinOrders Sample.datedRun = Ok (result, caller').
Proof.
  split; [exact datedRun_small|].
  exact (@joinOrders_returns Sample.datedRun datedRun_small).
Defined.

(** ** Finding an object and changing it *)

Section UpdateFirst.
Variable A : Type.
Variable p : A -> bool.
Variable f : A -> A.

Lemma find_app_none (l1 l2 : list A) :
  find p l1 = None -> find p (l1 ++ l2) = find p l2.
Proof.
  induction l1 as [|x rest IH]; cbn; [reflexivity|].
  destruct (p x); [discriminate|exact IH].
Qed.

Lemma find_app_some (l1 l2 : list A) (x : A) :
  find p l1 = Some x -> find p (l1 ++ l2) = Some x.
Proof.
  induction l1 as [|y rest IH]; cbn; [discriminate|].
  destruct (p y); [trivial|exact IH].
Qed.

Lemma find_split (l : list A) (x : A) :
  find p l = Some x ->
  exists l1 l2, l = l1 ++ x :: l2 /\ find p l1 = None /\ p x = true.
Proof.
  induction l as [|y rest IH]; cbn; [discriminate|].
  destruct (p y) eqn:Hy.
  - intros [= ->]. now exists [], rest.
  - intros Hx. destruct (IH Hx) as (l1 & l2 & -> & Hnone & Hp).
    exists (y :: l1), l2. cbn. rewrite Hy. auto.
Qed.

Lemma updateFirst_at (l1 l2 : list A) (x : A) :
  find p l1 = None -> p x = true ->
  updateFirst p f (l1 ++ x :: l2) = l1 ++ f x :: l2.
Proof.
  intros Hnone Hp. induction l1 as [|y rest IH]; cbn in *.
  - now rewrite Hp.
  - destruct (p y); [discriminate|]. now rewrite IH.
Qed.

Lemma updateFirst_length (l : list A) :
  length (updateFirst p f l) = length l.
Proof.
  induction l as [|x rest IH]; cbn; [reflexivity|].
  destruct (p x); cbn; congruence.
Qed.
End UpdateFirst.

(** ** getOrders: the orders made of the rows *)

Lemma hasOrderId_eq (id : string) (o : AmazonOrder) :
  hasOrderId id o = true <-> Order.orderId o = id.
Proof. apply String.eqb_eq. Qed.

Lemma hasTrackingId_eq (id : string) (s : Shipment.t) :
  hasTrackingId id s = true <-> Shipment.trackingId s = id.
Proof. apply String.eqb_eq. Qed.

(** The two ways [addToOrder] changes the shipments of an order. *)
Lemma addToOrder_cases (flatItem : FlatItem.t) (order : AmazonOrder) :
  (exists l1 s l2,
      Order.shipments order = l1 ++ s :: l2 /\
      find (hasTrackingId (FlatItem.trackingId flatItem)) l1 = None /\
      Shipment.trackingId s = FlatItem.trackingId flatItem /\
      Order.shipments (addToOrder flatItem order)
      = l1 ++ addItem flatItem s :: l2) \/
  (find (hasTrackingId (FlatItem.trackingId flatItem))
        (Order.shipments order) = None /\
   Order.shipments (addToOrder flatItem order)
   = Order.shipments order
     ++ [addItem flatItem (newShipment flatItem)]).
Proof.
  unfold addToOrder. cbn [Order.shipments].
  destruct (find _ (Order.shipments order)) as [s|] eqn:Hfind.
  - left. destruct (find_split _ _ Hfind) as (l1 & l2 & Heq & Hnone & Hp).
    exists l1, s, l2. rewrite Heq at 2.
    rewrite updateFirst_at by assumption.
    repeat split; try assumption. now apply hasTrackingId_eq.
  - right. split; [reflexivity|].
    rewrite updateFirst_at; [reflexivity|assumption|].
    apply String.eqb_refl.
Qed.

(** The two ways [addFlatItem] changes the orders. *)
Lemma addFlatItem_cases (orders : list AmazonOrder) (flatItem : FlatItem.t) :
  (exists l1 o l2,
      orders = l1 ++ o :: l2 /\
      find (hasOrderId (FlatItem.orderId flatItem)) l1 = None /\
      Order.orderId o = FlatItem.orderId flatItem /\
      addFlatItem orders flatItem = l1 ++ addToOrder flatItem o :: l2) \/
  (find (hasOrderId (FlatItem.orderId flatItem)) orders = None /\
   addFlatItem orders flatItem
   = orders ++ [addToOrder flatItem (newOrder flatItem)]).
Proof.
  unfold addFlatItem.
  destruct (find _ orders) as [o|] eqn:Hfind.
  - left. destruct (find_split _ _ Hfind) as (l1 & l2 & Heq & Hnone & Hp).
    exists l1, o, l2. rewrite Heq at 2.
    rewrite updateFirst_at by assumption.
    repeat split; try assumption. now apply hasOrderId_eq.
  - right. split; [reflexivity|].
    rewrite updateFirst_at; [reflexivity|assumption|].
    apply String.eqb_refl.
Qed.

(** An invariant of the [reduce] of [getOrders]: [P orders done] relates
    the orders to the rows taken so far. *)
Lemma addFlatItem_invariant
  (P : list AmazonOrder -> list FlatItem.t -> Prop) :
  P [] [] ->
  (forall orders done flatItem,
      P orders done -> P (addFlatItem orders flatItem) (done ++ [flatItem])) ->
  forall records, P (fold_left addFlatItem records []) records.
Proof.
  intros Hnil Hstep records.
  induction records as [|flatItem done IH] using rev_ind.
  - exact Hnil.
  - rewrite fold_left_app. cbn [fold_left]. now apply Hstep.
Qed.

Lemma addItem_balanced (flatItem : FlatItem.t) (s : Shipment.t) :
  (Shipment.amount s == sumAmounts Item.amount (Shipment.items s))%Q ->
  shipmentBalanced (addItem flatItem s).
Proof.
  intros Hs. split; cbn [addItem Shipment.items Shipment.amount].
  - intros Hnil. now apply app_eq_nil in Hnil as [_ Hnil].
  - rewrite sumAmounts_app, sumAmounts_cons, Hs.
    unfold sumAmounts at 3. cbn. ring.
Qed.

Lemma addToOrder_balanced (flatItem : FlatItem.t) (order : AmazonOrder) :
  Forall shipmentBalanced (Order.shipments order) ->
  Order.shipments (addToOrder flatItem order) <> [] /\
  Forall shipmentBalanced (Order.shipments (addToOrder flatItem order)).
Proof.
  intros Hall.
  destruct (addToOrder_cases flatItem order)
    as [(l1 & s & l2 & Heq & _ & _ & ->)|(_ & ->)].
  - split; [now destruct l1|].
    rewrite Heq in Hall. apply Forall_app in Hall as [H1 H2].
    inversion H2 as [|? ? [_ Hs] H2']; subst.
    apply Forall_app. split; [assumption|].
    constructor; [now apply addItem_balanced|assumption].
  - split; [now destruct (Order.shipments order)|].
    apply Forall_app. split; [assumption|].
    constructor; [|constructor].
    apply addItem_balanced. reflexivity.
Qed.

Lemma fold_addFlatItem_balanced (records : list FlatItem.t) :
  Forall (fun o : AmazonOrder =>
            Order.shipments o <> [] /\
            Forall shipmentBalanced (Order.shipments o))
         (fold_left addFlatItem records []).
Proof.
  apply (@addFlatItem_invariant
           (fun orders _ =>
              Forall (fun o : AmazonOrder =>
                        Order.shipments o <> [] /\
                        Forall shipmentBalanced (Order.shipments o)) orders)).
  - constructor.
  - intros orders _ flatItem Hall.
    destruct (addFlatItem_cases orders flatItem)
      as [(l1 & o & l2 & -> & _ & _ & ->)|(_ & ->)].
    + apply Forall_app in Hall as [H1 H2].
      inversion H2 as [|? ? [_ Ho] H2']; subst.
      apply Forall_app. split; [assumption|].
      constructor; [now apply addToOrder_balanced|assumption].
    + apply Forall_app. split; [assumption|].
      constructor; [|constructor].
      apply addToOrder_balanced. constructor.
Qed.

Lemma Forall_filter (A : Type) (P : A -> Prop) (p : A -> bool) (l : list A) :
  Forall P l -> Forall P (filter p l).
Proof.
  intros Hl. apply Forall_forall. intros x Hx.
  apply filter_In in Hx as [Hx _].
  revert x Hx. now apply Forall_forall.
Qed.

Lemma Forall_sort (A : Type) (P : A -> Prop) (before : A -> A -> bool)
  (l : list A) : Forall P l -> Forall P (sort before l).
Proof.
  intros Hl. eapply Permutation_Forall; [symmetry; apply sort_perm|exact Hl].
Qed.

(** X1: every order that [getOrders] returns has a shipment, every
    shipment has an item, and the amount of a shipment is the sum of the
    amounts of its items. *)
Theorem getOrders_shipments_balanced (startDate : Date)
  (paths : list (list FlatItem.t)) :
  Forall (fun o : AmazonOrder =>
            Order.shipments o <> [] /\
            Forall shipmentBalanced (Order.shipments o))
         (getOrders startDate paths).
Proof.
  unfold getOrders. apply Forall_flat_map.
  apply Forall_forall. intros parsed _.
  unfold ordersOfPath.
  apply Forall_sort, Forall_filter, fold_addFlatItem_balanced.
Qed.

Lemma find_none_not_In (A : Type) (key : A -> string) (l : list A)
  (id : string) :
  find (fun x => String.eqb (key x) id) l = None -> ~ In id (map key l).
Proof.
  induction l as [|x rest IH]; cbn; [tauto|].
  destruct (String.eqb_spec (key x) id) as [|Hne]; [discriminate|].
  intros Hnone [Heq|Hin]; [contradiction|now apply IH].
Qed.

Lemma NoDup_snoc (A : Type) (l : list A) (x : A) :
  NoDup l -> ~ In x l -> NoDup (l ++ [x]).
Proof.
  intros Hl Hx.
  apply (Permutation_NoDup (l := x :: l)); [|now constructor].
  apply Permutation_cons_append.
Qed.

Lemma addToOrder_trackingIds (flatItem : FlatItem.t) (order : AmazonOrder) :
  NoDup (map Shipment.trackingId (Order.shipments order)) ->
  NoDup (map Shipment.trackingId (Order.shipments (addToOrder flatItem order))).
Proof.
  intros Hnd.
  destruct (addToOrder_cases flatItem order)
    as [(l1 & s & l2 & Heq & _ & _ & ->)|(Hnone & ->)].
  - rewrite Heq in Hnd. now rewrite map_app in *.
  - rewrite map_app. apply NoDup_snoc; [assumption|].
    now apply (find_none_not_In Shipment.trackingId).
Qed.

Lemma fold_addFlatItem_distinct (records : list FlatItem.t) :
  NoDup (map (@Order.orderId _) (fold_left addFlatItem records [])) /\
  Forall (fun o : AmazonOrder =>
            NoDup (map Shipment.trackingId (Order.shipments o)))
         (fold_left addFlatItem records []).
Proof.
  apply (@addFlatItem_invariant
           (fun orders _ =>
              NoDup (map (@Order.orderId _) orders) /\
              Forall (fun o : AmazonOrder =>
                        NoDup (map Shipment.trackingId (Order.shipments o)))
                     orders)).
  - split; constructor.
  - intros orders _ flatItem [Hids Hall].
    destruct (addFlatItem_cases orders flatItem)
      as [(l1 & o & l2 & -> & _ & _ & ->)|(Hnone & ->)].
    + split; [now rewrite map_app in *|].
      apply Forall_app in Hall as [H1 H2].
      inversion H2 as [|? ? Ho H2']; subst.
      apply Forall_app. split; [assumption|].
      constructor; [now apply addToOrder_trackingIds|assumption].
    + split.
      * rewrite map_app. apply NoDup_snoc; [assumption|].
        now apply (find_none_not_In (@Order.orderId Shipment.t)).
      * apply Forall_app. split; [assumption|].
        constructor; [|constructor].
        apply addToOrder_trackingIds. constructor.
Qed.

Lemma NoDup_map_filter (A B : Type) (key : A -> B) (p : A -> bool)
  (l : list A) : NoDup (map key l) -> NoDup (map key (filter p l)).
Proof.
  intros Hnd. eapply subseq_NoDup; [|exact Hnd].
  apply subseq_map, subseq_filter.
Qed.

Lemma sort_earlierOrder_sorted (orders : list AmazonOrder) :
  sortedByOrderDate (sort earlierOrder orders).
Proof.
  unfold sortedByOrderDate.
  apply StronglySorted_weaken with (R := notAfter earlierOrder).
  - intros a b. unfold notAfter.
    apply (Zkey_not_before (@Order.orderDate Shipment.t)).
  - apply sort_sorted.
    + apply (Zkey_asym (@Order.orderDate Shipment.t)).
    + apply (Zkey_negtrans (@Order.orderDate Shipment.t)).
Qed.

(** X2: the orders made of one order history come in non-decreasing order
    of [orderDate] and no two of them have the same [orderId]; within any
    order returned, no two shipments have the same [trackingId]. *)
Theorem getOrders_well_formed (startDate : Date)
  (parsed : list FlatItem.t) (paths : list (list FlatItem.t)) :
  sortedByOrderDate (getOrders startDate [parsed]) /\
  NoDup (map (@Order.orderId _) (getOrders startDate [parsed])) /\
  Forall (fun o : AmazonOrder =>
            NoDup (map Shipment.trackingId (Order.shipments o)))
         (getOrders startDate paths).
Proof.
  unfold getOrders. cbn [flat_map]. rewrite app_nil_r.
  split; [apply sort_earlierOrder_sorted|]. split.
  - unfold ordersOfPath.
    eapply Permutation_NoDup;
      [apply Permutation_map; symmetry; apply sort_perm|].
    apply NoDup_map_filter, fold_addFlatItem_distinct.
  - apply Forall_flat_map. apply Forall_forall. intros rows _.
    unfold ordersOfPath.
    apply Forall_sort, Forall_filter, fold_addFlatItem_distinct.
Qed.

Lemma Permutation_filter_same (A : Type) (p : A -> bool) (l1 l2 : list A) :
  Permutation l1 l2 -> Permutation (filter p l1) (filter p l2).
Proof.
  induction 1 as [|x l1 l2 _ IH|x y l|l1 l2 l3 _ IH1 _ IH2]; cbn.
  - constructor.
  - destruct (p x); [now constructor|assumption].
  - destruct (p x), (p y); try reflexivity. constructor.
  - now transitivity (filter p l2).
Qed.

Lemma map_filter_comm (A B : Type) (f : A -> B) (q : B -> bool)
  (l : list A) :
  map f (filter (fun x => q (f x)) l) = filter q (map f l).
Proof.
  induction l as [|x rest IH]; cbn; [reflexivity|].
  destruct (q (f x)); cbn; now rewrite IH.
Qed.

Lemma rowsOfOrder_orderId (order : AmazonOrder) :
  Forall (fun row : Row => fst (fst row) = Order.orderId order)
         (rowsOfOrder order).
Proof.
  unfold rowsOfOrder. apply Forall_flat_map.
  apply Forall_forall. intros s _. apply Forall_map.
  apply Forall_forall. now intros item _.
Qed.

Lemma filter_all (A : Type) (p : A -> bool) (l : list A) :
  Forall (fun x => p x = true) l -> filter p l = l.
Proof.
  induction 1 as [|x rest Hx _ IH]; cbn; [reflexivity|].
  now rewrite Hx, IH.
Qed.

Lemma filter_none (A : Type) (p : A -> bool) (l : list A) :
  Forall (fun x => p x = false) l -> filter p l = [].
Proof.
  induction 1 as [|x rest Hx _ IH]; cbn; [reflexivity|].
  now rewrite Hx, IH.
Qed.

(** Leaving out orders by their id leaves out their rows. *)
Lemma rowsOf_filter (q : string -> bool) (orders : list AmazonOrder) :
  rowsOf (filter (fun o : AmazonOrder => q (Order.orderId o)) orders)
  = filter (fun row : Row => q (fst (fst row))) (rowsOf orders).
Proof.
  induction orders as [|o rest IH]; [reflexivity|].
  change (rowsOf (o :: rest)) with (rowsOfOrder o ++ rowsOf rest).
  rewrite filter_app, <- IH.
  pose proof (rowsOfOrder_orderId o) as Hid.
  cbn [filter].
  destruct (q (Order.orderId o)) eqn:Hq.
  - change (rowsOf (o :: ?l)) with (rowsOfOrder o ++ rowsOf l).
    f_equal. symmetry. apply filter_all.
    revert Hid. apply Forall_impl. intros row ->. exact Hq.
  - rewrite (@filter_none _ _ (rowsOfOrder o)); [reflexivity|].
    revert Hid. apply Forall_impl. intros row ->. exact Hq.
Qed.

Lemma rowsOfOrder_addToOrder (flatItem : FlatItem.t) (order : AmazonOrder) :
  Order.orderId order = FlatItem.orderId flatItem ->
  Permutation (rowsOfOrder (addToOrder flatItem order))
              (rowsOfOrder order ++ [rowOf flatItem]).
Proof.
  intros Hid. unfold rowsOfOrder at 1 2.
  change (Order.orderId (addToOrder flatItem order))
    with (Order.orderId order).
  destruct (addToOrder_cases flatItem order)
    as [(l1 & s & l2 & -> & _ & Htid & ->)|(_ & ->)].
  - rewrite !flat_map_app. cbn [flat_map addItem Shipment.items
                                 Shipment.trackingId].
    rewrite map_app. cbn [map]. unfold rowOf. rewrite Hid, Htid.
    rewrite <- !app_assoc. apply Permutation_app_head.
    apply Permutation_app_head.
    cbn [app]. apply Permutation_cons_append.
  - rewrite flat_map_app. cbn. unfold rowOf. now rewrite Hid.
Qed.

Lemma rowsOf_addFlatItem (orders : list AmazonOrder) (flatItem : FlatItem.t) :
  Permutation (rowsOf (addFlatItem orders flatItem))
              (rowsOf orders ++ [rowOf flatItem]).
Proof.
  unfold rowsOf.
  destruct (addFlatItem_cases orders flatItem)
    as [(l1 & o & l2 & -> & _ & Hid & ->)|(_ & ->)].
  - rewrite !flat_map_app. cbn [flat_map].
    rewrite <- !app_assoc. apply Permutation_app_head.
    rewrite (rowsOfOrder_addToOrder flatItem o Hid).
    rewrite <- !app_assoc. apply Permutation_app_head.
    apply Permutation_app_comm.
  - rewrite flat_map_app. cbn [flat_map]. rewrite app_nil_r.
    apply Permutation_app_head.
    now rewrite (rowsOfOrder_addToOrder flatItem (newOrder flatItem)).
Qed.

Lemma rowsOf_fold (records : list FlatItem.t) :
  Permutation (rowsOf (fold_left addFlatItem records [])) (map rowOf records).
Proof.
  apply (@addFlatItem_invariant
           (fun orders done => Permutation (rowsOf orders) (map rowOf done))).
  - constructor.
  - intros orders done flatItem IH.
    rewrite rowsOf_addFlatItem, map_app. now apply Permutation_app_tail.
Qed.

Lemma rowsOf_ordersOfPath (startDate : Date) (parsed : list FlatItem.t) :
  Permutation (rowsOf (ordersOfPath startDate parsed))
              (map rowOf (usedRows startDate parsed)).
Proof.
  unfold ordersOfPath, usedRows.
  transitivity
    (rowsOf (filter (fun o : AmazonOrder => negb (isExcluded o))
               (fold_left addFlatItem (sinceStart startDate parsed) []))).
  - unfold rowsOf. apply Permutation_flat_map. apply sort_perm.
  - unfold isExcluded.
    rewrite (rowsOf_filter
               (fun id => negb (existsb (String.eqb id) EXCLUDED_ORDERS))).
    rewrite (map_filter_comm rowOf
               (fun row : Row =>
                  negb (existsb (String.eqb (fst (fst row)))
                                EXCLUDED_ORDERS))).
    apply Permutation_filter_same, rowsOf_fold.
Qed.

(** X3: the items of the orders that [getOrders] returns, with the ids of
    their orders and shipments, are the rows dated from [startDate] on
    whose order id is not excluded: none is lost, none is made up, none is
    taken twice. *)
Theorem getOrders_rows (startDate : Date) (paths : list (list FlatItem.t)) :
  Permutation (rowsOf (getOrders startDate paths))
              (map rowOf (flat_map (usedRows startDate) paths)).
Proof.
  unfold getOrders. induction paths as [|parsed rest IH]; cbn [flat_map].
  - constructor.
  - unfold rowsOf in *. rewrite flat_map_app, map_app.
    apply Permutation_app; [apply rowsOf_ordersOfPath|exact IH].
Qed.

Lemma find_none_key (A : Type) (key : A -> string) (l : list A)
  (id : string) :
  ~ In id (map key l) -> find (fun x => String.eqb (key x) id) l = None.
Proof.
  induction l as [|x rest IH]; cbn; [reflexivity|].
  intros Hnot. destruct (String.eqb_spec (key x) id) as [Heq|_].
  - contradiction Hnot. now left.
  - apply IH. tauto.
Qed.

Lemma fold_addFlatItem_heads (records : list FlatItem.t) :
  Forall (fun o : AmazonOrder =>
            exists flatItem,
              firstRowOf (Order.orderId o) records = Some flatItem /\
              headedBy flatItem o)
         (fold_left addFlatItem records []) /\
  Forall (fun record =>
            In (FlatItem.orderId record)
               (map (@Order.orderId _) (fold_left addFlatItem records [])))
         records.
Proof.
  apply (@addFlatItem_invariant
           (fun orders done =>
              Forall (fun o : AmazonOrder =>
                        exists flatItem,
                          firstRowOf (Order.orderId o) done = Some flatItem /\
                          headedBy flatItem o) orders /\
              Forall (fun record =>
                        In (FlatItem.orderId record)
                           (map (@Order.orderId _) orders)) done)).
  - split; constructor.
  - intros orders done flatItem [Hheads Hids].
    assert (Hkeep : forall o : AmazonOrder,
               (exists f, firstRowOf (Order.orderId o) done = Some f /\
                          headedBy f o) ->
               exists f, firstRowOf (Order.orderId o) (done ++ [flatItem])
                         = Some f /\ headedBy f o).
    { intros o (f & Hf & Hhead). exists f. split; [|assumption].
      now apply find_app_some. }
    destruct (addFlatItem_cases orders flatItem)
      as [(l1 & o & l2 & -> & _ & Hid & ->)|(Hnone & ->)].
    + split.
      * apply Forall_app in Hheads as [H1 H2].
        inversion H2 as [|? ? Ho H2']; subst.
        apply Forall_app. split; [revert H1; apply Forall_impl; exact Hkeep|].
        constructor; [|revert H2'; apply Forall_impl; exact Hkeep].
        apply (Hkeep o) in Ho. exact Ho.
      * apply Forall_app. split.
        -- revert Hids. apply Forall_impl. intros record.
           now rewrite !map_app.
        -- constructor; [|constructor].
           rewrite map_app. apply in_or_app. right. left. exact Hid.
    + split.
      * apply Forall_app. split;
          [revert Hheads; apply Forall_impl; exact Hkeep|].
        constructor; [|constructor].
        exists flatItem. split; [|now split].
        unfold firstRowOf. cbn [addToOrder newOrder Order.orderId].
        rewrite find_app_none.
        -- cbn. now rewrite String.eqb_refl.
        -- apply (find_none_key FlatItem.orderId).
           intros Hin. apply in_map_iff in Hin as (record & Heq & Hin).
           rewrite Forall_forall in Hids. specialize (Hids record Hin).
           rewrite Heq in Hids.
           now apply (find_none_not_In (@Order.orderId Shipment.t)) in Hnone.
      * apply Forall_app. split.
        -- revert Hids. apply Forall_impl. intros record Hin.
           rewrite map_app. apply in_or_app. now left.
        -- constructor; [|constructor].
           rewrite map_app. apply in_or_app. right. now left.
Qed.

(** X4: the [orderDate] and the [usedGiftCard] flag of an order that
    [getOrders] returns are those of the first row, dated from [startDate]
    on, that names the order in its order history; what later rows of the
    order say of them is not looked at. *)
Theorem getOrders_first_row_wins (startDate : Date)
  (paths : list (list FlatItem.t)) :
  Forall (fun o : AmazonOrder =>
            exists parsed flatItem,
              In parsed paths /\
              firstRowOf (Order.orderId o) (sinceStart startDate parsed)
              = Some flatItem /\
              headedBy flatItem o)
         (getOrders startDate paths).
Proof.
  unfold getOrders. apply Forall_flat_map.
  apply Forall_forall. intros parsed Hparsed.
  unfold ordersOfPath. apply Forall_sort, Forall_filter.
  destruct (fold_addFlatItem_heads (sinceStart startDate parsed))
    as [Hheads _].
  revert Hheads. apply Forall_impl.
  intros o (flatItem & Hfirst & Hhead). now exists parsed, flatItem.
Qed.

(** The rows of [SampleExport]: the row before the start date is left out,
    the order takes its date from its first row, and the orders come by
    date. *)
Example getOrders_sample :
  map (fun o : AmazonOrder =>
         (Order.orderId o, Order.usedGiftCard o,
          map Shipment.trackingId (Order.shipments o)))
      SampleExport.orders
  = [("o2", false, ["S3"]); ("o1", false, ["S1"; "S2"])]%string.
Proof. vm_compute. reflexivity. Qed.

(** ** The subset generator: where it throws *)

Lemma shl32_one_mod (n : Z) :
  shl32 1 n = if n mod 32 =? 31 then - 2 ^ 31 else 2 ^ (n mod 32).
Proof.
  unfold shl32. rewrite (@toInt32_small 1) by (cbn; lia).
  rewrite Z.mul_1_l.
  pose proof (Z.mod_pos_bound n 32 ltac:(lia)) as Hk.
  destruct (Z.eqb_spec (n mod 32) 31) as [->|Hne]; [reflexivity|].
  apply toInt32_small.
  pose proof (@pow2_lt_31 (n mod 32) ltac:(lia)). lia.
Qed.

Lemma combinations_throws (T : Type) (array : list T) :
  combinations array = Throw <-> Z.of_nat (length array) mod 32 = 31.
Proof.
  unfold combinations. rewrite shl32_one_mod.
  pose proof (Z.mod_pos_bound (Z.of_nat (length array)) 32 ltac:(lia)) as Hk.
  destruct (Z.eqb_spec (Z.of_nat (length array) mod 32) 31) as [He|Hne].
  - split; [intros _; exact He|intros _; reflexivity].
  - assert (0 < 2 ^ (Z.of_nat (length array) mod 32))
      by (apply Z.pow_pos_nonneg; lia).
    destruct (Z.ltb_spec (2 ^ (Z.of_nat (length array) mod 32) - 1) 0);
      [lia|].
    split; [discriminate|contradiction].
Qed.

(** X5: whatever the length n of the array, [combinations] throws exactly
    when n mod 32 is 31 (the array length it asks for is negative);
    otherwise it returns 2^(n mod 32) - 1 lists, each of them a non-empty
    subsequence of the array. *)
Theorem combinations_any_length (T : Type) (array : list T) :
  let k := Z.of_nat (length array) mod 32 in
  (combinations array = Throw <-> k = 31) /\
  (k <> 31 ->
   exists all,
     combinations array = Ok all /\
     Z.of_nat (length all) = 2 ^ k - 1 /\
     Forall (fun c => c <> [] /\ subseq c array) all).
Proof.
  cbv zeta. split; [apply combinations_throws|].
  intros Hne.
  pose proof (Z.mod_pos_bound (Z.of_nat (length array)) 32 ltac:(lia)) as Hk.
  destruct (combinations array) as [all| |] eqn:Hall.
  - exists all. split; [reflexivity|]. split.
    + unfold combinations in Hall. rewrite shl32_one_mod in Hall.
      destruct (Z.eqb_spec (Z.of_nat (length array) mod 32) 31);
        [contradiction|].
      destruct (_ <? 0); [discriminate|].
      injection Hall as <-. rewrite length_map, length_seq.
      assert (0 < 2 ^ (Z.of_nat (length array) mod 32))
        by (apply Z.pow_pos_nonneg; lia).
      lia.
    + pose proof (combinations_nonempty _ Hall) as Hnonempty.
      pose proof (combinations_subseq _ Hall) as Hsub.
      rewrite Forall_forall in *. intros c Hc. split; auto.
  - apply combinations_throws in Hall. contradiction.
  - now apply combinations_fuel in Hall.
Qed.

Lemma combinations_any_length_witness :
  combinations (seq 0 63) = Throw /\
  exists all, combinations (seq 0 33) = Ok all /\ Z.of_nat (length all) = 1.
Proof.
  split.
  - apply (proj1 (@combinations_any_length nat (seq 0 63))). reflexivity.
  - destruct (proj2 (@combinations_any_length nat (seq 0 33)))
      as (all & Hall & Hlen & _); [discriminate|].
    exists all. split; [exact Hall|exact Hlen].
Defined.

(** ** getReturns *)

Lemma foldRes_app (A B : Type) (f : B -> A -> Res B) (l1 l2 : list A)
  (acc : B) :
  foldRes f (l1 ++ l2) acc = (acc1 <- foldRes f l1 acc ;; foldRes f l2 acc1).
Proof.
  revert acc. induction l1 as [|x rest IH]; intros acc; cbn; [reflexivity|].
  destruct (f acc x); cbn; [apply IH|reflexivity|reflexivity].
Qed.

(** The two loops of [getReturns] are one loop over all the rows kept. *)
Lemma getReturns_flat (orders : list AmazonOrder) (startDate : Date)
  (paths : list (list FlatReturn.t)) :
  getReturns orders startDate paths
  = foldRes (forRecord orders) (returnRows startDate paths)
            (ReturnsResult.mk [] []).
Proof.
  unfold getReturns, returnRows. generalize (ReturnsResult.mk [] []).
  induction paths as [|parsed rest IH]; intros acc; cbn [foldRes flat_map].
  - reflexivity.
  - rewrite foldRes_app.
    destruct (foldRes _ (returnsSinceStart startDate parsed) acc);
      cbn [bind]; [apply IH|reflexivity|reflexivity].
Qed.

(** What one row does to the two arrays. *)
Lemma forRecord_cases (orders : list AmazonOrder) (acc : ReturnsResult.t)
  (record : FlatReturn.t) (res : ReturnsResult.t) :
  forRecord orders acc record = Ok res ->
  (exists order all combination,
      find (hasOrderId (FlatReturn.orderId record)) orders = Some order /\
      combinations (itemsOfOrder order) = Ok all /\
      find (settlesReturn (FlatReturn.amount record)) all = Some combination /\
      res = ReturnsResult.mk
              (ReturnsResult.returns acc
               ++ [withItems (completeReturn record) combination])
              (ReturnsResult.remainingReturns acc)) \/
  (res = ReturnsResult.mk (ReturnsResult.returns acc)
           (ReturnsResult.remainingReturns acc ++ [completeReturn record]) /\
   (find (hasOrderId (FlatReturn.orderId record)) orders = None \/
    exists order all,
      find (hasOrderId (FlatReturn.orderId record)) orders = Some order /\
      combinations (itemsOfOrder order) = Ok all /\
      find (settlesReturn (FlatReturn.amount record)) all = None)).
Proof.
  unfold forRecord.
  destruct (find _ orders) as [order|] eqn:Horder.
  - destruct (combinations (itemsOfOrder order)) as [all| |] eqn:Hall;
      cbn [bind]; try discriminate.
    destruct (find _ all) as [combination|] eqn:Hfind; intros [= <-].
    + left. now exists order, all, combination.
    + right. split; [reflexivity|]. right. now exists order, all.
  - intros [= <-]. right. split; [reflexivity|]. now left.
Qed.

Lemma forRecord_invariant (orders : list AmazonOrder)
  (P : ReturnsResult.t -> list FlatReturn.t -> Prop) :
  (forall acc done record res,
      P acc done -> forRecord orders acc record = Ok res ->
      P res (done ++ [record])) ->
  forall records acc done res,
    P acc done -> foldRes (forRecord orders) records acc = Ok res ->
    P res (done ++ records).
Proof.
  intros Hstep records.
  induction records as [|record rest IH]; intros acc done res Hacc; cbn.
  - intros [= <-]. now rewrite app_nil_r.
  - destruct (forRecord orders acc record) as [acc1| |] eqn:Hrec;
      cbn [bind]; try discriminate.
    intros Hrest.
    replace (done ++ record :: rest) with ((done ++ [record]) ++ rest)
      by now rewrite <- app_assoc.
    eapply IH; [|exact Hrest]. eapply Hstep; eassumption.
Qed.

Lemma find_some_first (A : Type) (p : A -> bool) (l : list A) (x : A) :
  find p l = Some x ->
  exists before after,
    l = before ++ x :: after /\ p x = true /\
    Forall (fun y => p y = false) before.
Proof.
  induction l as [|y rest IH]; cbn; [discriminate|].
  destruct (p y) eqn:Hy.
  - intros [= ->]. exists [], rest. repeat split; auto.
  - intros Hx. destruct (IH Hx) as (before & after & -> & Hp & Hnone).
    exists (y :: before), after. repeat split; auto.
Qed.

Lemma settlesReturn_spec (amount : Q) (combination : list Item.t) :
  settlesReturn amount combination = true <->
  (Qabs (- getTotalAmount Item.amount combination - amount) < 1 # 100)%Q.
Proof. apply amountsMatch_spec. Qed.

(** A return that found its items. *)
Lemma forRecord_settled (orders : list AmazonOrder) (record : FlatReturn.t)
  (order : AmazonOrder) (all : list (list Item.t))
  (combination : list Item.t) :
  find (hasOrderId (FlatReturn.orderId record)) orders = Some order ->
  combinations (itemsOfOrder order) = Ok all ->
  find (settlesReturn (FlatReturn.amount record)) all = Some combination ->
  settledBy orders (withItems (completeReturn record) combination).
Proof.
  intros Horder Hall Hfind. exists order.
  cbn [withItems completeReturn Return.orderId Return.items Return.amount].
  apply find_some in Hfind as [Hin Hsettles].
  pose proof (combinations_subseq _ Hall) as Hsub.
  pose proof (combinations_nonempty _ Hall) as Hne.
  rewrite Forall_forall in Hsub, Hne.
  repeat split; auto. now apply settlesReturn_spec.
Qed.

Lemma getReturns_settled (orders : list AmazonOrder) (startDate : Date)
  (paths : list (list FlatReturn.t)) (found : ReturnsResult.t) :
  getReturns orders startDate paths = Ok found ->
  Forall (settledBy orders) (ReturnsResult.returns found).
Proof.
  rewrite getReturns_flat. intros Hrun.
  apply (@forRecord_invariant orders
           (fun acc _ => Forall (settledBy orders) (ReturnsResult.returns acc)))
    with (done := []) in Hrun; [exact Hrun| |constructor].
  intros acc done record res Hacc Hrec.
  destruct (forRecord_cases _ _ _ Hrec)
    as [(order & all & combination & Horder & Hall & Hfind & ->)|(-> & _)];
    cbn [ReturnsResult.returns]; [|assumption].
  apply Forall_app. split; [assumption|].
  constructor; [|constructor].
  eapply forRecord_settled; eassumption.
Qed.

Lemma forRecord_first (orders : list AmazonOrder) (record : FlatReturn.t)
  (order : AmazonOrder) (all : list (list Item.t))
  (combination : list Item.t) :
  find (hasOrderId (FlatReturn.orderId record)) orders = Some order ->
  combinations (itemsOfOrder order) = Ok all ->
  find (settlesReturn (FlatReturn.amount record)) all = Some combination ->
  firstSettling orders (withItems (completeReturn record) combination).
Proof.
  intros Horder Hall Hfind.
  destruct (find_some_first _ _ Hfind) as (before & after & Heq & _ & Hnone).
  now exists order, all, before, after.
Qed.

(** X6: every return that [getReturns] puts in [returns] is of an order of
    [orders] (the first with its order id), lists at least one item, all of
    them items of that order in their order, and these total the refund
    within the tolerance; they are the first such list in the order in
    which [combinations] enumerates the items of the order. *)
Theorem getReturns_matched (orders : list AmazonOrder) (startDate : Date)
  (paths : list (list FlatReturn.t)) (found : ReturnsResult.t) :
  getReturns orders startDate paths = Ok found ->
  Forall (fun r => settledBy orders r /\ firstSettling orders r)
         (ReturnsResult.returns found).
Proof.
  rewrite getReturns_flat. intros Hrun.
  apply (@forRecord_invariant orders
           (fun acc _ =>
              Forall (fun r => settledBy orders r /\ firstSettling orders r)
                     (ReturnsResult.returns acc)))
    with (done := []) in Hrun; [exact Hrun| |constructor].
  intros acc done record res Hacc Hrec.
  destruct (forRecord_cases _ _ _ Hrec)
    as [(order & all & combination & Horder & Hall & Hfind & ->)|(-> & _)];
    cbn [ReturnsResult.returns]; [|assumption].
  apply Forall_app. split; [assumption|].
  constructor; [|constructor]. split.
  - eapply forRecord_settled; eassumption.
  - eapply forRecord_first; eassumption.
Qed.

Lemma getReturns_matched_witness :
  exists found,
    getReturns SampleExport.orders Sample.day [SampleExport.returnRows]
    = Ok found /\
    length (ReturnsResult.returns found) = 2%nat /\
    Forall (fun r => settledBy SampleExport.orders r /\
                     firstSettling SampleExport.orders r)
           (ReturnsResult.returns found).
Proof.
  destruct (getReturns SampleExport.orders Sample.day
              [SampleExport.returnRows]) as [found| |] eqn:Hrun;
    try (vm_compute in Hrun; discriminate Hrun).
  exists found. split; [reflexivity|]. split.
  - vm_compute in Hrun. injection Hrun as <-. reflexivity.
  - exact (@getReturns_matched SampleExport.orders Sample.day
             [SampleExport.returnRows] found Hrun).
Defined.

(** X7: [getReturns] puts every row dated from [startDate] on in exactly
    one of its two arrays, each in the order of the rows: [returns] holds
    the rows that found items, [remainingReturns] the others, with no
    item. *)
Theorem getReturns_partition (orders : list AmazonOrder) (startDate : Date)
  (paths : list (list FlatReturn.t)) (found : ReturnsResult.t) :
  getReturns orders startDate paths = Ok found ->
  exists matched unmatched,
    Permutation (matched ++ unmatched) (returnRows startDate paths) /\
    subseq matched (returnRows startDate paths) /\
    subseq unmatched (returnRows startDate paths) /\
    map (fun r => withItems r []) (ReturnsResult.returns found)
    = map completeReturn matched /\
    ReturnsResult.remainingReturns found = map completeReturn unmatched.
Proof.
  rewrite getReturns_flat. intros Hrun.
  apply (@forRecord_invariant orders
           (fun acc done =>
              exists matched unmatched,
                Permutation (matched ++ unmatched) done /\
                subseq matched done /\ subseq unmatched done /\
                map (fun r => withItems r []) (ReturnsResult.returns acc)
                = map completeReturn matched /\
                ReturnsResult.remainingReturns acc
                = map completeReturn unmatched))
    with (done := []) in Hrun; [exact Hrun| |].
  - intros acc done record res
      (matched & unmatched & Hperm & Hm & Hu & Hreturns & Hremaining) Hrec.
    destruct (forRecord_cases _ _ _ Hrec)
      as [(order & all & combination & _ & _ & _ & ->)|(-> & _)];
      cbn [ReturnsResult.returns ReturnsResult.remainingReturns].
    + exists (matched ++ [record]), unmatched. repeat split.
      * rewrite <- app_assoc, <- Hperm, <- app_assoc.
        apply Permutation_app_head, Permutation_app_comm.
      * apply subseq_app; [assumption|apply subseq_refl].
      * rewrite <- (app_nil_r unmatched).
        apply subseq_app; [assumption|apply subseq_nil_l].
      * rewrite !map_app, Hreturns. reflexivity.
      * assumption.
    + exists matched, (unmatched ++ [record]). repeat split.
      * rewrite app_assoc. now apply Permutation_app_tail.
      * rewrite <- (app_nil_r matched).
        apply subseq_app; [assumption|apply subseq_nil_l].
      * apply subseq_app; [assumption|apply subseq_refl].
      * assumption.
      * rewrite map_app, Hremaining. reflexivity.
  - exists [], []. repeat split; constructor.
Qed.

Lemma getReturns_partition_witness :
  exists found,
    getReturns SampleExport.orders Sample.day [SampleExport.returnRows]
    = Ok found /\
    exists matched unmatched,
      Permutation (matched ++ unmatched)
                  (returnRows Sample.day [SampleExport.returnRows]) /\
      subseq matched (returnRows Sample.day [SampleExport.returnRows]) /\
      subseq unmatched (returnRows Sample.day [SampleExport.returnRows]) /\
      map (fun r => withItems r []) (ReturnsResult.returns found)
      = map completeReturn matched /\
      ReturnsResult.remainingReturns found = map completeReturn unmatched.
Proof.
  destruct (getReturns SampleExport.orders Sample.day
              [SampleExport.returnRows]) as [found| |] eqn:Hrun;
    try (vm_compute in Hrun; discriminate Hrun).
  exists found. split; [reflexivity|].
  exact (@getReturns_partition SampleExport.orders Sample.day
           [SampleExport.returnRows] found Hrun).
Defined.

Lemma find_none_all (A : Type) (p : A -> bool) (l : list A) (x : A) :
  find p l = None -> In x l -> p x = false.
Proof. intros Hnone Hin. exact (find_none p l Hnone x Hin). Qed.

(** X8: when no order has more than 30 items, a return that [getReturns]
    leaves in [remainingReturns] has no item, and either no order has its
    order id, or no items of the first order with that id, however
    chosen, total the refund within the tolerance. *)
Theorem getReturns_unmatched (orders : list AmazonOrder) (startDate : Date)
  (paths : list (list FlatReturn.t)) (found : ReturnsResult.t) :
  Forall (fun o => (length (itemsOfOrder o) <= 30)%nat) orders ->
  getReturns orders startDate paths = Ok found ->
  Forall (fun r => Return.items r = [] /\ unsettled orders r)
         (ReturnsResult.remainingReturns found).
Proof.
  intros Hsmall. rewrite getReturns_flat. intros Hrun.
  apply (@forRecord_invariant orders
           (fun acc _ =>
              Forall (fun r => Return.items r = [] /\ unsettled orders r)
                     (ReturnsResult.remainingReturns acc)))
    with (done := []) in Hrun; [exact Hrun| |constructor].
  intros acc done record res Hacc Hrec.
  destruct (forRecord_cases _ _ _ Hrec)
    as [(order & all & combination & _ & _ & _ & ->)
       |(-> & [Hnone|(order & all & Horder & Hall & Hnone)])];
    cbn [ReturnsResult.remainingReturns]; [assumption| |].
  - apply Forall_app. split; [assumption|].
    constructor; [|constructor]. split; [reflexivity|]. now left.
  - apply Forall_app. split; [assumption|].
    constructor; [|constructor]. split; [reflexivity|]. right.
    exists order. split; [exact Horder|].
    intros c Hsub Hne.
    cbn [completeReturn Return.amount].
    apply (find_none_all _ _ c Hnone).
    apply combinations_complete with (l := itemsOfOrder order);
      try assumption.
    rewrite Forall_forall in Hsmall. apply Hsmall.
    apply find_some in Horder. tauto.
Qed.

Lemma sampleExport_small :
  Forall (fun o => (length (itemsOfOrder o) <= 30)%nat) SampleExport.orders.
Proof. repeat constructor; vm_compute; discriminate. Defined.

Lemma getReturns_unmatched_witness :
  Forall (fun o => (length (itemsOfOrder o) <= 30)%nat) SampleExport.orders /\
  exists found,
    getReturns SampleExport.orders Sample.day [SampleExport.returnRows]
    = Ok found /\
    length (ReturnsResult.remainingReturns found) = 2%nat /\
    Forall (fun r => Return.items r = [] /\ unsettled SampleExport.orders r)
           (ReturnsResult.remainingReturns found).
Proof.
  split; [exact sampleExport_small|].
  destruct (getReturns SampleExport.orders Sample.day
              [SampleExport.returnRows]) as [found| |] eqn:Hrun;
    try (vm_compute in Hrun; discriminate Hrun).
  exists found. split; [reflexivity|]. split.
  - vm_compute in Hrun. injection Hrun as <-. reflexivity.
  - exact (@getReturns_unmatched SampleExport.orders Sample.day
             [SampleExport.returnRows] found sampleExport_small Hrun).
Defined.

Lemma forRecord_throws (orders : list AmazonOrder) (acc : ReturnsResult.t)
  (record : FlatReturn.t) :
  forRecord orders acc record = Throw <-> overflows orders record.
Proof.
  unfold forRecord, overflows.
  destruct (find _ orders) as [order|] eqn:Horder.
  - destruct (combinations (itemsOfOrder order)) as [all| |] eqn:Hall;
      cbn [bind].
    + split.
      * destruct (find _ all); discriminate.
      * intros (order' & [= <-] & Hmod).
        apply combinations_throws in Hmod. congruence.
    + split; [|reflexivity]. intros _. exists order.
      split; [reflexivity|]. now apply combinations_throws.
    + now apply combinations_fuel in Hall.
  - split; [discriminate|]. now intros (order & Hsome & _).
Qed.

Lemma forRecord_fuel (orders : list AmazonOrder) (acc : ReturnsResult.t)
  (record : FlatReturn.t) : forRecord orders acc record <> OutOfFuel.
Proof.
  unfold forRecord.
  destruct (find _ orders) as [order|]; [|discriminate].
  destruct (combinations (itemsOfOrder order)) as [all| |] eqn:Hall;
    cbn [bind]; try discriminate.
  - destruct (find _ all); discriminate.
  - now apply combinations_fuel in Hall.
Qed.

(** X9: [getReturns] throws exactly when one of the rows dated from
    [startDate] on names an order whose number of items is 31 modulo 32;
    in particular it returns when every order has at most 30 items. *)
Theorem getReturns_throws (orders : list AmazonOrder) (startDate : Date)
  (paths : list (list FlatReturn.t)) :
  (getReturns orders startDate paths = Throw <->
   Exists (overflows orders) (returnRows startDate paths)) /\
  (~ Exists (overflows orders) (returnRows startDate paths) ->
   exists found, getReturns orders startDate paths = Ok found).
Proof.
  rewrite getReturns_flat. generalize (ReturnsResult.mk [] []).
  induction (returnRows startDate paths) as [|record rest IH]; intros acc.
  - cbn. split.
    + split; [discriminate|]. intros H. inversion H.
    + intros _. now exists acc.
  - cbn [foldRes].
    destruct (forRecord orders acc record) as [acc1| |] eqn:Hrec;
      cbn [bind].
    + assert (Hnot : ~ overflows orders record).
      { intros H. apply (forRecord_throws orders acc) in H. congruence. }
      destruct (IH acc1) as [IHthrow IHok]. split.
      * rewrite IHthrow. split; [now right|].
        intros H. inversion H; subst; [contradiction|assumption].
      * intros Hnone. apply IHok. intros H. apply Hnone. now right.
    + apply forRecord_throws in Hrec. split.
      * split; [now left|reflexivity].
      * intros Hnone. contradiction Hnone. now left.
    + now apply forRecord_fuel in Hrec.
Qed.

Lemma getReturns_throws_witness :
  getReturns [SampleExport.bigOrder] 0 [[SampleExport.bigReturn]] = Throw /\
  exists found,
    getReturns SampleExport.orders Sample.day [SampleExport.returnRows]
    = Ok found.
Proof.
  split.
  - apply (proj1 (@getReturns_throws [SampleExport.bigOrder] 0
                    [[SampleExport.bigReturn]])).
    left. exists SampleExport.bigOrder. split; reflexivity.
  - apply (proj2 (@getReturns_throws SampleExport.orders Sample.day
                    [SampleExport.returnRows])).
    intros Hex. apply Exists_exists in Hex as (record & _ & order & Hfind & Hbig).
    apply find_some in Hfind as [Hin _].
    pose proof sampleExport_small as Hsmall.
    rewrite Forall_forall in Hsmall. specialize (Hsmall order Hin).
    rewrite Z.mod_small in Hbig; lia.
Defined.

(** ** getTransactions: which transactions are kept *)

Lemma startsWith_spec (s sub : string) :
  startsWith s sub = true <-> exists after, s = (sub ++ after)%string.
Proof.
  unfold startsWith. revert s.
  induction sub as [|c sub IH]; intros s.
  - split; [intros _; now exists s|now destruct s].
  - destruct s as [|d s]; cbn.
    + split; [discriminate|]. now intros [after H].
    + destruct (Ascii.ascii_dec c d) as [->|Hne].
      * rewrite IH. split; intros [after H]; exists after; congruence.
      * split; [discriminate|]. intros [after H]. congruence.
Qed.

Lemma includes_spec (s sub : string) :
  includes s sub = true <-> occursIn sub s.
Proof.
  unfold occursIn. induction s as [|c s IH]; cbn [includes].
  - rewrite orb_false_r, startsWith_spec. split.
    + intros [after H]. now exists ""%string, after.
    + intros (before & after & H). destruct before; [now exists after|].
      discriminate.
  - rewrite orb_true_iff, startsWith_spec, IH. split.
    + intros [[after H]|(before & after & H)].
      * now exists ""%string, after.
      * exists (String c before), after. cbn. now rewrite H.
    + intros (before & after & H). destruct before as [|d before].
      * left. now exists after.
      * right. exists before, after. cbn in H. congruence.
Qed.

Lemma not_includes_spec (s sub : string) :
  includes s sub = false <-> ~ occursIn sub s.
Proof.
  rewrite <- includes_spec. destruct (includes s sub); split; congruence.
Qed.

(** X10: [getTransactions] keeps a transaction of the response exactly
    when it has [fiData] and the lower-cased description of the [fiData]
    contains "amazon" or "amzn" and contains neither "web services" nor
    "clinic". *)
Theorem isAmazonTransaction_spec (raw : RawTransaction.t) :
  isAmazonTransaction raw = true <->
  exists fiData,
    RawTransaction.fiData raw = Some fiData /\
    (occursIn "amazon" (toLowerCase (FiData.description fiData)) \/
     occursIn "amzn" (toLowerCase (FiData.description fiData))) /\
    ~ occursIn "web services" (toLowerCase (FiData.description fiData)) /\
    ~ occursIn "clinic" (toLowerCase (FiData.description fiData)).
Proof.
  unfold isAmazonTransaction.
  destruct (RawTransaction.fiData raw) as [fiData|].
  - set (d := toLowerCase (FiData.description fiData)).
    cbn [forKeywords forAntiKeywords DESCRIPTION_KEYWORDS
                     DESCRIPTION_ANTI_KEYWORDS].
    split.
    + intros H. exists fiData. split; [reflexivity|]. fold d.
      rewrite <- !not_includes_spec, <- !includes_spec.
      destruct (includes d "amazon"), (includes d "amzn"),
        (includes d "web services"), (includes d "clinic");
        try discriminate; auto.
    + intros (fi & [= <-] & Hkey & Hweb & Hclinic).
      fold d in Hkey, Hweb, Hclinic.
      rewrite <- !includes_spec in Hkey.
      apply not_includes_spec in Hweb, Hclinic.
      rewrite Hweb, Hclinic.
      destruct Hkey as [-> | ->]; [reflexivity|].
      now destruct (includes d "amazon").
  - split; [discriminate|]. now intros (fi & H & _).
Qed.

(** ** getTransactions: the transactions made of the response *)

Lemma hasId_eq (id : string) (t : Transaction.t) :
  hasId id t = true <-> Transaction.id t = id.
Proof. apply String.eqb_eq. Qed.

(** The two ways [addTransaction] changes the results. *)
Lemma addTransaction_cases (results : list Transaction.t)
  (transaction : Transaction.t) :
  (exists l1 existing l2,
      results = l1 ++ existing :: l2 /\
      find (hasId (Transaction.id transaction)) l1 = None /\
      Transaction.id existing = Transaction.id transaction /\
      addTransaction results transaction
      = l1 ++ absorb transaction existing :: l2) \/
  (find (hasId (Transaction.id transaction)) results = None /\
   addTransaction results transaction = results ++ [transaction]).
Proof.
  unfold addTransaction.
  destruct (find _ results) as [existing|] eqn:Hfind.
  - left. destruct (find_split _ _ Hfind) as (l1 & l2 & Heq & Hnone & Hp).
    exists l1, existing, l2. rewrite Heq at 2.
    rewrite updateFirst_at by assumption.
    repeat split; try assumption. now apply hasId_eq.
  - right. now split.
Qed.

Lemma addTransaction_invariant (P : list Transaction.t -> Prop)
  (Q : Transaction.t -> Prop) :
  P [] ->
  (forall results transaction,
      P results -> Q transaction -> P (addTransaction results transaction)) ->
  forall transactions,
    Forall Q transactions -> P (fold_left addTransaction transactions []).
Proof.
  intros Hnil Hstep transactions.
  induction transactions as [|transaction done IH] using rev_ind.
  - intros _. exact Hnil.
  - intros Hall. apply Forall_app in Hall as [Hdone Hlast].
    inversion Hlast; subst.
    rewrite fold_left_app. cbn [fold_left]. apply Hstep; auto.
Qed.

Lemma absorb_balanced (transaction existing : Transaction.t) :
  transactionBalanced transaction -> transactionBalanced existing ->
  transactionBalanced (absorb transaction existing).
Proof.
  intros [_ Ht] [Hne He]. split; cbn [absorb Transaction.children
                                       Transaction.amount].
  - intros Hnil. now apply app_eq_nil in Hnil as [Hnil _].
  - rewrite sumAmounts_app, Ht, He. reflexivity.
Qed.

Lemma toTransaction_balanced (newDate : string -> Date)
  (raw : RawTransaction.t) :
  transactionBalanced (toTransaction newDate raw).
Proof.
  split; cbn [toTransaction Transaction.children Transaction.amount].
  - discriminate.
  - unfold sumAmounts. cbn. ring.
Qed.

(** X11: every transaction that [getTransactions] returns has at least one
    child, and its amount is the sum of the amounts of its children. *)
Theorem getTransactions_balanced (newDate : string -> Date)
  (response : list RawTransaction.t) :
  Forall transactionBalanced (getTransactions newDate response).
Proof.
  unfold getTransactions. apply Forall_sort.
  apply (@addTransaction_invariant (Forall transactionBalanced)
                                   transactionBalanced).
  - constructor.
  - intros results transaction Hall Ht.
    destruct (addTransaction_cases results transaction)
      as [(l1 & existing & l2 & -> & _ & _ & ->)|(_ & ->)].
    + apply Forall_app in Hall as [H1 H2].
      inversion H2 as [|? ? He H2']; subst.
      apply Forall_app. split; [assumption|].
      constructor; [now apply absorb_balanced|assumption].
    + apply Forall_app. split; [assumption|]. now constructor.
  - apply Forall_map, Forall_forall. intros raw _.
    apply toTransaction_balanced.
Qed.

Lemma sort_earlierTransaction_sorted (l : list Transaction.t) :
  sortedByTransactionDate (sort earlierTransaction l).
Proof.
  unfold sortedByTransactionDate.
  apply StronglySorted_weaken with (R := notAfter earlierTransaction).
  - intros a b. unfold notAfter. apply (Zkey_not_before Transaction.date).
  - apply sort_sorted.
    + apply (Zkey_asym Transaction.date).
    + apply (Zkey_negtrans Transaction.date).
Qed.

Lemma fold_addTransaction_ids (transactions : list Transaction.t) :
  NoDup (map Transaction.id (fold_left addTransaction transactions [])).
Proof.
  apply (@addTransaction_invariant
           (fun results => NoDup (map Transaction.id results))
           (fun _ => True)).
  - constructor.
  - intros results transaction Hnd _.
    destruct (addTransaction_cases results transaction)
      as [(l1 & existing & l2 & -> & _ & _ & ->)|(Hnone & ->)].
    + now rewrite map_app in *.
    + rewrite map_app. apply NoDup_snoc; [assumption|].
      now apply (find_none_not_In Transaction.id).
  - apply Forall_forall. auto.
Qed.

(** X12: the transactions that [getTransactions] returns come in
    non-decreasing order of date, and no two of them have the same id. *)
Theorem getTransactions_well_formed (newDate : string -> Date)
  (response : list RawTransaction.t) :
  sortedByTransactionDate (getTransactions newDate response) /\
  NoDup (map Transaction.id (getTransactions newDate response)).
Proof.
  unfold getTransactions. split; [apply sort_earlierTransaction_sorted|].
  eapply Permutation_NoDup;
    [apply Permutation_map; symmetry; apply sort_perm|].
  apply fold_addTransaction_ids.
Qed.

Lemma childrenOf_app (l1 l2 : list Transaction.t) :
  childrenOf (l1 ++ l2) = childrenOf l1 ++ childrenOf l2.
Proof. apply flat_map_app. Qed.

Lemma childrenOf_cons (t : Transaction.t) (l : list Transaction.t) :
  childrenOf (t :: l)
  = map (fun child => (Transaction.id t, child)) (Transaction.children t)
    ++ childrenOf l.
Proof. reflexivity. Qed.

Lemma childrenOf_addTransaction (results : list Transaction.t)
  (transaction : Transaction.t) :
  Permutation (childrenOf (addTransaction results transaction))
              (childrenOf results ++ childrenOf [transaction]).
Proof.
  destruct (addTransaction_cases results transaction)
    as [(l1 & existing & l2 & -> & _ & Hid & ->)|(_ & ->)].
  - rewrite !childrenOf_app, !childrenOf_cons.
    cbn [absorb Transaction.children Transaction.id childrenOf flat_map].
    rewrite map_app, Hid, app_nil_r, <- !app_assoc.
    apply Permutation_app_head, Permutation_app_head, Permutation_app_comm.
  - now rewrite childrenOf_app.
Qed.

(** X13: the children of the transactions that [getTransactions] returns
    are the transactions of the response that it keeps, each filed under
    the id of its parent, or under its own id if it has no parent: none is
    lost, none is taken twice. *)
Theorem getTransactions_children (newDate : string -> Date)
  (response : list RawTransaction.t) :
  Permutation (childrenOf (getTransactions newDate response))
              (map (fun raw => (groupId raw, childOf raw))
                   (filter isAmazonTransaction response)).
Proof.
  unfold getTransactions.
  transitivity
    (childrenOf (fold_left addTransaction
                   (map (toTransaction newDate)
                        (filter isAmazonTransaction response)) [])).
  { unfold childrenOf. apply Permutation_flat_map, sort_perm. }
  induction (filter isAmazonTransaction response) as [|raw done IH]
    using rev_ind.
  - constructor.
  - rewrite !map_app, fold_left_app. cbn [fold_left map].
    rewrite childrenOf_addTransaction.
    apply Permutation_app; [exact IH|].
    unfold childrenOf. cbn. constructor. constructor.
Qed.

(** The response of [SampleExport]: the charge for web services and the
    transaction without [fiData] are left out, and the child goes to its
    parent. *)
Example getTransactions_sample :
  map (fun t => (Transaction.id t, length (Transaction.children t)))
      (getTransactions (fun _ => 0) SampleExport.response)
  = [("t1"%string, 2%nat); ("t4"%string, 1%nat)].
Proof. vm_compute. reflexivity. Qed.

(** ** updateTransaction *)

Lemma sumAmounts_scaled (A : Type) (amt : A -> Q) (k : Q) (l : list A) :
  (sumAmounts (fun x => amt x * k) l == sumAmounts amt l * k)%Q.
Proof.
  induction l as [|x rest IH].
  - unfold sumAmounts. cbn. ring.
  - rewrite !sumAmounts_cons, IH. ring.
Qed.

Lemma updateData_children (r : JoinedRecord.t) :
  length (JoinedRecord.items r) <> 1%nat ->
  updateData r
  = UpdateData.mk None
      (map (fun item =>
              ChildTransaction.mk (JoinedRecordItem.description item)
                (JoinedRecordItem.amount item
                 * (if Qltb 0 (JoinedRecord.amount r) then - (1) else 1))%Q)
           (JoinedRecord.items r)).
Proof.
  unfold updateData. destruct (JoinedRecord.items r) as [|item [|item' rest]];
    [reflexivity| |reflexivity].
  intros H. now contradiction H.
Qed.

(** X14: for a record whose items total its amount within the tolerance
    and that has not exactly one item, [updateTransaction] sends no
    description and one child per item, and the amounts of the children
    total minus the absolute value of the amount of the record, within the
    tolerance: the children of a refund are sent with the sign turned. *)
Theorem updateData_children_total (r : JoinedRecord.t) :
  conserved r ->
  length (JoinedRecord.items r) <> 1%nat ->
  UpdateData.description (updateData r) = None /\
  length (UpdateData.children (updateData r))
  = length (JoinedRecord.items r) /\
  (Qabs (sumAmounts ChildTransaction.amount (UpdateData.children (updateData r))
         + Qabs (JoinedRecord.amount r)) < 1 # 100)%Q.
Proof.
  intros Hcons Hlen. rewrite (updateData_children r Hlen).
  cbn [UpdateData.description UpdateData.children].
  split; [reflexivity|]. split; [apply length_map|].
  rewrite sumAmounts_map. cbn [ChildTransaction.amount].
  rewrite sumAmounts_scaled.
  unfold conserved, sumItems in Hcons.
  set (total := sumAmounts JoinedRecordItem.amount (JoinedRecord.items r))
    in *.
  destruct (Qltb 0 (JoinedRecord.amount r)) eqn:Hsign.
  - apply Qltb_lt in Hsign.
    rewrite (Qabs_pos (JoinedRecord.amount r)) by lra.
    setoid_replace (total * - (1) + JoinedRecord.amount r)%Q
      with (- (total - JoinedRecord.amount r))%Q by ring.
    now rewrite Qabs_opp.
  - apply Qltb_ge in Hsign.
    rewrite (Qabs_neg (JoinedRecord.amount r)) by lra.
    setoid_replace (total * 1 + - JoinedRecord.amount r)%Q
      with (total - JoinedRecord.amount r)%Q by ring.
    exact Hcons.
Qed.

Lemma updateData_children_total_witness :
  conserved SampleExport.refundRecord /\
  UpdateData.children (updateData SampleExport.refundRecord)
  = [ChildTransaction.mk "Amazon - Lamp" (20 * - (1))%Q;
     ChildTransaction.mk "Amazon - Pen" (5 * - (1))%Q] /\
  (Qabs (sumAmounts ChildTransaction.amount
           (UpdateData.children (updateData SampleExport.refundRecord))
         + Qabs (JoinedRecord.amount SampleExport.refundRecord))
   < 1 # 100)%Q.
Proof.
  assert (Hcons : conserved SampleExport.refundRecord)
    by (vm_compute; reflexivity).
  assert (Hlen : length (JoinedRecord.items SampleExport.refundRecord)
                 <> 1%nat) by (cbn; discriminate).
  split; [exact Hcons|]. split; [reflexivity|].
  exact (proj2 (proj2 (@updateData_children_total SampleExport.refundRecord
                         Hcons Hlen))).
Defined.

(** ** From the exports to [joinOrders] *)

(** X15: every return that the main function hands to [joinOrders] lists
    at least one item of its order, and [getTotalAmount] of its items,
    negated, matches its amount; so every record that [joinOrders] then
    returns balances as the code tested it: a record of the first pass as
    the allocator left it, a record of the return pass with the negated
    items of such a return and an amount that matches the amount of the
    return (less a gift card, if one is listed). *)
Theorem joinerInput_settled (newDate : string -> Date)
  (response : list RawTransaction.t) (orderRows : list (list FlatItem.t))
  (returnRows : list (list FlatReturn.t)) (caller : Caller) :
  joinerInput newDate response orderRows returnRows = Ok caller ->
  Forall (settledBy (callerOrders caller)) (callerReturns caller) /\
  forall result caller',
    joinOrders caller = Ok (result, caller') ->
    Forall (fun r =>
              exactlyAllocated r \/ splitAllocated r \/
              exists ret, settledBy (callerOrders caller) ret /\
                          refundOf ret r)
           (resultJoinedRecords result).
Proof.
  intros Hinput.
  assert (Hsettled : Forall (settledBy (callerOrders caller))
                            (callerReturns caller)).
  { unfold joinerInput in Hinput.
    destruct (getReturns _ _ _) as [found| |] eqn:Hfound; cbn [bind] in Hinput;
      try discriminate.
    injection Hinput as <-. cbn [callerOrders callerReturns].
    exact (getReturns_settled _ _ _ Hfound). }
  split; [exact Hsettled|].
  intros result caller' Hrun.
  apply joinOrders_result in Hrun
    as (orders1 & st1 & returns2 & pool2 & records2 &
        Hfirst & Hsecond & -> & _).
  cbn [resultJoinedRecords]. apply Forall_sort.
  apply firstPass_balanced in Hfirst. destruct Hfirst as [Hreturns Hrecords].
  destruct (forReturns_spec (giftCards st1) (amazonReturns st1) []
              (mintTransactions st1) (joinedRecords st1))
    as (unmatched & pool' & news & Heq & Hrel).
  rewrite Hsecond in Heq. injection Heq as _ _ ->.
  apply Forall_app. split.
  - revert Hrecords. apply Forall_impl. intros r [Hr|Hr].
    + now left.
    + right. now left.
  - apply ReturnsMatched_refunds in Hrel.
    revert Hrel. apply Forall_impl. intros r (ret & Hin & Hr).
    right. right. exists ret. split; [|assumption].
    rewrite Forall_forall in Hsettled. apply Hsettled.
    eapply subseq_In; eassumption.
Qed.

Lemma joinerInput_settled_witness :
  exists caller result caller',
    joinerInput (fun _ => START_DATE + 5 * Sample.day) SampleExport.response
                [SampleExport.marchRows] [SampleExport.marchReturns]
    = Ok caller /\
    length (callerReturns caller) = 1%nat /\
    joinOrders caller = Ok (result, caller') /\
    length (resultJoinedRecords result) = 2%nat /\
    Forall (fun r =>
              exactlyAllocated r \/ splitAllocated r \/
              exists ret, settledBy (callerOrders caller) ret /\
                          refundOf ret r)
           (resultJoinedRecords result).
Proof.
  destruct (joinerInput (fun _ => START_DATE + 5 * Sample.day)
              SampleExport.response [SampleExport.marchRows]
              [SampleExport.marchReturns]) as [caller| |] eqn:Hinput;
    try (vm_compute in Hinput; discriminate Hinput).
  destruct (joinOrders caller) as [[result caller']| |] eqn:Hrun;
    try (vm_compute in Hinput; injection Hinput as <-;
         vm_compute in Hrun; discriminate Hrun).
  exists caller, result, caller'.
  split; [reflexivity|]. split.
  { vm_compute in Hinput. injection Hinput as <-. reflexivity. }
  split; [exact Hrun|]. split.
  - vm_compute in Hinput. injection Hinput as <-.
    vm_compute in Hrun. injection Hrun as <- _. reflexivity.
  - exact (proj2 (@joinerInput_settled
                    (fun _ => START_DATE + 5 * Sample.day)
                    SampleExport.response [SampleExport.marchRows]
                    [SampleExport.marchReturns] caller Hinput)
             result caller' Hrun).
Defined.

(** ** The command line *)

Lemma forArgs_ok (args : list string) (options0 options : Options.t) :
  forArgs args options0 = inr options <->
  Forall accepted args /\
  Options.amazonOrdersPaths options
  = Options.amazonOrdersPaths options0 ++ filter isPath args /\
  Options.isDryrun options
  = Options.isDryrun options0 || existsb (String.eqb "--dry-run") args /\
  Options.isRefreshCredentials options
  = Options.isRefreshCredentials options0
    || existsb (String.eqb "--refresh-creds") args.
Proof.
  revert options0.
  induction args as [|arg rest IH]; intros options0; cbn [forArgs].
  - cbn. rewrite app_nil_r, !orb_false_r. split.
    + intros [= <-]. repeat split. constructor.
    + intros (_ & Hp & Hd & Hr). f_equal.
      destruct options, options0; cbn in *. congruence.
  - cbn [filter existsb]. unfold isPath at 1, accepted.
    destruct (startsWith arg "--") eqn:Hflag; cbn [negb].
    + destruct (String.eqb_spec arg "--dry-run") as [->|Hdry].
      * rewrite IH.
        cbn [Options.amazonOrdersPaths Options.isDryrun
               Options.isRefreshCredentials String.eqb Ascii.eqb Bool.eqb].
        cbn. rewrite orb_true_r. split.
        -- intros (Hall & Hp & Hd & Hr). repeat split; auto.
           constructor; [|assumption]. intros _. now left.
        -- intros (Hall & Hp & Hd & Hr). inversion Hall; subst.
           repeat split; auto.
      * destruct (String.eqb_spec arg "--refresh-creds") as [->|Hrefresh].
        -- rewrite IH.
           cbn [Options.amazonOrdersPaths Options.isDryrun
                  Options.isRefreshCredentials].
           cbn. rewrite orb_true_r. split.
           ++ intros (Hall & Hp & Hd & Hr). repeat split; auto.
              constructor; [|assumption]. intros _. now right.
           ++ intros (Hall & Hp & Hd & Hr). inversion Hall; subst.
              repeat split; auto.
        -- split; [discriminate|].
           intros (Hall & _). inversion Hall as [|? ? Harg _]; subst.
           destruct (Harg Hflag); contradiction.
    + rewrite IH.
      cbn [Options.amazonOrdersPaths Options.isDryrun
             Options.isRefreshCredentials].
      assert (Hd : String.eqb "--dry-run" arg = false).
      { apply String.eqb_neq. intros <-. discriminate Hflag. }
      assert (Hr : String.eqb "--refresh-creds" arg = false).
      { apply String.eqb_neq. intros <-. discriminate Hflag. }
      rewrite Hd, Hr, <- app_assoc. cbn [app orb]. split.
      * intros (Hall & H). split; [|exact H].
        constructor; [|assumption]. intros Habs.
        rewrite Hflag in Habs. discriminate.
      * intros (Hall & H). inversion Hall; subst. now split.
Qed.

(** X16: the command line is accepted exactly when every argument after
    the second that starts with "--" is "--dry-run" or "--refresh-creds"
    and at least one argument does not start with "--"; the paths are then
    the arguments that do not start with "--", in their order, and each flag
    tells whether its option occurs. *)
Theorem parseArgs_ok (argv : list string) (options : Options.t) :
  parseArgs argv = inr options <->
  Forall accepted (skipn 2 argv) /\
  Options.amazonOrdersPaths options = filter isPath (skipn 2 argv) /\
  Options.amazonOrdersPaths options <> [] /\
  Options.isDryrun options = existsb (String.eqb "--dry-run") (skipn 2 argv) /\
  Options.isRefreshCredentials options
  = existsb (String.eqb "--refresh-creds") (skipn 2 argv).
Proof.
  unfold parseArgs.
  destruct (forArgs (skipn 2 argv) (Options.mk [] false false))
    as [e|options1] eqn:Hrun.
  - split; [discriminate|].
    intros (Hall & Hp & _ & Hd & Hr).
    assert (Hok : forArgs (skipn 2 argv) (Options.mk [] false false)
                  = inr options) by now apply forArgs_ok.
    congruence.
  - apply forArgs_ok in Hrun as (Hall & Hp & Hd & Hr).
    cbn [Options.amazonOrdersPaths Options.isDryrun
           Options.isRefreshCredentials app orb] in Hp, Hd, Hr.
    destruct (Nat.eqb_spec (length (Options.amazonOrdersPaths options1)) 0)
      as [Hlen|Hlen].
    + split; [discriminate|].
      intros (_ & Hp' & Hne & _). apply length_zero_iff_nil in Hlen.
      congruence.
    + split.
      * intros [= <-]. repeat split; auto.
        intros Hnil. now rewrite Hnil in Hlen.
      * intros (_ & Hp' & _ & Hd' & Hr'). f_equal.
        destruct options, options1; cbn in *. congruence.
Qed.

Lemma parseArgs_ok_witness :
  parseArgs ["node"; "index.js"; "--dry-run"; "orders-1"; "orders-2"]%string
  = inr (Options.mk ["orders-1"; "orders-2"]%string true false).
Proof.
  apply (proj2 (parseArgs_ok
                  ["node"; "index.js"; "--dry-run"; "orders-1";
                   "orders-2"]%string
                  (Options.mk ["orders-1"; "orders-2"]%string true false))).
  split; [|repeat split; try reflexivity; discriminate].
  cbn [skipn].
  apply Forall_cons; [intros _; now left|].
  apply Forall_cons; [intros H; discriminate H|].
  apply Forall_cons; [intros H; discriminate H|constructor].
Defined.

Lemma forArgs_unknown (args : list string) (options0 : Options.t)
  (arg : string) :
  forArgs args options0 = inl (UnknownArg arg) <->
  exists before after,
    args = before ++ arg :: after /\ Forall accepted before /\ ~ accepted arg.
Proof.
  revert options0.
  induction args as [|a rest IH]; intros options0; cbn [forArgs].
  - split; [discriminate|]. intros (before & after & H & _).
    now destruct before.
  - assert (Hcons : forall options1,
               accepted a ->
               (forArgs rest options1 = inl (UnknownArg arg) <->
                exists before after,
                  a :: rest = before ++ arg :: after /\
                  Forall accepted before /\ ~ accepted arg)).
    { intros options1 Ha. rewrite IH. split.
      - intros (before & after & -> & Hall & Hnot).
        exists (a :: before), after. repeat split; auto.
      - intros (before & after & Heq & Hall & Hnot).
        destruct before as [|b before]; cbn in Heq.
        + injection Heq as -> _. contradiction.
        + injection Heq as -> ->. inversion Hall; subst.
          now exists before, after. }
    destruct (startsWith a "--") eqn:Hflag.
    + destruct (String.eqb_spec a "--dry-run") as [Hdry|Hdry].
      { apply Hcons. intros _. now left. }
      destruct (String.eqb_spec a "--refresh-creds") as [Hrefresh|Hrefresh].
      { apply Hcons. intros _. now right. }
      assert (Hnot : ~ accepted a).
      { intros Ha. destruct (Ha Hflag); contradiction. }
      split.
      * intros [= ->]. now exists [], rest.
      * intros (before & after & Heq & Hall & Hnot').
        destruct before as [|b before]; cbn in Heq.
        -- now injection Heq as ->.
        -- injection Heq as -> _. inversion Hall; subst. contradiction.
    + apply Hcons. intros Habs. rewrite Hflag in Habs. discriminate.
Qed.

Lemma forArgs_NoPaths (args : list string) (options0 : Options.t) :
  forArgs args options0 <> inl NoPaths.
Proof.
  revert options0. induction args as [|a rest IH]; intros options0;
    cbn [forArgs]; [discriminate|].
  destruct (startsWith a "--"); [|apply IH].
  destruct (String.eqb a "--dry-run"); [apply IH|].
  destruct (String.eqb a "--refresh-creds"); [apply IH|discriminate].
Qed.

(** X17: the command line is refused for an unknown argument exactly when
    some argument after the second starts with "--" and is neither
    "--dry-run" nor "--refresh-creds", and the error names the first such
    argument; it is refused for want of a path exactly when every argument
    after the second is one of these two options (or there is none). *)
Theorem parseArgs_errors (argv : list string) :
  (forall arg,
      parseArgs argv = inl (UnknownArg arg) <->
      exists before after,
        skipn 2 argv = before ++ arg :: after /\
        Forall accepted before /\ ~ accepted arg) /\
  (parseArgs argv = inl NoPaths <-> Forall knownOption (skipn 2 argv)).
Proof.
  unfold parseArgs.
  destruct (forArgs (skipn 2 argv) (Options.mk [] false false))
    as [e|options1] eqn:Hrun.
  - split.
    + intros arg. rewrite <- (forArgs_unknown _ (Options.mk [] false false)).
      rewrite Hrun. reflexivity.
    + destruct e as [arg|]; [|now apply forArgs_NoPaths in Hrun].
      split; [discriminate|]. intros Hknown.
      apply forArgs_unknown in Hrun
        as (before & after & Heq & _ & Hnot).
      rewrite Heq in Hknown. apply Forall_app in Hknown as [_ Hknown].
      inversion Hknown as [|? ? Harg _]; subst.
      contradiction Hnot. intros _. exact Harg.
  - pose proof Hrun as Hok.
    apply forArgs_ok in Hok as (Hall & Hp & _).
    cbn [Options.amazonOrdersPaths app] in Hp.
    split.
    + intros arg. split.
      * destruct (_ =? _)%nat; discriminate.
      * intros Hex.
        apply (forArgs_unknown _ (Options.mk [] false false)) in Hex.
        congruence.
    + destruct (Nat.eqb_spec (length (Options.amazonOrdersPaths options1)) 0)
        as [Hlen|Hlen].
      * split; [|reflexivity]. intros _.
        apply length_zero_iff_nil in Hlen. rewrite Hlen in Hp.
        clear Hrun Hlen. symmetry in Hp.
        induction (skipn 2 argv) as [|a rest IH]; [constructor|].
        inversion Hall as [|? ? Ha Hrest]; subst.
        cbn [filter] in Hp. unfold isPath at 1 in Hp.
        destruct (startsWith a "--") eqn:Hflag; cbn [negb] in Hp;
          [|discriminate].
        constructor; [now apply Ha|now apply IH].
      * split; [discriminate|]. intros Hknown.
        contradiction Hlen. rewrite Hp.
        clear Hrun Hp Hlen Hall.
        induction (skipn 2 argv) as [|a rest IH]; [reflexivity|].
        inversion Hknown as [|? ? Ha Hrest]; subst.
        cbn [filter]. unfold isPath at 1.
        destruct Ha as [-> | ->]; cbn; now apply IH.
Qed.

Lemma parseArgs_errors_witness :
  parseArgs ["--x"; "--y"; "--refresh-creds"; "--dry-run"]%string
  = inl NoPaths /\
  parseArgs ["node"; "index.js"; "orders-1"; "--dryrun"; "--what"]%string
  = inl (UnknownArg "--dryrun").
Proof.
  split.
  - apply (proj2 (parseArgs_errors
                    ["--x"; "--y"; "--refresh-creds"; "--dry-run"]%string)).
    cbn [skipn].
    apply Forall_cons; [now right|].
    apply Forall_cons; [now left|constructor].
  - apply (proj1 (parseArgs_errors
                    ["node"; "index.js"; "orders-1"; "--dryrun";
                     "--what"]%string)).
    exists ["orders-1"%string], ["--what"%string].
    split; [reflexivity|]. split.
    + apply Forall_cons; [intros H; discriminate H|constructor].
    + intros H. destruct (H eq_refl) as [Habs|Habs]; discriminate Habs.
Defined.

(** ** The start dates *)

(** X18: an order whose date window holds a transaction dated on or after
    [START_DATE] is dated on or after [BUFFERED_START_DATE]: its rows are
    among those that [getOrders] keeps when it is called with that date, as
    the main function does. *)
Theorem buffered_start_covers_window (transactionDate : Date)
  (flatItem : FlatItem.t) (parsed : list FlatItem.t) :
  START_DATE <= transactionDate ->
  inRange transactionDate (FlatItem.orderDate flatItem) = true ->
  In flatItem parsed ->
  In flatItem (sinceStart BUFFERED_START_DATE parsed).
Proof.
  intros Hstart Hrange Hin. unfold sinceStart.
  apply filter_In. split; [assumption|].
  unfold inRange in Hrange. apply andb_prop in Hrange as [_ Hupper].
  apply Z.leb_le in Hupper.
  apply negb_true_iff, Z.ltb_ge.
  unfold BUFFERED_START_DATE. unfold WINDOW_MS in Hupper. lia.
Qed.

Lemma buffered_start_covers_window_witness :
  START_DATE <= START_DATE + 5 * Sample.day /\
  In (FlatItem.mk "o1" (START_DATE - 3 * Sample.day) false "S1" START_DATE
        "Book" (-5))
     (sinceStart BUFFERED_START_DATE
        [FlatItem.mk "o1" (START_DATE - 3 * Sample.day) false "S1" START_DATE
           "Book" (-5)]).
Proof.
  split; [vm_compute; discriminate|].
  apply (@buffered_start_covers_window (START_DATE + 5 * Sample.day)).
  - vm_compute. discriminate.
  - vm_compute. reflexivity.
  - now left.
Defined.

(** ** The Exact and the Combination strategy *)

Lemma exactCandidate_In (amount : Q) (amazonOrder : WorkingOrder)
  (pool : list (Obj Transaction.t)) (t : Obj Transaction.t) :
  In t (filter (fun t => amountsMatch (txAmount t) amount)
               (debitsInWindow amazonOrder pool)) <->
  In t pool /\ exactCandidate amount amazonOrder t.
Proof.
  rewrite filter_In, debitsInWindow_In, amountsMatch_spec.
  unfold exactCandidate. tauto.
Qed.

(** X19: the Exact strategy never throws and leaves the shipment group and
    the returns as they are.  It returns nothing exactly when no
    transaction of the pool is a debit inside the date window of the order
    within the tolerance of the candidate amount; otherwise it returns one
    such transaction, and none of them is nearer in time to the order
    date. *)
Theorem getExactMatches_selects (shipments : list (Obj Shipment.t))
  (amount : Q) (amazonOrder : WorkingOrder) (returns : list Return.t)
  (pool : list (Obj Transaction.t)) :
  exists matches,
    getExactMatches shipments amount amazonOrder returns pool
    = Ok (matches, shipments, returns) /\
    (matches = [] <->
     forall t, In t pool -> ~ exactCandidate amount amazonOrder t) /\
    (forall t, In t matches ->
       matches = [t] /\ In t pool /\ exactCandidate amount amazonOrder t /\
       forall t', In t' pool -> exactCandidate amount amazonOrder t' ->
         getTimeDelta (txDate t) (Order.orderDate amazonOrder)
         <= getTimeDelta (txDate t') (Order.orderDate amazonOrder)).
Proof.
  unfold getExactMatches.
  set (key := fun t : Obj Transaction.t =>
                getTimeDelta (txDate t) (Order.orderDate amazonOrder)).
  destruct (sort _ _) as [|t rest] eqn:Hs.
  - exists []. split; [reflexivity|]. split.
    + split; [|reflexivity]. intros _ t Ht Hcand.
      apply sort_nil_iff in Hs.
      assert (Hin : In t []) by (rewrite <- Hs; now apply exactCandidate_In).
      exact Hin.
    + intros t [].
  - exists [t]. split; [reflexivity|].
    assert (Ht : In t pool /\ exactCandidate amount amazonOrder t).
    { apply exactCandidate_In. eapply sort_In. rewrite Hs. now left. }
    split.
    + split; [discriminate|]. intros Hnone.
      destruct Ht as [Hin Hcand]. now contradiction (Hnone t Hin).
    + intros t0 [<-|[]]. split; [reflexivity|].
      destruct Ht as [Hin Hcand]. repeat split; try assumption;
        try apply Hcand.
      intros t' Hin' Hcand'.
      apply (Zkey_not_before key t' t).
      apply (@sort_head_least _ (closerTo (Order.orderDate amazonOrder))
               (Zkey_irrefl key) (Zkey_asym key) (Zkey_negtrans key)
               _ _ _ Hs).
      now apply exactCandidate_In.
Qed.

Lemma getExactMatches_selects_witness :
  let amazonOrder : WorkingOrder := Order.mk "o1" 0 false [] in
  let shipment := mkObj 0%nat (Shipment.mk "S1" 0 (-20) []) in
  let far := mkObj 0%nat (Transaction.mk "t1" (-20) 432000000 []) in
  let near := mkObj 1%nat (Transaction.mk "t2" (-(20005 # 1000)) 86400000 []) in
  let other := mkObj 2%nat (Transaction.mk "t3" (-25) 86400000 []) in
  getExactMatches [shipment] (-20) amazonOrder [] [far; near; other]
  = Ok ([near], [shipment], []) /\
  exactCandidate (-20) amazonOrder far /\
  getTimeDelta (txDate near) 0 <= getTimeDelta (txDate far) 0.
Proof.
  cbv zeta.
  destruct (getExactMatches_selects
              [mkObj 0%nat (Shipment.mk "S1" 0 (-20) [])] (-20)
              (Order.mk "o1" 0 false []) []
              [mkObj 0%nat (Transaction.mk "t1" (-20) 432000000 []);
               mkObj 1%nat (Transaction.mk "t2" (-(20005 # 1000)) 86400000 []);
               mkObj 2%nat (Transaction.mk "t3" (-25) 86400000 [])])
    as (matches & Hrun & _ & Hsome).
  assert (Hmatches : matches
            = [mkObj 1%nat (Transaction.mk "t2" (-(20005 # 1000)) 86400000 [])]).
  { vm_compute in Hrun. now injection Hrun as <-. }
  subst matches.
  assert (Hfar : exactCandidate (-20) (Order.mk "o1" 0 false [])
                   (mkObj 0%nat (Transaction.mk "t1" (-20) 432000000 [])))
    by (repeat split; vm_compute; reflexivity).
  split; [reflexivity|]. split; [exact Hfar|].
  destruct (Hsome _ (or_introl eq_refl)) as (_ & _ & _ & Hnearest).
  apply Hnearest; [now left|exact Hfar].
Defined.

Lemma getCombinationMatches_throws (shipments : list (Obj Shipment.t))
  (amount : Q) (amazonOrder : WorkingOrder) (returns : list Return.t)
  (pool : list (Obj Transaction.t)) :
  getCombinationMatches shipments amount amazonOrder returns pool = Throw <->
  Z.of_nat (length (debitsInWindow amazonOrder pool)) mod 32 = 31.
Proof.
  unfold getCombinationMatches.
  rewrite <- (sort_length (closerTo (Order.orderDate amazonOrder))
                          (debitsInWindow amazonOrder pool)).
  rewrite <- combinations_throws.
  destruct (combinations _) as [all| |]; cbn [bind]; split; intros H;
    first [discriminate H | reflexivity].
Qed.

(** X20: the Combination strategy enumerates the subsets of the debits
    inside the date window of the order, nearest date first.  When it
    returns, the shipment group and the returns are as they were; what it
    returns is empty or one of these subsets, of two transactions or more,
    whose total is within the tolerance of the candidate amount; with at
    most 30 such debits it returns nothing only if no subset of two or
    more of them has such a total.  It throws exactly when the number of
    these debits is 31 modulo 32. *)
Theorem getCombinationMatches_selects (shipments : list (Obj Shipment.t))
  (amount : Q) (amazonOrder : WorkingOrder) (returns : list Return.t)
  (pool : list (Obj Transaction.t)) :
  (getCombinationMatches shipments amount amazonOrder returns pool = Throw
   <-> Z.of_nat (length (debitsInWindow amazonOrder pool)) mod 32 = 31) /\
  forall matches s1 r1,
    getCombinationMatches shipments amount amazonOrder returns pool
    = Ok (matches, s1, r1) ->
    s1 = shipments /\ r1 = returns /\
    (matches <> [] ->
     subseq matches (combinationPool amazonOrder pool) /\
     (2 <= length matches)%nat /\
     amountsMatch (getTotalAmount txAmount matches) amount = true) /\
    (matches = [] ->
     (length (debitsInWindow amazonOrder pool) <= 30)%nat ->
     forall c, subseq c (combinationPool amazonOrder pool) ->
               (2 <= length c)%nat ->
               amountsMatch (getTotalAmount txAmount c) amount = false).
Proof.
  split; [apply getCombinationMatches_throws|].
  intros matches s1 r1. unfold getCombinationMatches.
  fold (combinationPool amazonOrder pool).
  destruct (combinations (combinationPool amazonOrder pool))
    as [all| |] eqn:Hall; cbn [bind]; try discriminate.
  destruct (find _ _) as [found|] eqn:Hfind; intros [= <- <- <-];
    (split; [reflexivity|]); (split; [reflexivity|]).
  - apply find_some in Hfind as [Hin Hmatch].
    apply filter_In in Hin as [Hin Hlen]. apply Nat.leb_le in Hlen.
    split.
    + intros _. repeat split; try assumption.
      apply combinations_subseq in Hall.
      rewrite Forall_forall in Hall. now apply Hall.
    + intros ->. cbn in Hlen. lia.
  - split; [intros H; now contradiction H|].
    intros _ Hsmall c Hsub Hlen.
    apply (proj1 (find_none_iff _ _) Hfind).
    apply filter_In. split; [|now apply Nat.leb_le].
    eapply combinations_complete; [|exact Hall|exact Hsub|].
    + unfold combinationPool. now rewrite sort_length.
    + intros ->. cbn in Hlen. lia.
Qed.

Lemma getCombinationMatches_selects_witness :
  let amazonOrder : WorkingOrder := Order.mk "o1" 0 false [] in
  let shipment := mkObj 0%nat (Shipment.mk "S1" 0 (-50) []) in
  let t1 := mkObj 0%nat (Transaction.mk "t1" (-20) 172800000 []) in
  let t2 := mkObj 1%nat (Transaction.mk "t2" (-7) 86400000 []) in
  let t3 := mkObj 2%nat (Transaction.mk "t3" (-30) 259200000 []) in
  getCombinationMatches [shipment] (-50) amazonOrder [] [t1; t2; t3]
  = Ok ([t1; t3], [shipment], []) /\
  subseq [t1; t3] (combinationPool amazonOrder [t1; t2; t3]) /\
  amountsMatch (getTotalAmount txAmount [t1; t3]) (-50) = true.
Proof.
  cbv zeta.
  pose proof (getCombinationMatches_selects
                [mkObj 0%nat (Shipment.mk "S1" 0 (-50) [])] (-50)
                (Order.mk "o1" 0 false []) []
                [mkObj 0%nat (Transaction.mk "t1" (-20) 172800000 []);
                 mkObj 1%nat (Transaction.mk "t2" (-7) 86400000 []);
                 mkObj 2%nat (Transaction.mk "t3" (-30) 259200000 [])])
    as [_ H].
  specialize (H _ _ _ eq_refl).
  destruct H as (_ & _ & Hsome & _).
  split; [reflexivity|].
  destruct Hsome as (Hsub & _ & Hmatch); [discriminate|].
  now split.
Defined.

(** ** A run without transactions *)

Lemma largerTotal_asym (a b : WorkingOrder) :
  largerTotal a b = true -> largerTotal b a = false.
Proof. unfold largerTotal. rewrite Qltb_lt, Qltb_ge. lra. Qed.

Lemma largerTotal_negtrans (a b c : WorkingOrder) :
  largerTotal a b = false -> largerTotal b c = false ->
  largerTotal a c = false.
Proof. unfold largerTotal. rewrite !Qltb_ge. lra. Qed.

Lemma StronglySorted_map (A B : Type) (f : A -> B) (R : B -> B -> Prop)
  (l : list A) :
  StronglySorted (fun a b => R (f a) (f b)) l -> StronglySorted R (map f l).
Proof.
  induction 1 as [|x rest _ IH Hall]; cbn; constructor.
  - assumption.
  - apply Forall_map. exact Hall.
Qed.

Lemma sort_largerTotal_sorted (orders : list WorkingOrder) :
  StronglySorted (fun a b : AmazonOrder => (orderTotal b <= orderTotal a)%Q)
                 (map plainOrder (sort largerTotal orders)).
Proof.
  apply StronglySorted_map.
  apply StronglySorted_weaken with (R := notAfter largerTotal).
  - intros a b. unfold notAfter, largerTotal, orderTotal.
    cbn [plainOrder Order.shipments].
    rewrite Qltb_ge, <- !getTotalAmount_shipments. lra.
  - apply sort_sorted; [exact largerTotal_asym|exact largerTotal_negtrans].
Qed.

Lemma partOf_nil_inv (A : Type) (c : list A) : partOf c [] -> c = [].
Proof.
  intros [rest Hperm]. apply Permutation_sym, Permutation_nil in Hperm.
  now apply app_eq_nil in Hperm as [Hc _].
Qed.

Lemma noMatch_nothing (matcher : Matcher) (amount : Q) (orderDate : Date)
  (usedGiftCard : bool) :
  noMatch matcher amount orderDate usedGiftCard [].
Proof.
  destruct matcher; cbn [noMatch debitsOf filter].
  - intros t [].
  - intros c Hc Hlen. apply partOf_nil_inv in Hc. subst. cbn in Hlen. lia.
  - right. intros t [].
Qed.

(** X21: with no transaction at all and at most 30 shipments in every
    order, [joinOrders] returns no record and no transaction, leaves the
    caller's arrays as they are, and returns all the returns as they came
    and all the orders, in non-increasing order of the total of their
    shipments. *)
Theorem joinOrders_no_transactions (orders : list AmazonOrder)
  (returns : list Return.t) :
  Forall (fun o : AmazonOrder => (length (Order.shipments o) <= 30)%nat)
         orders ->
  exists result,
    joinOrders (mkCaller [] orders returns)
    = Ok (result, mkCaller [] orders returns) /\
    resultJoinedRecords result = [] /\
    remainingMintTransactions result = [] /\
    remainingAmazonReturns result = returns /\
    Permutation (remainingAmazonOrders result) orders /\
    StronglySorted (fun a b : AmazonOrder => (orderTotal b <= orderTotal a)%Q)
                   (remainingAmazonOrders result).
Proof.
  intros Hsmall. unfold joinOrders.
  cbn [callerTransactions callerOrders callerReturns tagFrom].
  rewrite (@forMatchers_quiet [ExactMatcher; CombinationMatcher;
                               GiftCardMatcher]).
  - cbn [bind giftCards amazonReturns mintTransactions joinedRecords].
    rewrite forReturns_quiet by (intros ret tx _ []).
    cbn [app sort map]. eexists. split; [reflexivity|].
    cbn [resultJoinedRecords remainingMintTransactions
           remainingAmazonReturns remainingAmazonOrders].
    repeat split.
    + rewrite <- (map_plain_clone orders) at 2.
      apply Permutation_map, sort_perm.
    + apply sort_largerTotal_sorted.
  - repeat split; cbn [mintTransactions].
    + cbn. lia.
    + eapply Permutation_Forall; [symmetry; apply sort_perm|].
      apply Forall_map. revert Hsmall. apply Forall_impl.
      intros o Ho. cbn [cloneOrder Order.shipments].
      now rewrite tagFrom_length.
    + intros m o _ _ c _ _. apply noMatch_nothing.
  - auto.
Qed.

Lemma joinOrders_no_transactions_witness :
  exists result,
    joinOrders (mkCaller [] [Sample.smallOrder; Sample.partOrder]
                         [Sample.pendingReturn])
    = Ok (result, mkCaller [] [Sample.smallOrder; Sample.partOrder]
                           [Sample.pendingReturn]) /\
    resultJoinedRecords result = [] /\
    remainingMintTransactions result = [] /\
    remainingAmazonReturns result = [Sample.pendingReturn] /\
    Permutation (remainingAmazonOrders result)
                [Sample.smallOrder; Sample.partOrder] /\
    StronglySorted (fun a b : AmazonOrder => (orderTotal b <= orderTotal a)%Q)
                   (remainingAmazonOrders result).
Proof.
  apply (@joinOrders_no_transactions [Sample.smallOrder; Sample.partOrder]
           [Sample.pendingReturn]).
  repeat constructor; cbn; lia.
Defined.

(** ** removeItem *)

(** X22: [removeItem] takes the first occurrence of the object out of the
    array and leaves the other elements in their order; an array that does
    not hold the object is left as it is. *)
Theorem removeItem_first (A : Type) (array : list (Obj A)) (item : Obj A) :
  (~ In (ref item) (map (@ref A) array) -> removeItem array item = array) /\
  (In (ref item) (map (@ref A) array) ->
   exists before x after,
     array = before ++ x :: after /\ ref x = ref item /\
     ~ In (ref item) (map (@ref A) before) /\
     removeItem array item = before ++ after).
Proof.
  split; [apply removeItem_absent|].
  induction array as [|y rest IH]; cbn [map removeItem]; [intros []|].
  destruct (Nat.eqb_spec (ref y) (ref item)) as [Heq|Hne].
  - intros _. exists [], y, rest. repeat split; auto.
  - intros [Habs|Hin]; [contradiction|].
    destruct (IH Hin) as (before & x & after & -> & Hx & Hnot & ->).
    exists (y :: before), x, after. repeat split; auto.
    cbn. intros [Habs|Habs]; [contradiction|now apply Hnot].
Qed.

Lemma removeItem_first_witness :
  removeItem [mkObj 0%nat "a"%string; mkObj 1%nat "b"%string;
              mkObj 0%nat "a"%string]
             (mkObj 0%nat "a"%string)
  = [mkObj 1%nat "b"%string; mkObj 0%nat "a"%string] /\
  removeItem [mkObj 1%nat "b"%string] (mkObj 0%nat "a"%string)
  = [mkObj 1%nat "b"%string].
Proof.
  split.
  - reflexivity.
  - apply (proj1 (@removeItem_first string [mkObj 1%nat "b"%string]
                    (mkObj 0%nat "a"%string))).
    cbn. intros [H|[]]. discriminate H.
Defined.

(** ** The return pass leaves nothing to settle *)

(** X24: when [joinOrders] returns, no transaction that it leaves has an
    amount within the tolerance of the amount of a return that it
    leaves. *)
Theorem joinOrders_no_refund_left (caller : Caller) (result : JoinResult)
  (caller' : Caller) :
  joinOrders caller = Ok (result, caller') ->
  forall ret t,
    In ret (remainingAmazonReturns result) ->
    In t (remainingMintTransactions result) ->
    amountsMatch (Transaction.amount t) (Return.amount ret) = false.
Proof.
  intros Hrun ret t Hret Ht.
  apply joinOrders_result in Hrun
    as (orders1 & st1 & returns2 & pool2 & records2 & _ & Hsecond & -> & _).
  cbn [remainingAmazonReturns remainingMintTransactions] in Hret, Ht.
  destruct (forReturns_spec (giftCards st1) (amazonReturns st1) []
              (mintTransactions st1) (joinedRecords st1))
    as (unmatched & pool' & news & Heq & Hrel).
  rewrite Hsecond in Heq. injection Heq as -> -> _.
  apply in_map_iff in Ht as (tx & <- & Htx).
  exact (ReturnsMatched_unmatched Hrel ret tx Hret Htx).
Qed.

Lemma joinOrders_no_refund_left_witness :
  exists result caller',
    joinOrders (mkCaller [Transaction.mk "t1" 10 Sample.day []] []
                         [Return.mk "o1" Sample.day 25 []])
    = Ok (result, caller') /\
    remainingMintTransactions result = [Transaction.mk "t1" 10 Sample.day []]
    /\ remainingAmazonReturns result = [Return.mk "o1" Sample.day 25 []] /\
    amountsMatch 10 25 = false.
Proof.
  destruct (joinOrders (mkCaller [Transaction.mk "t1" 10 Sample.day []] []
                                 [Return.mk "o1" Sample.day 25 []]))
    as [[result caller']| |] eqn:Hrun;
    try (vm_compute in Hrun; discriminate Hrun).
  exists result, caller'. split; [reflexivity|].
  pose proof (@joinOrders_no_refund_left _ result caller' Hrun) as Hleft.
  vm_compute in Hrun. injection Hrun as <- _.
  split; [reflexivity|]. split; [reflexivity|].
  apply (Hleft (Return.mk "o1" Sample.day 25 [])
               (Transaction.mk "t1" 10 Sample.day [])); now left.
Defined.

(** ** What a run leaves, in the order it was given *)

Lemma subseq_snoc_l (A : Type) (s l : list A) (x : A) :
  subseq s l -> subseq s (l ++ [x]).
Proof.
  intros Hs. rewrite <- (app_nil_r s).
  apply subseq_app; [assumption|apply subseq_nil_l].
Qed.

Lemma ReturnsMatched_returns (giftCards : list GiftCard.t)
  (todo : list Return.t) (pool : list (Obj Transaction.t))
  (unmatched : list Return.t) (pool' : list (Obj Transaction.t))
  (news : list JoinedRecord.t) :
  ReturnsMatched giftCards todo pool unmatched pool' news ->
  subseq unmatched todo.
Proof.
  induction 1 as [pool| ? ? ? ? ? ? ? ? _ _ IH | ? ? ? ? ? ? _ _ IH].
  - constructor.
  - now apply subseq_skip.
  - now apply subseq_keep.
Qed.

(** X27: the transactions and the returns that [joinOrders] returns as
    remaining are transactions and returns of the input, in the order of
    the input. *)
Theorem joinOrders_keeps_order (caller : Caller) (result : JoinResult)
  (caller' : Caller) :
  joinOrders caller = Ok (result, caller') ->
  subseq (remainingMintTransactions result) (callerTransactions caller) /\
  subseq (remainingAmazonReturns result) (callerReturns caller).
Proof.
  intros Hrun.
  apply joinOrders_result in Hrun
    as (orders1 & st1 & returns2 & pool2 & records2 &
        Hfirst & Hsecond & -> & _).
  cbn [remainingMintTransactions remainingAmazonReturns].
  apply (@forMatchers_invariant
           (fun _ st =>
              subseq (map (@val _) (mintTransactions st))
                     (callerTransactions caller) /\
              subseq (amazonReturns st) (callerReturns caller))) in Hfirst.
  - destruct Hfirst as [Hpool Hreturns].
    destruct (forReturns_spec (giftCards st1) (amazonReturns st1) []
                (mintTransactions st1) (joinedRecords st1))
      as (unmatched & pool' & news & Heq & Hrel).
    rewrite Hsecond in Heq. injection Heq as -> -> _. cbn [app]. split.
    + eapply subseq_trans; [|exact Hpool].
      apply subseq_map. exact (ReturnsMatched_pool Hrel).
    + eapply subseq_trans; [|exact Hreturns].
      exact (ReturnsMatched_returns Hrel).
  - intros kept o rest st o1 st2 [Hpool Hreturns]
      [shipments matches s1 news _ _ _ _ _ Hret Htx _ _ _].
    split.
    + eapply subseq_trans; [|exact Hpool].
      rewrite Htx. apply subseq_map, removeItems_subseq.
    + eapply subseq_trans; [exact Hret|exact Hreturns].
  - intros kept o rest st H _. exact H.
  - cbn [mintTransactions amazonReturns]. rewrite tagFrom_val.
    split; apply subseq_refl.
Qed.

Lemma joinOrders_keeps_order_witness :
  exists result caller',
    joinOrders Sample.busyRun = Ok (result, caller') /\
    map Transaction.id (remainingMintTransactions result)
    = ["t0"; "t4"]%string /\
    map Return.orderId (remainingAmazonReturns result)
    = ["o8"; "o6"]%string /\
    subseq (remainingMintTransactions result)
           (callerTransactions Sample.busyRun) /\
    subseq (remainingAmazonReturns result) (callerReturns Sample.busyRun).
Proof.
  destruct (joinOrders Sample.busyRun) as [[result caller']| |] eqn:Hrun;
    try (vm_compute in Hrun; discriminate Hrun).
  exists result, caller'. split; [reflexivity|].
  pose proof (@joinOrders_keeps_order Sample.busyRun result caller' Hrun)
    as Hkept.
  vm_compute in Hrun. injection Hrun as <- _.
  do 2 (split; [reflexivity|]).
  exact Hkept.
Defined.

(** ** Orders that are matched in full *)

Lemma whileDirty_flag_kept (fuel : nat) (matcher : Matcher) :
  forall o st o' removed' st',
    whileDirty fuel matcher o true st = Ok (o', removed', st') ->
    removed' = true.
Proof.
  induction fuel as [|fuel IH]; intros o st o' removed' st';
    cbn [whileDirty]; [discriminate|].
  destruct (combinations (Order.shipments o)) as [all| |];
    cbn [bind]; try discriminate.
  destruct (forShipmentCombinations _ _ _ _) as [[[o1 st1]|]| |];
    cbn [bind]; try discriminate.
  - cbn [orb]. apply IH.
  - now intros [= _ <- _].
Qed.

(** An order that the [while] loop leaves without shipments, and that had
    some, has been taken out of [amazonOrders]. *)
Lemma whileDirty_flag (fuel : nat) (matcher : Matcher) :
  forall o removed st o' removed' st',
    whileDirty fuel matcher o removed st = Ok (o', removed', st') ->
    Order.shipments o' = [] -> removed' = true \/ Order.shipments o = [].
Proof.
  induction fuel as [|fuel IH]; intros o removed st o' removed' st';
    cbn [whileDirty]; [discriminate|].
  destruct (combinations (Order.shipments o)) as [all| |];
    cbn [bind]; try discriminate.
  destruct (forShipmentCombinations _ _ _ _) as [[[o1 st1]|]| |];
    cbn [bind]; try discriminate.
  - intros Hrest Hempty.
    destruct (IH _ _ _ _ _ _ Hrest Hempty) as [Hflag|Hempty1];
      [now left|].
    left. rewrite Hempty1 in Hrest. cbn [length Nat.eqb] in Hrest.
    rewrite orb_true_r in Hrest.
    now apply whileDirty_flag_kept in Hrest.
  - intros [= <- <- <-] Hempty. now right.
Qed.

Lemma forOrders_nonempty (matcher : Matcher) (todo : list WorkingOrder) :
  forall kept st orders' st',
    Forall (fun o : WorkingOrder => Order.shipments o <> []) (kept ++ todo) ->
    forOrders matcher kept todo st = Ok (orders', st') ->
    Forall (fun o : WorkingOrder => Order.shipments o <> []) orders'.
Proof.
  induction todo as [|o rest IH]; intros kept st orders' st' Hall;
    cbn [forOrders].
  - intros [= <- <-]. now rewrite app_nil_r in Hall.
  - destruct (whileDirty _ _ _ _ _) as [[[o1 removed] st1]| |] eqn:Hwhile;
      cbn [bind]; try discriminate.
    apply Forall_app in Hall as [Hkept Htodo].
    inversion Htodo as [|? ? Ho Hrest]; subst.
    destruct removed.
    + apply IH. apply Forall_app. now split.
    + apply IH. rewrite <- app_assoc. apply Forall_app. split; [assumption|].
      constructor; [|assumption].
      intros Hempty.
      destruct (whileDirty_flag _ _ _ _ _ Hwhile Hempty); [discriminate|].
      contradiction.
Qed.

Lemma forMatchers_nonempty (matchers : list Matcher) :
  forall orders st orders' st',
    Forall (fun o : WorkingOrder => Order.shipments o <> []) orders ->
    forMatchers matchers orders st = Ok (orders', st') ->
    Forall (fun o : WorkingOrder => Order.shipments o <> []) orders'.
Proof.
  induction matchers as [|matcher rest IH]; intros orders st orders' st' Hall;
    cbn [forMatchers].
  - now intros [= <- <-].
  - destruct (forOrders matcher [] orders st) as [[orders1 st1]| |] eqn:Hfor;
      cbn [bind]; try discriminate.
    apply IH. eapply forOrders_nonempty; [|exact Hfor]. exact Hall.
Qed.

(** X28: when every order of the input has a shipment, so has every order
    that [joinOrders] returns as remaining: an order whose shipments are
    all matched is not returned. *)
Theorem joinOrders_drops_matched_orders (caller : Caller)
  (result : JoinResult) (caller' : Caller) :
  Forall (fun o : AmazonOrder => Order.shipments o <> [])
         (callerOrders caller) ->
  joinOrders caller = Ok (result, caller') ->
  Forall (fun o : AmazonOrder => Order.shipments o <> [])
         (remainingAmazonOrders result).
Proof.
  intros Hall Hrun.
  apply joinOrders_result in Hrun
    as (orders1 & st1 & returns2 & pool2 & records2 & Hfirst & _ & -> & _).
  cbn [remainingAmazonOrders].
  apply forMatchers_nonempty in Hfirst.
  - apply Forall_map. revert Hfirst. apply Forall_impl.
    intros o Ho Hempty. cbn [plainOrder Order.shipments] in Hempty.
    apply map_eq_nil in Hempty. contradiction.
  - apply Forall_sort, Forall_map. revert Hall. apply Forall_impl.
    intros o Ho Hempty. cbn [cloneOrder Order.shipments] in Hempty.
    destruct (Order.shipments o); [now apply Ho|discriminate].
Qed.

Lemma joinOrders_drops_matched_orders_witness :
  Forall (fun o : AmazonOrder => Order.shipments o <> [])
         (callerOrders Sample.busyRun) /\
  exists result caller',
    joinOrders Sample.busyRun = Ok (result, caller') /\
    map (@Order.orderId Shipment.t) (callerOrders Sample.busyRun)
    = ["o1"; "o2"; "o3"]%string /\
    map (@Order.orderId Shipment.t) (remainingAmazonOrders result)
    = ["o1"]%string /\
    Forall (fun o : AmazonOrder => Order.shipments o <> [])
           (remainingAmazonOrders result).
Proof.
  assert (Hall : Forall (fun o : AmazonOrder => Order.shipments o <> [])
                        (callerOrders Sample.busyRun))
    by (repeat constructor; discriminate).
  split; [exact Hall|].
  destruct (joinOrders Sample.busyRun) as [[result caller']| |] eqn:Hrun;
    try (vm_compute in Hrun; discriminate Hrun).
  exists result, caller'. split; [reflexivity|].
  pose proof (@joinOrders_drops_matched_orders Sample.busyRun result caller'
                Hall Hrun) as Hleft.
  vm_compute in Hrun. injection Hrun as <- _.
  do 2 (split; [reflexivity|]).
  exact Hleft.
Defined.
